(** * dns-bench: a shallow embedding of [main.go] and its specification

    The program benchmarks DNS resolvers: it parses a list of resolvers,
    sends [count] queries to each, and summarises the elapsed times
    (min / avg / median / p95 / max) together with the distinct errors.

    The embedding follows [main.go] function by function and keeps its
    names.  It models the amd64 builds of the Makefile (the first target
    of [build-all]):
    - [int] and [time.Duration] are 64-bit integers, written as [Z];
    - [float64] is IEEE 754 binary64, written as Rocq's primitive [float];
      every operation is rounded on its own (the amd64 back end emits no
      fused multiply-add);
    - a conversion [int(f)] whose operand is NaN or out of range yields the
      "integer indefinite" value [MinInt64], as CVTTSD2SQ does (the Go
      specification leaves this value to the implementation);
    - strings are byte strings ([string] of [ascii]);
    - a run-time panic is the [Panic] outcome of the [result] monad;
    - the network, the clock, the random source and the file system are the
      fields of an environment record [Env], and standard output and
      standard error are traces of [fmt] calls. *)

From Stdlib Require Import ZArith List String Ascii Bool Lia Floats.
From Stdlib Require Import Reals Lra Psatz DecimalString.
From stdpp Require Import gmap strings.
Import ListNotations.

Open Scope string_scope.
Open Scope list_scope.
Open Scope Z_scope.

(* ================================================================= *)
(** ** The Go run time *)

Module Go.

(** *** Panics *)

Inductive panic : Type :=
| IndexOutOfRange (index length : Z)
| NilDereference
| MakesliceCapOutOfRange.

Inductive result (A : Type) : Type :=
| Ok (a : A)
| Panic (p : panic).
Arguments Ok {A} a.
Arguments Panic {A} p.

(** A panic ends the computation: the monad of the statements that
    follow, with stdpp's notation [x ← e; k]. *)
#[global] Instance result_ret : MRet result := @Ok.
#[global] Instance result_bind : MBind result := fun A B k r =>
  match r with
  | Ok a => k a
  | Panic p => Panic p
  end.

(** *** Integers *)

Definition MaxInt64 : Z := 9223372036854775807.
Definition MinInt64 : Z := -9223372036854775808.

(** Two's complement wrap-around of [int] arithmetic. *)
Definition wrap64 (z : Z) : Z :=
  (z + 9223372036854775808) mod 18446744073709551616 - 9223372036854775808.

(** [len(l)] *)
Definition len {A : Type} (l : list A) : Z := Z.of_nat (length l).

(** [l[i]], with its bounds check. *)
Definition slice_index {A : Type} (l : list A) (i : Z) : result A :=
  if (0 <=? i) && (i <? len l) then
    match nth_error l (Z.to_nat i) with
    | Some a => Ok a
    | None => Panic (IndexOutOfRange i (len l))
    end
  else Panic (IndexOutOfRange i (len l)).

(** *** float64 *)

(** [float64(z)]: the binary64 number nearest to the integer [z]. *)
Definition float64_of_int (z : Z) : float :=
  SF2Prim (binary_normalize prec emax z 0 false).

(** [int(f)]: truncation toward zero; integer indefinite when [f] is NaN,
    infinite or outside [int64]. *)
Definition int_of_float64 (f : float) : Z :=
  match Prim2SF f with
  | S754_zero _ => 0
  | S754_finite s m e =>
      let z := cond_Zopp s (Z.shiftl (Zpos m) e) in
      if (MinInt64 <=? z) && (z <=? MaxInt64) then z else MinInt64
  | S754_infinity _ | S754_nan => MinInt64
  end.

(** [math.Floor] and [math.Ceil] on the specification floats: a float
    whose exponent is not negative is an integer already; otherwise the
    integer below (above) has at most 53 bits and converts exactly.  The
    sign of a zero result is the sign of the operand. *)
Definition SFfloor (x : spec_float) : spec_float :=
  match x with
  | S754_finite s m e =>
      if 0 <=? e then x
      else binary_normalize prec emax (Z.shiftl (cond_Zopp s (Zpos m)) e) 0 s
  | _ => x
  end.

Definition SFceil (x : spec_float) : spec_float :=
  match x with
  | S754_finite s m e =>
      if 0 <=? e then x
      else binary_normalize prec emax (- Z.shiftl (- cond_Zopp s (Zpos m)) e) 0 s
  | _ => x
  end.

Definition Floor (x : float) : float := SF2Prim (SFfloor (Prim2SF x)).
Definition Ceil (x : float) : float := SF2Prim (SFceil (Prim2SF x)).

Definition IsNaN (x : float) : bool := negb (x =? x)%float.

(** [sort.Float64s]: ascending order, NaN before every other value.  The
    order is total on what [summarize] sorts, so every sorting algorithm
    returns the list that this insertion sort returns. *)
Definition float64_less (x y : float) : bool :=
  (x <? y)%float || (IsNaN x && negb (IsNaN y)).

Fixpoint insert_float64 (x : float) (l : list float) : list float :=
  match l with
  | [] => [x]
  | y :: l' => if float64_less y x then y :: insert_float64 x l' else x :: l
  end.

Definition Float64s (l : list float) : list float :=
  fold_right insert_float64 [] l.

(** *** strconv / fmt: the verbs whose result the program itself uses *)

Definition decimal (z : Z) : string := NilZero.string_of_int (Z.to_int z).

Fixpoint zeros (n : nat) : string :=
  match n with
  | O => ""
  | S n' => "0" +:+ zeros n'
  end.

Definition zero_pad (width : nat) (s : string) : string :=
  zeros (width - String.length s) +:+ s.

(** [m * 2^e * 10^digits] rounded to the nearest integer, ties to even. *)
Definition round_scaled (m : positive) (e : Z) (digits : nat) : Z :=
  let n := Zpos m * 10 ^ Z.of_nat digits in
  if 0 <=? e then n * 2 ^ e
  else
    let d := 2 ^ (- e) in
    let q := n / d in
    let r := n mod d in
    match (2 * r ?= d) with
    | Lt => q
    | Gt => q + 1
    | Eq => if Z.even q then q else q + 1
    end.

(** [strconv.FormatFloat(f, 'f', digits, 64)], the verb [%.<digits>f]:
    the exact decimal expansion, rounded half to even. *)
Definition FormatFloat_f (digits : nat) (f : float) : string :=
  let frac (n : Z) :=
    match digits with
    | O => ""
    | _ => "." +:+ zero_pad digits (decimal (n mod 10 ^ Z.of_nat digits))
    end in
  let sign (s : bool) := if s then "-" else "" in
  match Prim2SF f with
  | S754_nan => "NaN"
  | S754_infinity s => if s then "-Inf" else "+Inf"
  | S754_zero s => sign s +:+ "0" +:+ frac 0
  | S754_finite s m e =>
      let n := round_scaled m e digits in
      sign s +:+ decimal (n / 10 ^ Z.of_nat digits) +:+ frac n
  end.

End Go.
Export Go.

(* ================================================================= *)
(** ** Package [strings] and [net]: the functions [main.go] calls *)

Module GoStrings.

(** [s[n:]] and [s[:n]] for [n <= len(s)]. *)
Fixpoint slice_from (n : nat) (s : string) : string :=
  match n, s with
  | S n', String _ s' => slice_from n' s'
  | _, _ => s
  end.

Fixpoint slice_to (n : nat) (s : string) : string :=
  match n, s with
  | S n', String c s' => String c (slice_to n' s')
  | _, _ => ""
  end.

(** [strings.Index]: the byte offset of the first instance of [substr];
    [None] stands for Go's [-1]. *)
Fixpoint Index (s substr : string) : option nat :=
  if String.prefix substr s then Some O
  else match s with
       | EmptyString => None
       | String _ s' => option_map S (Index s' substr)
       end.

(** [strings.Count] for a non-empty [substr]: the non-overlapping
    instances.  Every round drops at least one byte, so [len(s)] rounds
    of the loop are enough. *)
Fixpoint Count_loop (fuel : nat) (s substr : string) : nat :=
  match fuel with
  | O => O
  | S fuel' =>
      match Index s substr with
      | None => O
      | Some i => S (Count_loop fuel' (slice_from (i + String.length substr) s) substr)
      end
  end.

Definition Count (s substr : string) : nat :=
  Count_loop (String.length s) s substr.

(** The loop of [genSplit] ([sepSave = 0]): [n] is the number of cuts
    still allowed, the list is [a[:i+1]]. *)
Fixpoint genSplit_loop (sep : string) (n : nat) (s : string) : list string :=
  match n with
  | O => [s]
  | S n' =>
      match Index s sep with
      | None => [s]
      | Some m => slice_to m s :: genSplit_loop sep n' (slice_from (m + String.length sep) s)
      end
  end.

(** [genSplit(s, sep, 0, n)] for a non-empty [sep] (both call sites pass
    a one-byte separator; the branch for [sep == ""] is left out). *)
Definition genSplit (s sep : string) (n : Z) : list string :=
  if n =? 0 then []
  else
    let n := if n <? 0 then Z.of_nat (Count s sep) + 1 else n in
    let n := if Z.of_nat (String.length s) + 1 <? n
             then Z.of_nat (String.length s) + 1 else n in
    genSplit_loop sep (Z.to_nat (n - 1)) s.

Definition Split (s sep : string) : list string := genSplit s sep (-1).
Definition SplitN (s sep : string) (n : Z) : list string := genSplit s sep n.

(** [strings.Cut] *)
Definition Cut (s sep : string) : string * string * bool :=
  match Index s sep with
  | Some i => (slice_to i s, slice_from (i + String.length sep) s, true)
  | None => (s, "", false)
  end.

(** *** [strings.TrimSpace] *)

Definition byte (n : nat) : ascii := ascii_of_nat n.

Fixpoint bytes (l : list nat) : string :=
  match l with
  | [] => ""
  | n :: l' => String (byte n) (bytes l')
  end.

(** The table [asciiSpace]: tab, line feed, vertical tab, form feed,
    carriage return, space. *)
Definition asciiSpace (c : ascii) : bool :=
  let n := nat_of_ascii c in
  (((9 <=? n) && (n <=? 13)) || (n =? 32))%nat.

(** The UTF-8 encodings of the other code points of [unicode.IsSpace]:
    U+0085, U+00A0, U+1680, U+2000..U+200A, U+2028, U+2029, U+202F,
    U+205F, U+3000. *)
Definition unicodeSpace : list string :=
  map bytes
    [ [194; 133]; [194; 160]; [225; 154; 128];
      [226; 128; 128]; [226; 128; 129]; [226; 128; 130]; [226; 128; 131];
      [226; 128; 132]; [226; 128; 133]; [226; 128; 134]; [226; 128; 135];
      [226; 128; 136]; [226; 128; 137]; [226; 128; 138];
      [226; 128; 168]; [226; 128; 169]; [226; 128; 175];
      [226; 129; 159]; [227; 128; 128] ]%nat.

Definition HasSuffix (s suffix : string) : bool :=
  (String.length suffix <=? String.length s)%nat &&
  String.eqb (slice_from (String.length s - String.length suffix) s) suffix.

(** The width in bytes of the white-space rune [s] starts with. *)
Definition leadingSpace (s : string) : option nat :=
  match s with
  | EmptyString => None
  | String c _ =>
      if asciiSpace c then Some 1%nat
      else option_map String.length (find (fun w => String.prefix w s) unicodeSpace)
  end.

(** The width in bytes of the white-space rune [s] ends with. *)
Definition trailingSpace (s : string) : option nat :=
  match String.get (String.length s - 1) s with
  | None => None
  | Some c =>
      if asciiSpace c then Some 1%nat
      else option_map String.length (find (fun w => HasSuffix s w) unicodeSpace)
  end.

Fixpoint TrimLeft_loop (fuel : nat) (s : string) : string :=
  match fuel with
  | O => s
  | S fuel' =>
      match leadingSpace s with
      | Some w => TrimLeft_loop fuel' (slice_from w s)
      | None => s
      end
  end.

Fixpoint TrimRight_loop (fuel : nat) (s : string) : string :=
  match fuel with
  | O => s
  | S fuel' =>
      match trailingSpace s with
      | Some w => TrimRight_loop fuel' (slice_to (String.length s - w) s)
      | None => s
      end
  end.

(** [strings.TrimSpace]: all leading and trailing white-space runes
    removed. *)
Definition TrimSpace (s : string) : string :=
  let s := TrimLeft_loop (String.length s) s in
  TrimRight_loop (String.length s) s.

(** *** [strings.ToLower] *)

Fixpoint map_bytes (f : ascii -> ascii) (s : string) : string :=
  match s with
  | EmptyString => EmptyString
  | String c s' => String (f c) (map_bytes f s')
  end.

Fixpoint all_bytes (f : ascii -> bool) (s : string) : bool :=
  match s with
  | EmptyString => true
  | String c s' => f c && all_bytes f s'
  end.

Definition isUpper (c : ascii) : bool :=
  ((65 <=? nat_of_ascii c) && (nat_of_ascii c <=? 90))%nat.

Definition lowerByte (c : ascii) : ascii :=
  if isUpper c then ascii_of_nat (nat_of_ascii c + 32) else c.

(** [strings.ToLower]: the ASCII path is spelled out; on a string with a
    byte above 0x7F Go maps [unicode.ToLower] over the runes, which is the
    parameter [mapUnicodeToLower] here. *)
Definition ToLower (mapUnicodeToLower : string -> string) (s : string) : string :=
  let isASCII := all_bytes (fun c => (nat_of_ascii c <? 128)%nat) s in
  let hasUpper := negb (all_bytes (fun c => negb (isUpper c)) s) in
  if isASCII then
    if negb hasUpper then s else map_bytes lowerByte s
  else mapUnicodeToLower s.

(** [net.JoinHostPort] *)
Definition JoinHostPort (host port : string) : string :=
  match Index host ":" with
  | Some _ => "[" +:+ host +:+ "]:" +:+ port
  | None => host +:+ ":" +:+ port
  end.

End GoStrings.
Export GoStrings.

(* ================================================================= *)
(** ** [main.go]: the data model *)

(** A non-nil value of the interface [error]: its dynamic type and what
    its method [Error()] returns.  [nil] is [None]. *)
Record errorValue : Type := mkError {
  dynamicType : string;
  Error : string
}.

Definition error : Type := option errorValue.

(** [time.Duration] is an [int64] count of nanoseconds. *)
Definition Duration_t : Type := Z.
Definition Millisecond : Duration_t := 1000000.

(** [Duration.Microseconds]: integer division, truncated toward zero. *)
Definition Microseconds (d : Duration_t) : Z := Z.quot d 1000.

Record Sample : Type := mkSample {
  Duration : Duration_t;
  Err : error
}.

Record Stats : Type := mkStats {
  Count : Z;
  Successes : Z;
  Min : Duration_t;
  Max : Duration_t;
  Avg : Duration_t;
  Median : Duration_t;
  P95 : Duration_t;
  Errors : list error;
  DurationsMs : list float
}.

Record ResolverCfg : Type := mkResolverCfg {
  Name : string;
  Addr : string
}.

Record Row : Type := mkRow {
  Row_Name : string;
  Row_Stats : Stats;
  Row_Samples : list Sample
}.

(** Assignments to the fields of a [Stats] variable. *)
Definition set_Successes (v : Z) (s : Stats) : Stats :=
  mkStats (Count s) v (Min s) (Max s) (Avg s) (Median s) (P95 s) (Errors s) (DurationsMs s).
Definition set_Min (v : Duration_t) (s : Stats) : Stats :=
  mkStats (Count s) (Successes s) v (Max s) (Avg s) (Median s) (P95 s) (Errors s) (DurationsMs s).
Definition set_Max (v : Duration_t) (s : Stats) : Stats :=
  mkStats (Count s) (Successes s) (Min s) v (Avg s) (Median s) (P95 s) (Errors s) (DurationsMs s).
Definition set_Avg (v : Duration_t) (s : Stats) : Stats :=
  mkStats (Count s) (Successes s) (Min s) (Max s) v (Median s) (P95 s) (Errors s) (DurationsMs s).
Definition set_Median (v : Duration_t) (s : Stats) : Stats :=
  mkStats (Count s) (Successes s) (Min s) (Max s) (Avg s) v (P95 s) (Errors s) (DurationsMs s).
Definition set_P95 (v : Duration_t) (s : Stats) : Stats :=
  mkStats (Count s) (Successes s) (Min s) (Max s) (Avg s) (Median s) v (Errors s) (DurationsMs s).
Definition set_Errors (v : list error) (s : Stats) : Stats :=
  mkStats (Count s) (Successes s) (Min s) (Max s) (Avg s) (Median s) (P95 s) v (DurationsMs s).
Definition set_DurationsMs (v : list float) (s : Stats) : Stats :=
  mkStats (Count s) (Successes s) (Min s) (Max s) (Avg s) (Median s) (P95 s) (Errors s) v.

(* ================================================================= *)
(** ** [main.go]: the pure functions *)

(** [parseResolvers]: the loop body appends to [out] or continues. *)
Definition parseResolvers_body (out : list ResolverCfg) (p : string) : list ResolverCfg :=
  let p := TrimSpace p in
  if String.eqb p "" then out
  else
    let kv := SplitN p "=" 2 in
    match kv with
    | [k; v] =>
        let name := TrimSpace k in
        let addr := TrimSpace v in
        out ++ [mkResolverCfg name addr]
    | _ => out                      (* len(kv) != 2 *)
    end.

Definition parseResolvers (s : string) : list ResolverCfg :=
  let parts := Split s "," in
  fold_left parseResolvers_body parts [].

(** [percentile] *)
Definition percentile (sorted : list float) (p : float) : result float :=
  if len sorted =? 0 then Ok 0%float
  else if (p <=? 0)%float then slice_index sorted 0
  else if (100 <=? p)%float then slice_index sorted (len sorted - 1)
  else
    let pos := (p / 100 * float64_of_int (len sorted - 1))%float in
    let l := int_of_float64 (Floor pos) in
    let u := int_of_float64 (Ceil pos) in
    if l =? u then slice_index sorted l
    else
      let frac := (pos - float64_of_int l)%float in
      a ← slice_index sorted l;
      b ← slice_index sorted u;
      Ok (a * (1 - frac) + b * frac)%float.

(** [summarize]: the body of the loop over the samples. *)
Definition summarize_body (stats : Stats) (s : Sample) : Stats :=
  match Err s with
  | None =>
      let stats := set_Successes (wrap64 (Successes stats + 1)) stats in
      let stats := if Duration s <? Min stats then set_Min (Duration s) stats else stats in
      let stats := if Max stats <? Duration s then set_Max (Duration s) stats else stats in
      set_DurationsMs
        (DurationsMs stats ++ [(float64_of_int (Microseconds (Duration s)) / 1000)%float])
        stats
  | Some _ => set_Errors (Errors stats ++ [Err s]) stats
  end.

Definition summarize (samples : list Sample) : result Stats :=
  let stats := mkStats (len samples) 0 MaxInt64 0 0 0 0 [] [] in
  let stats := fold_left summarize_body samples stats in
  if Successes stats =? 0 then
    Ok (set_Max 0 (set_Min 0 stats))
  else
    (* avg *)
    let sum := fold_left (fun sum v => (sum + v)%float) (DurationsMs stats) 0%float in
    let avgMs := (sum / float64_of_int (Successes stats))%float in
    let stats := set_Avg (int_of_float64 (avgMs * float64_of_int Millisecond)%float) stats in
    (* median & p95 *)
    let ms := Float64s (DurationsMs stats) in
    p50 ← percentile ms 50;
    let stats := set_Median (int_of_float64 (p50 * float64_of_int Millisecond)%float) stats in
    p95 ← percentile ms 95;
    let stats := set_P95 (int_of_float64 (p95 * float64_of_int Millisecond)%float) stats in
    Ok stats.

(** [durFmt] *)
Definition durFmt (d : Duration_t) : string :=
  if d <=? 0 then "--"
  else
    let ms := (float64_of_int (Microseconds d) / 1000)%float in
    FormatFloat_f 1 ms +:+ "ms".

(** [uniqueErrors]: the state of the loop is the map [seen] and the slice
    [out]; a key that is absent from a Go map reads as [false]. *)
Definition uniqueErrors_body (st : gmap string bool * list error) (e : error)
  : gmap string bool * list error :=
  match e with
  | None => st
  | Some v =>
      if negb (default false (st.1 !! Error v))
      then (<[Error v := true]> st.1, st.2 ++ [e])
      else st
  end.

Definition uniqueErrors (errs : list error) : list error :=
  (fold_left uniqueErrors_body errs (∅, [])).2.

(** [errorStrings]: calling [Error()] on a nil interface value panics. *)
Definition errorStrings (errs : list error) : result (list string) :=
  fold_left
    (fun out e =>
       out ← out;
       match e with
       | Some v => Ok (out ++ [Error v])
       | None => Panic NilDereference
       end)
    errs (Ok []).

(** [randomLabel]: the hexadecimal form of the eight bytes that
    [rand.Read] stored in [b]. *)
Definition hexdigits : string := "0123456789abcdef".

Definition hexdigit (n : nat) : string :=
  match String.get n hexdigits with
  | Some c => String c ""
  | None => ""
  end.

Definition randomLabel (b : list ascii) : string :=
  fold_left
    (fun hex v =>
       hex +:+ hexdigit (nat_of_ascii v / 16) +:+ hexdigit (nat_of_ascii v mod 16))
    b "".

(** [ternary] *)
Definition ternary {T : Type} (cond : bool) (a b : T) : T :=
  if cond then a else b.

(* ================================================================= *)
(** ** [main.go]: the functions with effects *)

(** What the program reads from outside.  The [nat] is the number of the
    lookup (the first lookup of a run is number 0), so that two lookups of
    the same name may differ. *)
Record Env : Type := mkEnv {
  (** [strings.Map(unicode.ToLower, s)] on a string with a non-ASCII byte *)
  mapUnicodeToLower : string -> string;
  (** [r.LookupIP(ctx, network, name)] of a resolver that dials [udp] to
      the given address, under a context with the given timeout; only the
      error is kept *)
  LookupIP : nat -> Duration_t -> string -> string -> string -> error;
  (** [time.Since(start)] after that lookup *)
  Since : nat -> Duration_t;
  (** the eight bytes that [rand.Read] delivers *)
  Read : nat -> list ascii;
  (** the error, if any, that [os.Create] or a [csv] write reports for
      these records *)
  writeRecords : string -> list (list string) -> error
}.

(** The arguments of a [fmt] call. *)
Inductive fmtArg : Type :=
| ArgString (s : string)
| ArgInt (n : Z)
| ArgDuration (d : Duration_t)
| ArgFloat (f : float)
| ArgError (e : error).

Inductive output : Type :=
| Println (args : list fmtArg)
| Printf (format : string) (args : list fmtArg).

(** What the program has done to the outside so far. *)
Record World : Type := mkWorld {
  stdout : list output;
  stderr : list output;
  lookups : nat
}.

(** How a statement ends: normally, in [os.Exit], or in a panic. *)
Inductive outcome (A : Type) : Type :=
| Return (a : A)
| Exited (code : Z)
| Panicked (p : panic).
Arguments Return {A} a.
Arguments Exited {A} code.
Arguments Panicked {A} p.

Definition IO (A : Type) : Type := World -> outcome A * World.

#[global] Instance IO_ret : MRet IO := fun A a w => (Return a, w).
#[global] Instance IO_bind : MBind IO := fun A B k m w =>
  match m w with
  | (Return a, w') => k a w'
  | (Exited c, w') => (Exited c, w')
  | (Panicked p, w') => (Panicked p, w')
  end.

Definition lift {A : Type} (r : result A) : IO A := fun w =>
  match r with
  | Ok a => (Return a, w)
  | Panic p => (Panicked p, w)
  end.

Definition os_Exit {A : Type} (code : Z) : IO A := fun w => (Exited code, w).

Definition print (o : output) : IO unit := fun w =>
  (Return tt, mkWorld (stdout w ++ [o]) (stderr w) (lookups w)).

Definition eprint (o : output) : IO unit := fun w =>
  (Return tt, mkWorld (stdout w) (stderr w ++ [o]) (lookups w)).

(** The exit status of the process: a panic that nobody recovers ends the
    process with status 2. *)
Definition exit_code {A : Type} (r : outcome A * World) : Z :=
  match r.1 with
  | Return _ => 0
  | Exited c => c
  | Panicked _ => 2
  end.

Definition LF : string := String (ascii_of_nat 10) "".

Fixpoint Repeat (s : string) (n : nat) : string :=
  match n with
  | O => ""
  | S n' => s +:+ Repeat s n'
  end.

(** The command line after [flag.Parse]. *)
Record Flags : Type := mkFlags {
  domain : string;
  count : Z;
  timeout : Duration_t;
  network : string;
  cold : bool;
  resolversCSV : string;
  outCSV : string
}.

(** [make([]Sample, 0, cap)]: the run time refuses a negative capacity and
    one whose 24-byte elements exceed [maxAlloc]. *)
Definition maxAlloc : Z := 2 ^ 48.

Definition make_Samples (cap : Z) : result (list Sample) :=
  if (cap <? 0) || (maxAlloc <? 24 * cap) then Panic MakesliceCapOutOfRange
  else Ok [].

(** [b := make([]byte, 8); rand.Read(b)]: eight bytes, zero where the
    source delivered none. *)
Definition rand8 (delivered : list ascii) : list ascii :=
  firstn 8 (delivered ++ repeat Ascii.zero 8).

(** The local variable [successPct] of [printTable]. *)
Definition successPct (s : Stats) : float :=
  if 0 <? Count s
  then (100 * float64_of_int (Successes s) / float64_of_int (Count s))%float
  else 0%float.

Section WithEnv.
Variable env : Env.

(** [lookup], as the [n]-th lookup of the run.  The [Dial] closure
    ignores the address it is given and dials [host:port]. *)
Definition lookup (n : nat) (ctx : Duration_t) (resolverAddr name network : string)
  : error :=
  let '(host, port, ok) := Cut resolverAddr ":" in
  let '(host, port) := if negb ok then (resolverAddr, "53") else (host, port) in
  let r := LookupIP env n ctx (JoinHostPort host port) in
  let lower := ToLower (mapUnicodeToLower env) network in
  if String.eqb lower "ip4" || String.eqb lower "ipv4" then r "ip4" name
  else if String.eqb lower "ip6" || String.eqb lower "ipv6" then r "ip6" name
  else r "ip4" name.

(** [printTable]: the body of its loop, then the function. *)
Definition printTable_row (r : Row) : IO unit :=
  let s := Row_Stats r in
  _ ← print (Printf ("%-12s  %6s  %6s  %6s  %6s  %6s  %8.1f%%" +:+ LF)
               [ArgString (Row_Name r);
                ArgString (durFmt (Min s));
                ArgString (durFmt (Avg s));
                ArgString (durFmt (Median s));
                ArgString (durFmt (P95 s));
                ArgString (durFmt (Max s));
                ArgFloat (successPct s)]);
  if 0 <? len (Errors s) then
    let uniq := uniqueErrors (Errors s) in
    fold_left
      (fun io e => _ ← io; print (Printf ("  ! %s" +:+ LF) [ArgError e]))
      uniq (mret tt)
  else mret tt.

Definition printTable (rows : list Row) : IO unit :=
  _ ← print (Printf ("%-12s  %6s  %6s  %6s  %6s  %6s  %9s" +:+ LF)
               [ArgString "Resolver"; ArgString "Min"; ArgString "Avg";
                ArgString "Med"; ArgString "p95"; ArgString "Max";
                ArgString "Success%"]);
  _ ← print (Println [ArgString (Repeat "-" 72)]);
  fold_left (fun io r => _ ← io; printTable_row r) rows (mret tt).

(** [writeCSV]: the records in the order in which they are written. *)
Definition csv_ms (d : Duration_t) : string :=
  FormatFloat_f 3 (float64_of_int (Microseconds d) / 1000)%float.

Definition csv_summary_row (r : Row) : result (list string) :=
  let s := Row_Stats r in
  errStr ← (if 0 <? len (Errors s)
            then strs ← errorStrings (uniqueErrors (Errors s));
                 Ok (String.concat " | " strs)
            else Ok "");
  Ok [Row_Name r; decimal (Count s); decimal (Successes s);
      csv_ms (Min s); csv_ms (Avg s); csv_ms (Median s); csv_ms (P95 s);
      csv_ms (Max s); errStr].

Definition csv_sample_rows (r : Row) : list (list string) :=
  imap (fun i s =>
          let errStr := match Err s with Some v => Error v | None => "" end in
          [Row_Name r; decimal (Z.of_nat i); csv_ms (Duration s); errStr])
       (Row_Samples r).

Definition csv_records (rows : list Row) : result (list (list string)) :=
  summary ← mapM csv_summary_row rows;
  Ok ([["resolver"; "count"; "successes"; "min_ms"; "avg_ms"; "median_ms";
        "p95_ms"; "max_ms"; "errors"]]
      ++ summary
      ++ [[]]
      ++ [["resolver"; "run_index"; "duration_ms"; "error"]]
      ++ concat (map csv_sample_rows rows)).

Definition writeCSV (path : string) (rows : list Row) : result error :=
  records ← csv_records rows;
  Ok (writeRecords env path records).

(** One pass of the inner loop of [main]: one timed lookup. *)
Definition query (fl : Flags) (r : ResolverCfg) : IO Sample := fun w =>
  let n := lookups w in
  let qname :=
    if cold fl
    then randomLabel (rand8 (Read env n)) +:+ "." +:+ domain fl
    else domain fl in
  let ctx := timeout fl in
  let err := lookup n ctx (Addr r) qname (network fl) in
  let d := Since env n in
  (Return (mkSample d err), mkWorld (stdout w) (stderr w) (S n)).

(** The inner loop, with [k] iterations to go. *)
Fixpoint queries (fl : Flags) (r : ResolverCfg) (k : nat) (samples : list Sample)
  : IO (list Sample) :=
  match k with
  | O => mret samples
  | S k' => s ← query fl r; queries fl r k' (samples ++ [s])
  end.

(** The body of the loop over the resolvers. *)
Definition benchmark (fl : Flags) (rows : list Row) (r : ResolverCfg) : IO (list Row) :=
  samples ← lift (make_Samples (count fl));
  samples ← queries fl r (Z.to_nat (count fl)) samples;
  stats ← lift (summarize samples);
  mret (rows ++ [mkRow (Name r) stats samples]).

(** [main], after [flag.Parse]. *)
Definition main (fl : Flags) : IO unit :=
  let resolvers := parseResolvers (resolversCSV fl) in
  _ ← (if len resolvers =? 0 then
         _ ← print (Println [ArgString "No resolvers provided."]);
         os_Exit 1
       else mret tt);
  _ ← print (Printf ("DNS Benchmark" +:+ LF) []);
  _ ← print (Printf ("Target: %s | Runs: %d | Timeout: %v | Network: %s | Mode: %s" +:+ LF)
               [ArgString (domain fl); ArgInt (count fl); ArgDuration (timeout fl);
                ArgString (network fl); ArgString (ternary (cold fl) "COLD" "WARM")]);
  _ ← print (Println [ArgString (Repeat "-" 80)]);
  rows ← fold_left (fun io r => rows ← io; benchmark fl rows r) resolvers (mret []);
  _ ← printTable rows;
  if negb (String.eqb (outCSV fl) "") then
    err ← lift (writeCSV (outCSV fl) rows);
    match err with
    | Some _ =>
        _ ← eprint (Printf ("CSV write error: %v" +:+ LF) [ArgError err]);
        os_Exit 1
    | None =>
        print (Printf (LF +:+ "CSV written to: %s" +:+ LF) [ArgString (outCSV fl)])
    end
  else mret tt.

(** A run of the program from the initial state. *)
Definition run (fl : Flags) : outcome unit * World :=
  main fl (mkWorld [] [] O).

End WithEnv.

(* ================================================================= *)
(** ** The specification's own notions *)

(** A slice with elements of [size] bytes that the allocator accepts: what
    [make] and [append] guarantee of every slice of the program. *)
Definition allocatable {A : Type} (size : Z) (l : list A) : Prop :=
  size * len l <= maxAlloc.

(** "Split on commas": the segments between the occurrences of [c]. *)
Fixpoint split_on (c : ascii) (s : string) : list string :=
  match s with
  | EmptyString => [""]
  | String a s' =>
      if Ascii.eqb a c then "" :: split_on c s'
      else match split_on c s' with
           | seg :: segs => String a seg :: segs
           | [] => [String a ""]
           end
  end.

(** "The first occurrence splits name from address". *)
Fixpoint cut_first (c : ascii) (s : string) : option (string * string) :=
  match s with
  | EmptyString => None
  | String a s' =>
      if Ascii.eqb a c then Some ("", s')
      else match cut_first c s' with
           | Some (before, after) => Some (String a before, after)
           | None => None
           end
  end.

(** "Trims whitespace": white space is made of the six ASCII characters
    tab, line feed, vertical tab, form feed, carriage return and space and
    of the other white-space code points of Unicode, in UTF-8. *)
Definition space_runes : list string :=
  map (fun n => bytes [n]) [9; 10; 11; 12; 13; 32]%nat ++ unicodeSpace.

Inductive white : string -> Prop :=
| white_nil : white ""
| white_cons (w l : string) : In w space_runes -> white l -> white (w +:+ l).

Definition starts_with (s w : string) : Prop := exists u, s = w +:+ u.
Definition ends_with (s w : string) : Prop := exists u, s = u +:+ w.

(** [t] is [s] trimmed: [s] is [t] between two runs of white space, and
    [t] neither starts nor ends with white space. *)
Definition trimmed_of (s t : string) : Prop :=
  (exists l r, s = l +:+ t +:+ r /\ white l /\ white r) /\
  (forall w, In w space_runes -> ~ starts_with t w) /\
  (forall w, In w space_runes -> ~ ends_with t w).

(** The first byte of a white-space rune, which is none of its other
    bytes. *)
Definition leadByte (c : ascii) : bool :=
  asciiSpace c || existsb (Nat.eqb (nat_of_ascii c)) [194; 225; 226; 227]%nat.

(** What one comma-separated segment contributes: nothing when it is empty
    after trimming or has no [=]; otherwise the target named by the text
    before the first [=], both sides trimmed. *)
Definition parse_segment (seg : string) : list ResolverCfg :=
  let p := TrimSpace seg in
  if String.eqb p "" then []
  else match cut_first "=" p with
       | None => []
       | Some (name, addr) => [mkResolverCfg (TrimSpace name) (TrimSpace addr)]
       end.

Definition parse_by_rules (s : string) : list ResolverCfg :=
  flat_map parse_segment (split_on "," s).

(** The network that the resolver is asked for, by the lower-cased token:
    ["ip4"] requests A records and ["ip6"] AAAA records. *)
Definition selected_network (lower : string) : string :=
  if String.eqb lower "ip6" || String.eqb lower "ipv6" then "ip6" else "ip4".

(** The address that the resolver dials. *)
Definition dial_address (resolverAddr : string) : string :=
  match cut_first ":" resolverAddr with
  | Some (host, port) => JoinHostPort host port
  | None => JoinHostPort resolverAddr "53"
  end.

(** The messages of the non-nil errors of a slice. *)
Definition messages (errs : list error) : list string :=
  omap (fun e : error => Error <$> e) errs.

(** "Unique strings, order of first occurrence preserved". *)
Fixpoint distinct_in_order (l : list string) : list string :=
  match l with
  | [] => []
  | x :: l' => x :: List.filter (fun y => negb (String.eqb y x)) (distinct_in_order l')
  end.

(** "The count of outcomes with no error". *)
Definition successes_of (samples : list Sample) : Z :=
  len (List.filter (fun s => match Err s with None => true | Some _ => false end) samples).

(** A statement that ends normally from every state, and leaves standard
    error as it found it. *)
Definition returns {A : Type} (m : IO A) : Prop :=
  forall w, exists a w', m w = (Return a, w') /\ stderr w' = stderr w.

(* ================================================================= *)
(** ** Binary64 as real numbers: the notions of the rounding proofs *)

(** The value of the mantissa [m] at the exponent [e]. *)
Definition F2R (m e : Z) : R := (IZR m * powerRZ 2 e)%R.

(** A bit was lost while shifting. *)
Definition shr_inexact (mrs : shr_record) : bool := shr_r mrs || shr_s mrs.

(** The shifted mantissa stays below [F], strictly so once a bit was
    lost. *)
Definition below (F : R) (mrs : shr_record) (e : Z) : Prop :=
  0 <= shr_m mrs /\ (F2R (shr_m mrs) e <= F)%R /\
  (shr_inexact mrs = true -> (F2R (shr_m mrs) e < F)%R).

(** The canonical binary64 form of an integer of at most 53 bits. *)
Definition SF_of_small (z : Z) : spec_float :=
  S754_finite false (Z.to_pos (z * 2 ^ (53 - Zdigits2 z))) (Zdigits2 z - 53).

(** A float that is [+0] or a positive number not above the integer [N]. *)
Definition nonneg_below (x : spec_float) (N : Z) : Prop :=
  match x with
  | S754_zero s => s = false
  | S754_finite s m e => s = false /\ (F2R (Zpos m) e <= IZR N)%R
  | _ => False
  end.

Abbreviation fexp64 := (fexp prec emax).
Abbreviation bounded64 := (SpecFloat.bounded prec emax).

(* ================================================================= *)
(** ** Notions of the further properties *)

(** The two bins of [summarize]: a sample succeeded when it carries no
    error; the errors of the others; the elapsed milliseconds that
    [summarize] keeps of a successful sample. *)
(*DEFS*)
(** The samples that succeeded, the errors of those that failed, and the
    milliseconds that [summarize] records for a success. *)
Definition succeeded (s : Sample) : bool :=
  match Err s with None => true | Some _ => false end.

Definition failures_of (samples : list Sample) : list error :=
  List.filter (fun e : error => match e with Some _ => true | None => false end)
              (map Err samples).

Definition millis (s : Sample) : float :=
  (float64_of_int (Microseconds (Duration s)) / 1000)%float.

(** A resolver list in the form that the flag [-resolvers] takes. *)
Definition format_resolver (r : ResolverCfg) : string :=
  Name r +:+ "=" +:+ Addr r.

Definition format_resolvers (l : list ResolverCfg) : string :=
  String.concat "," (map format_resolver l).

(** An ASCII byte that is not white space. *)
Definition plain (c : ascii) : bool :=
  (nat_of_ascii c <? 128)%nat && negb (asciiSpace c).

(** A resolver whose name and address are made of such bytes, without a
    comma, and without [=] in the name. *)
Definition well_formed (r : ResolverCfg) : bool :=
  all_bytes (fun c => plain c && negb (Ascii.eqb c ",") && negb (Ascii.eqb c "=")) (Name r) &&
  all_bytes (fun c => plain c && negb (Ascii.eqb c ",")) (Addr r).

(** Reading [randomLabel] backwards: the value of a hexadecimal digit and
    the bytes of a string of such digits, two by two. *)
Definition unhex_digit (c : ascii) : nat :=
  match Index hexdigits (String c "") with
  | Some i => i
  | None => O
  end.

Fixpoint unhex (s : string) : list ascii :=
  match s with
  | String h (String l s') => ascii_of_nat (16 * unhex_digit h + unhex_digit l) :: unhex s'
  | _ => []
  end.

Definition isHexDigit (c : ascii) : bool :=
  match Index hexdigits (String c "") with
  | Some _ => true
  | None => false
  end.

(** The name that the [n]-th lookup of a run asks for, and the sample it
    leaves for the resolver [r]. *)
Definition qname_at (env : Env) (fl : Flags) (n : nat) : string :=
  if cold fl then randomLabel (rand8 (Read env n)) +:+ "." +:+ domain fl
  else domain fl.

Definition sample_at (env : Env) (fl : Flags) (r : ResolverCfg) (n : nat) : Sample :=
  mkSample (Since env n)
           (lookup env n (timeout fl) (Addr r) (qname_at env fl n) (network fl)).

(** The rows of a run whose lookups are numbered from [n]: resolver after
    resolver, [count] lookups each, with the statistics of its samples. *)
Fixpoint benchmarked (env : Env) (fl : Flags) (n : nat)
    (resolvers : list ResolverCfg) (rows : list Row) : Prop :=
  match resolvers, rows with
  | [], [] => True
  | r :: resolvers', row :: rows' =>
      Row_Name row = Name r /\
      Row_Samples row = map (sample_at env fl r) (seq n (Z.to_nat (count fl))) /\
      summarize (Row_Samples row) = Ok (Row_Stats row) /\
      benchmarked env fl (n + Z.to_nat (count fl)) resolvers' rows'
  | _, _ => False
  end.

(** What [main] prints before the first lookup, and what [printTable]
    prints for the rows. *)
Definition banner (fl : Flags) : list output :=
  [Printf ("DNS Benchmark" +:+ LF) [];
   Printf ("Target: %s | Runs: %d | Timeout: %v | Network: %s | Mode: %s" +:+ LF)
     [ArgString (domain fl); ArgInt (count fl); ArgDuration (timeout fl);
      ArgString (network fl); ArgString (ternary (cold fl) "COLD" "WARM")];
   Println [ArgString (Repeat "-" 80)]].

Definition table_of (rows : list Row) : list output :=
  stdout (printTable rows (mkWorld [] [] O)).2.

(** A statement that returns after appending [out] to standard output,
    and does nothing else. *)
Definition prints (m : IO unit) (out : list output) : Prop :=
  forall w, m w = (Return tt, mkWorld (stdout w ++ out) (stderr w) (lookups w)).

(** The lines of one row of the table: the statistics, then one line for
    each distinct error. *)
Definition row_lines (r : Row) : list output :=
  let s := Row_Stats r in
  Printf ("%-12s  %6s  %6s  %6s  %6s  %6s  %8.1f%%" +:+ LF)
    [ArgString (Row_Name r); ArgString (durFmt (Min s)); ArgString (durFmt (Avg s));
     ArgString (durFmt (Median s)); ArgString (durFmt (P95 s));
     ArgString (durFmt (Max s)); ArgFloat (successPct s)]
  :: map (fun e => Printf ("  ! %s" +:+ LF) [ArgError e]) (uniqueErrors (Errors s)).

(* ================================================================= *)
(** ** The library model on the examples of the Go documentation *)

Example Split_example : Split "a,b,c" "," = ["a"; "b"; "c"].
Proof. reflexivity. Qed.

Example Split_empty_example : Split "" "," = [""].
Proof. reflexivity. Qed.

Example SplitN_example : SplitN "a,b,c,d" "," 2 = ["a"; "b,c,d"].
Proof. reflexivity. Qed.

Example SplitN_zero_example : SplitN "a,b,c,d" "," 0 = [].
Proof. reflexivity. Qed.

Example Index_example : Index "chicken" "ken" = Some 4%nat /\ Index "chicken" "dmr" = None.
Proof. split; reflexivity. Qed.

Example Count_example : GoStrings.Count "cheese" "e" = 3%nat.
Proof. reflexivity. Qed.

Example Cut_example :
  Cut "Gopher" "ph" = ("Go", "er", true) /\ Cut "Gopher" "Badger" = ("Gopher", "", false).
Proof. split; reflexivity. Qed.

(** [" \t\n Hello, Gophers \n\t\r\n"] *)
Example TrimSpace_example :
  TrimSpace (bytes [32; 9; 10; 32]%nat +:+ "Hello, Gophers" +:+ bytes [32; 10; 9; 13; 10]%nat)
  = "Hello, Gophers".
Proof. reflexivity. Qed.

(** A no-break space (U+00A0) in front and a line separator (U+2028)
    behind. *)
Example TrimSpace_unicode_example :
  TrimSpace (bytes [194; 160]%nat +:+ "9.9.9.9" +:+ bytes [226; 128; 168]%nat) = "9.9.9.9".
Proof. reflexivity. Qed.

Example ToLower_example (f : string -> string) : ToLower f "Gopher" = "gopher".
Proof. reflexivity. Qed.

Example JoinHostPort_example :
  JoinHostPort "1.1.1.1" "53" = "1.1.1.1:53" /\ JoinHostPort "::1" "53" = "[::1]:53".
Proof. split; reflexivity. Qed.

Example Floor_Ceil_example :
  (Floor 1.5 = 1 /\ Ceil 1.5 = 2 /\ Floor (-1.5) = -2 /\ Ceil (-1.5) = -1 /\
   Ceil (-0.5) = -0 /\ Floor infinity = infinity)%float.
Proof. repeat split; reflexivity. Qed.

Example int_of_float64_example :
  int_of_float64 2.5 = 2 /\ int_of_float64 (-2.5) = -2 /\
  int_of_float64 nan = MinInt64 /\ int_of_float64 infinity = MinInt64.
Proof. repeat split; reflexivity. Qed.

Example float64_of_int_example :
  float64_of_int 3 = 3%float /\ float64_of_int (-7) = (-7)%float /\
  float64_of_int 9007199254740993 = 9007199254740992%float.
Proof. repeat split; reflexivity. Qed.

Example Float64s_example :
  Float64s [30; 10; nan; 20; 10]%float = [nan; 10; 10; 20; 30]%float.
Proof. reflexivity. Qed.

Example FormatFloat_example :
  FormatFloat_f 1 12.25 = "12.2" /\ FormatFloat_f 1 12.75 = "12.8" /\
  FormatFloat_f 3 1.5 = "1.500" /\ FormatFloat_f 1 (-0) = "-0.0".
Proof. repeat split; reflexivity. Qed.

Example durFmt_example :
  durFmt 12345678 = "12.3ms" /\ durFmt 999 = "0.0ms" /\ durFmt 0 = "--" /\ durFmt (-5) = "--".
Proof. repeat split; reflexivity. Qed.

Example randomLabel_example :
  randomLabel (rand8 [byte 171%nat; byte 1%nat]) = "ab01000000000000".
Proof. reflexivity. Qed.

Example parseResolvers_example :
  parseResolvers " A = 1.1.1.1 , =x, y=, a=b=c"
  = [mkResolverCfg "A" "1.1.1.1"; mkResolverCfg "" "x"; mkResolverCfg "y" "";
     mkResolverCfg "a" "b=c"].
Proof. reflexivity. Qed.

(* ================================================================= *)
(** ** Rounding: a value below a float rounds to at most that float *)

Section Rounding.
Local Open Scope Z_scope.


Lemma powerRZ2_pos e : (0 < powerRZ 2 e)%R.
Proof. apply powerRZ_lt; lra. Qed.

Lemma powerRZ2_add a b : powerRZ 2 (a + b) = (powerRZ 2 a * powerRZ 2 b)%R.
Proof. apply powerRZ_add; lra. Qed.

Lemma powerRZ2_Zpow k : 0 <= k -> powerRZ 2 k = IZR (2 ^ k).
Proof.
  intros Hk. rewrite <- (Z2Nat.id k) by lia.
  rewrite <- pow_powerRZ. rewrite <- Zpower_nat_Z. 
  induction (Z.to_nat k) as [|n IH]; [reflexivity|].
  rewrite Zpower_nat_succ_r, mult_IZR. simpl. rewrite IH. reflexivity.
Qed.

Lemma powerRZ2_le a b : a <= b -> (powerRZ 2 a <= powerRZ 2 b)%R.
Proof.
  intros H. replace b with (a + (b - a)) by lia. rewrite powerRZ2_add.
  rewrite (powerRZ2_Zpow (b - a)) by lia.
  assert (1 <= IZR (2 ^ (b - a)))%R. { apply IZR_le. assert (0 < 2 ^ (b-a)) by (apply Z.pow_pos_nonneg; lia). lia. }
  pose proof (powerRZ2_pos a). nra.
Qed.

Lemma F2R_shift m e k : 0 <= k -> F2R (m * 2 ^ k) e = F2R m (e + k).
Proof.
  intros. unfold F2R. rewrite mult_IZR, powerRZ2_add, <- powerRZ2_Zpow by lia. ring.
Qed.

Lemma digits2_log2 p : Zpos (digits2_pos p) = Z.log2 (Zpos p) + 1.
Proof.
  induction p as [p IH|p IH|]; simpl digits2_pos; try reflexivity.
  - rewrite Pos2Z.inj_succ, IH. 
    change (Zpos p~1) with (2 * Zpos p + 1). rewrite Z.log2_succ_double by lia. lia.
  - rewrite Pos2Z.inj_succ, IH.
    change (Zpos p~0) with (2 * Zpos p). rewrite Z.log2_double by lia. lia.
Qed.

Lemma Zdigits2_log2 m : 0 < m -> Zdigits2 m = Z.log2 m + 1.
Proof. destruct m; try lia. intros _. apply digits2_log2. Qed.

Lemma Zdigits2_bounds m : 0 < m -> 2 ^ (Zdigits2 m - 1) <= m < 2 ^ Zdigits2 m.
Proof.
  intros H. rewrite Zdigits2_log2 by lia. 
  replace (Z.log2 m + 1 - 1) with (Z.log2 m) by lia.
  replace (Z.log2 m + 1) with (Z.succ (Z.log2 m)) by lia.
  apply Z.log2_spec; lia.
Qed.

(* shr_1 halves the mantissa *)
Lemma shr_1_m mrs : 0 <= shr_m mrs -> shr_m (shr_1 mrs) = shr_m mrs / 2.
Proof.
  destruct mrs as [m r s]. simpl. intros Hm.
  destruct m as [|p|p]; try lia; [reflexivity|].
  destruct p as [p|p|]; simpl shr_m.
  - change (Zpos p~1) with (2 * Zpos p + 1). apply Z.div_unique with 1; lia.
  - change (Zpos p~0) with (2 * Zpos p). apply Z.div_unique with 0; lia.
  - reflexivity.
Qed.


(* what shr_1 does to the flags: inexact afterwards iff inexact before or odd *)
Lemma shr_1_inexact mrs : 0 <= shr_m mrs ->
  shr_inexact (shr_1 mrs) = shr_inexact mrs || Z.odd (shr_m mrs).
Proof.
  destruct mrs as [m r s]. unfold shr_inexact. simpl. intros Hm.
  destruct m as [|p|p]; try lia; [|destruct p]; simpl; destruct r, s; reflexivity.
Qed.

Section Below.
Variable F : R.

Lemma below_shr_1 mrs e : below F mrs e -> below F (shr_1 mrs) (e + 1).
Proof.
  intros (Hm & Hle & Hlt). 
  assert (Hd : shr_m mrs = 2 * (shr_m mrs / 2) + (if Z.odd (shr_m mrs) then 1 else 0)).
  { rewrite (Z.div_mod (shr_m mrs) 2) at 1 by lia. rewrite Zmod_odd. reflexivity. }
  assert (Hh : 0 <= shr_m mrs / 2) by (apply Z.div_pos; lia).
  assert (Hv : F2R (shr_m mrs) e = (F2R (shr_m mrs / 2) (e + 1) + 
                (if Z.odd (shr_m mrs) then powerRZ 2 e else 0))%R).
  { unfold F2R. rewrite Hd at 1. rewrite powerRZ2_add. 
    destruct (Z.odd (shr_m mrs)); rewrite plus_IZR, mult_IZR; simpl; ring. }
  pose proof (powerRZ2_pos e) as Hp.
  unfold below. rewrite shr_1_m, shr_1_inexact by assumption.
  split; [assumption|]. split.
  - destruct (Z.odd (shr_m mrs)); lra.
  - intros Hi. apply orb_true_iff in Hi. destruct Hi as [Hi|Hi].
    + specialize (Hlt Hi). destruct (Z.odd (shr_m mrs)); lra.
    + rewrite Hi in Hv. lra.
Qed.

Lemma below_iter_pos p : forall mrs e, below F mrs e -> below F (SpecFloat.iter_pos shr_1 p mrs) (e + Zpos p).
Proof.
  induction p as [p IH|p IH|]; intros mrs e H; simpl.
  - replace (e + Zpos p~1) with (e + 1 + Zpos p + Zpos p) by lia.
    apply IH, IH, below_shr_1, H.
  - replace (e + Zpos p~0) with (e + Zpos p + Zpos p) by lia.
    apply IH, IH, H.
  - apply below_shr_1, H.
Qed.
End Below.

Lemma iter_pos_shr_m p : forall mrs, 0 <= shr_m mrs ->
  shr_m (SpecFloat.iter_pos shr_1 p mrs) = shr_m mrs / 2 ^ Zpos p.
Proof.
  induction p as [p IH|p IH|]; intros mrs H; simpl SpecFloat.iter_pos.
  - assert (0 <= shr_m (shr_1 mrs)) by (rewrite shr_1_m by lia; apply Z.div_pos; lia).
    assert (0 <= shr_m (SpecFloat.iter_pos shr_1 p (shr_1 mrs))) by (rewrite IH by lia; apply Z.div_pos; lia).
    rewrite IH, IH, shr_1_m by lia.
    rewrite !Z.div_div by lia. f_equal.
    replace (Zpos p~1) with (1 + Zpos p + Zpos p) by lia. rewrite !Z.pow_add_r by lia. lia.
  - assert (0 <= shr_m (SpecFloat.iter_pos shr_1 p mrs)) by (rewrite IH by lia; apply Z.div_pos; lia).
    rewrite IH, IH by lia. rewrite !Z.div_div by lia. f_equal.
    replace (Zpos p~0) with (Zpos p + Zpos p) by lia. rewrite !Z.pow_add_r by lia. lia.
  - rewrite shr_1_m by lia. reflexivity.
Qed.

Lemma shr_record_of_loc_m m l : shr_m (shr_record_of_loc m l) = m.
Proof. destruct l as [|[]]; reflexivity. Qed.

Lemma shr_record_of_loc_inexact m l :
  shr_inexact (shr_record_of_loc m l) = match l with loc_Exact => false | _ => true end.
Proof. destruct l as [|[]]; reflexivity. Qed.


(* [shr_fexp] when the exponent is not above the canonical one *)
Lemma shr_fexp_spec F m e l :
  0 <= m -> e <= fexp64 (Zdigits2 m + e) ->
  (F2R m e <= F)%R -> (l <> loc_Exact -> (F2R m e < F)%R) ->
  let '(mrs, e') := shr_fexp prec emax m e l in
  e' = fexp64 (Zdigits2 m + e) /\ shr_m mrs = m / 2 ^ (e' - e) /\ below F mrs e'.
Proof.
  intros Hm He Hle Hlt. unfold shr_fexp, shr.
  assert (Hb : below F (shr_record_of_loc m l) e).
  { unfold below. rewrite shr_record_of_loc_m, shr_record_of_loc_inexact.
    repeat split; try assumption. intros Hi. apply Hlt. intros ->. discriminate. }
  destruct (fexp64 (Zdigits2 m + e) - e) as [|k|k] eqn:Hk; try lia.
  - split; [lia|]. split; [|assumption].
    rewrite shr_record_of_loc_m. replace (e - e) with 0 by lia. rewrite Z.div_1_r. reflexivity.
  - split; [lia|]. split; [|apply below_iter_pos; assumption].
    rewrite iter_pos_shr_m by (rewrite shr_record_of_loc_m; lia).
    rewrite shr_record_of_loc_m. f_equal. f_equal. lia.
Qed.

Lemma F2R_le_mono m1 m2 e : m1 <= m2 -> (F2R m1 e <= F2R m2 e)%R.
Proof.
  intros H. unfold F2R. apply IZR_le in H. pose proof (powerRZ2_pos e). nra.
Qed.

Lemma F2R_lt_inv m1 m2 e : (F2R m1 e < F2R m2 e)%R -> m1 < m2.
Proof.
  unfold F2R. intros H. apply lt_IZR. pose proof (powerRZ2_pos e). nra.
Qed.

Lemma F2R_le_inv m1 m2 e : (F2R m1 e <= F2R m2 e)%R -> m1 <= m2.
Proof.
  unfold F2R. intros H. apply le_IZR. pose proof (powerRZ2_pos e). nra.
Qed.

Lemma F2R_nonneg m e : 0 <= m -> (0 <= F2R m e)%R.
Proof.
  intros H. unfold F2R. apply IZR_le in H. pose proof (powerRZ2_pos e). nra.
Qed.

(* a positive mantissa of [d] digits weighs between 2^(d-1+e) and 2^(d+e) *)
Lemma F2R_digits m e : 0 < m ->
  (powerRZ 2 (Zdigits2 m - 1 + e) <= F2R m e < powerRZ 2 (Zdigits2 m + e))%R.
Proof.
  intros Hm. destruct (Zdigits2_bounds m Hm) as [Hlo Hhi].
  assert (Hd : 0 <= Zdigits2 m - 1). { rewrite Zdigits2_log2 by lia. pose proof (Z.log2_nonneg m). lia. }
  rewrite !powerRZ2_add.
  rewrite (powerRZ2_Zpow (Zdigits2 m - 1)), (powerRZ2_Zpow (Zdigits2 m)) by lia. unfold F2R.
  apply IZR_le in Hlo. apply IZR_lt in Hhi. pose proof (powerRZ2_pos e). nra.
Qed.

Lemma fexp64_eq d : fexp64 d = Z.max (d - 53) (-1074).
Proof. reflexivity. Qed.

Lemma bounded_inv mf ef : SpecFloat.bounded prec emax mf ef = true ->
  ef = fexp64 (Zdigits2 (Zpos mf) + ef) /\ ef <= 971.
Proof.
  unfold SpecFloat.bounded, canonical_mantissa. intros H. apply andb_true_iff in H.
  destruct H as [H1 H2]. apply Z.eqb_eq in H1. apply Z.leb_le in H2.
  split; [symmetry; exact H1 | exact H2].
Qed.

Lemma bounded_lt_overflow mf ef : SpecFloat.bounded prec emax mf ef = true ->
  (F2R (Zpos mf) ef < powerRZ 2 1024)%R.
Proof.
  intros H. destruct (bounded_inv _ _ H) as [Hc He]. rewrite fexp64_eq in Hc.
  destruct (F2R_digits (Zpos mf) ef) as [_ Hhi]; [lia|].
  eapply Rlt_le_trans; [exact Hhi|]. apply powerRZ2_le. lia.
Qed.

(* no float lies strictly between two neighbours of the rounding grid *)
Lemma grid_step mf ef m e m' e' :
  SpecFloat.bounded prec emax mf ef = true ->
  0 <= m -> e <= e' -> e' = fexp64 (Zdigits2 m + e) -> m' = m / 2 ^ (e' - e) ->
  (F2R m' e' < F2R (Zpos mf) ef)%R -> (F2R (m' + 1) e' <= F2R (Zpos mf) ef)%R.
Proof.
  intros Hb Hm Hee He' Hm' Hlt.
  destruct (bounded_inv _ _ Hb) as [Hc Hef]. rewrite fexp64_eq in Hc, He'.
  destruct (Z_le_gt_dec e' ef) as [Hge|Hgt].
  - replace ef with (e' + (ef - e')) in Hlt |- * by lia.
    rewrite <- F2R_shift in Hlt |- * by lia.
    apply F2R_le_mono. apply F2R_lt_inv in Hlt. lia.
  - exfalso.
    assert (Hm0 : 0 < m).
    { destruct (Z.eq_dec m 0) as [->|]; [|lia]. simpl Zdigits2 in He'. lia. }
    destruct (F2R_digits (Zpos mf) ef) as [_ Hhi]; [lia|].
    assert (Hk : 0 <= e' - e <= Zdigits2 m - 1) by lia.
    assert (Hlow : 2 ^ (Zdigits2 m - 1 - (e' - e)) <= m').
    { subst m'. apply Z.div_le_lower_bound; [apply Z.pow_pos_nonneg; lia|].
      rewrite <- Z.pow_add_r by lia.
      replace (e' - e + (Zdigits2 m - 1 - (e' - e))) with (Zdigits2 m - 1) by lia.
      apply Zdigits2_bounds; lia. }
    apply (F2R_le_mono _ _ e') in Hlow.
    unfold F2R at 1 in Hlow. rewrite <- powerRZ2_Zpow, <- powerRZ2_add in Hlow by lia.
    assert (Hp : (powerRZ 2 (Zdigits2 (Zpos mf) + ef) <= 
                  powerRZ 2 (Zdigits2 m - 1 - (e' - e) + e'))%R) by (apply powerRZ2_le; lia).
    lra.
Qed.

Lemma round_nearest_even_bounds m l :
  m <= round_nearest_even m l <= m + 1 /\
  (l = loc_Exact -> round_nearest_even m l = m).
Proof.
  destruct l as [|[]]; simpl; try destruct (Z.even m); split; (lia || reflexivity || discriminate).
Qed.

Lemma loc_of_shr_record_exact mrs :
  loc_of_shr_record mrs = loc_Exact <-> shr_inexact mrs = false.
Proof.
  destruct mrs as [m [] []]; unfold shr_inexact; simpl; split; (reflexivity || discriminate).
Qed.

(* [shr_fexp] without the side condition: it never raises the value *)
Lemma shr_fexp_weak F m e :
  0 <= m -> (F2R m e <= F)%R ->
  let '(mrs, e') := shr_fexp prec emax m e loc_Exact in
  (e' = e \/ e' = fexp64 (Zdigits2 m + e)) /\ 0 <= shr_m mrs <= m /\ (F2R (shr_m mrs) e' <= F)%R.
Proof.
  intros Hm Hle. unfold shr_fexp, shr. simpl shr_record_of_loc.
  destruct (fexp64 (Zdigits2 m + e) - e) as [|k|k] eqn:Hk.
  - simpl. split; [left; reflexivity|]. split; [lia|assumption].
  - assert (Hb : below F {| shr_m := m; shr_r := false; shr_s := false |} e).
    { unfold below. simpl. repeat split; try assumption. discriminate. }
    apply (below_iter_pos F k) in Hb. destruct Hb as (H0 & H1 & _).
    split; [right; lia|]. split; [|assumption]. split; [assumption|].
    rewrite iter_pos_shr_m by (simpl; lia). simpl shr_m.
    apply Z.div_le_upper_bound; [lia|]. 
    assert (1 <= 2 ^ Zpos k) by (assert (0 < 2 ^ Zpos k) by (apply Z.pow_pos_nonneg; lia); lia). nia.
  - simpl. split; [left; reflexivity|]. split; [lia|assumption].
Qed.

(* Rounding to nearest never jumps over a float: a value at most the float
   [mf * 2^ef] rounds to at most that float. *)
Lemma binary_round_aux_le mf ef mx ex lx :
  SpecFloat.bounded prec emax mf ef = true ->
  0 <= mx -> ex <= fexp64 (Zdigits2 mx + ex) ->
  (F2R mx ex <= F2R (Zpos mf) ef)%R ->
  (lx <> loc_Exact -> (F2R mx ex < F2R (Zpos mf) ef)%R) ->
  match binary_round_aux prec emax false mx ex lx with
  | S754_zero s => s = false
  | S754_finite s m e => s = false /\ (F2R (Zpos m) e <= F2R (Zpos mf) ef)%R
  | _ => False
  end.
Proof.
  intros Hb Hmx Hex Hle Hlt. unfold binary_round_aux.
  pose proof (shr_fexp_spec (F2R (Zpos mf) ef) mx ex lx Hmx Hex Hle Hlt) as H1.
  destruct (shr_fexp prec emax mx ex lx) as [mrs' e'].
  destruct H1 as (He' & Hm' & (Hm'0 & Hb1 & Hb2)).
  set (mr := round_nearest_even (shr_m mrs') (loc_of_shr_record mrs')).
  destruct (round_nearest_even_bounds (shr_m mrs') (loc_of_shr_record mrs')) as [Hr1 Hr2].
  fold mr in Hr1, Hr2.
  assert (Hmr : (F2R mr e' <= F2R (Zpos mf) ef)%R).
  { destruct (shr_inexact mrs') eqn:Hi.
    - eapply Rle_trans; [apply F2R_le_mono; apply (proj2 Hr1)|].
      apply (grid_step mf ef mx ex (shr_m mrs') e'); try assumption; [lia|].
      apply Hb2. reflexivity.
    - rewrite Hr2 by (apply loc_of_shr_record_exact; assumption). assumption. }
  assert (Hmr0 : 0 <= mr) by lia.
  pose proof (shr_fexp_weak (F2R (Zpos mf) ef) mr e' Hmr0 Hmr) as H2.
  destruct (shr_fexp prec emax mr e' loc_Exact) as [mrs'' e''].
  destruct H2 as (He'' & Hm'' & Hb'').
  destruct (shr_m mrs'') as [|m''|m''] eqn:Em''; [reflexivity| |lia].
  pose proof (bounded_lt_overflow _ _ Hb) as Hov.
  destruct (Z.leb_spec e'' (emax - prec)) as [Hfin|Hinf]; [split; [reflexivity|assumption]|].
  change (emax - prec) with 971 in Hinf.
  destruct He'' as [->| ->].
  - (* no second shift: the first exponent is already too large *)
    rewrite fexp64_eq in He', Hex.
    assert (Hmx0 : 0 < mx).
    { destruct (Z.eq_dec mx 0) as [->|]; [|lia]. simpl Zdigits2 in *. lia. }
    destruct (F2R_digits mx ex Hmx0) as [Hlo _].
    assert ((powerRZ 2 1024 <= powerRZ 2 (Zdigits2 mx - 1 + ex))%R) by (apply powerRZ2_le; lia).
    lra.
  - rewrite fexp64_eq in Hinf.
    assert (Hmr1 : 0 < mr) by lia.
    destruct (F2R_digits mr e' Hmr1) as [Hlo _].
    assert ((powerRZ 2 1024 <= powerRZ 2 (Zdigits2 mr - 1 + e'))%R) by (apply powerRZ2_le; lia).
    lra.
Qed.


Lemma F2R_mul m1 e1 m2 e2 : F2R (m1 * m2) (e1 + e2) = (F2R m1 e1 * F2R m2 e2)%R.
Proof. unfold F2R. rewrite mult_IZR, powerRZ2_add. ring. Qed.

Lemma F2R_pos m e : 0 < m -> (0 < F2R m e)%R.
Proof.
  intros H. unfold F2R. apply IZR_lt in H. pose proof (powerRZ2_pos e). nra.
Qed.

Lemma fexp64_mono a b : a <= b -> fexp64 a <= fexp64 b.
Proof. rewrite !fexp64_eq. lia. Qed.

Lemma bounded_digits m e : bounded64 m e = true ->
  Zdigits2 (Zpos m) <= 53 /\ -1074 <= e /\ (Zdigits2 (Zpos m) = 53 \/ e = -1074).
Proof.
  intros H. destruct (bounded_inv _ _ H) as [Hc _]. rewrite fexp64_eq in Hc. lia.
Qed.

(* the product of two positive floats, rounded, stays below any float that
   bounds the exact product *)
Lemma SFmul_le mf ef mx ex my ey :
  bounded64 mf ef = true -> bounded64 mx ex = true -> bounded64 my ey = true ->
  (F2R (Zpos mx) ex * F2R (Zpos my) ey <= F2R (Zpos mf) ef)%R ->
  match SFmul prec emax (S754_finite false mx ex) (S754_finite false my ey) with
  | S754_zero s => s = false
  | S754_finite s m e => s = false /\ (F2R (Zpos m) e <= F2R (Zpos mf) ef)%R
  | _ => False
  end.
Proof.
  intros Hf Hx Hy Hle. simpl SFmul.
  apply binary_round_aux_le; try assumption; try lia.
  - destruct (bounded_digits _ _ Hx) as (Hx1 & Hx2 & Hx3).
    destruct (bounded_digits _ _ Hy) as (Hy1 & Hy2 & Hy3).
    rewrite Pos2Z.inj_mul. rewrite !Zdigits2_log2 in * by lia.
    pose proof (Z.log2_mul_below (Zpos mx) (Zpos my)) as Hlog.
    pose proof (Z.log2_nonneg (Zpos mx)). pose proof (Z.log2_nonneg (Zpos my)).
    rewrite fexp64_eq. lia.
  - rewrite Pos2Z.inj_mul, F2R_mul. assumption.
  - intros Hne. exfalso. apply Hne. reflexivity.
Qed.

Lemma new_location_exact n r : new_location n r = loc_Exact <-> r = 0.
Proof.
  unfold new_location, new_location_even, new_location_odd.
  destruct (Z.even n); destruct (Z.eqb_spec r 0); split; intros;
    congruence.
Qed.

Lemma Zdigits2_nonneg m : 0 <= Zdigits2 m.
Proof. destruct m; simpl; lia. Qed.

Lemma Zdigits2_lower m k : 0 <= k -> 2 ^ k <= m -> k + 1 <= Zdigits2 m.
Proof.
  intros Hk H. assert (0 < m) by (assert (0 < 2 ^ k) by (apply Z.pow_pos_nonneg; lia); lia).
  rewrite Zdigits2_log2 by lia. apply Z.log2_le_pow2 in H; lia.
Qed.

(* the quotient of two positive floats, rounded, stays below any float [F]
   with x <= y * F *)
Lemma SFdiv_le mf ef m1 e1 m2 e2 :
  bounded64 mf ef = true ->
  (F2R (Zpos m1) e1 <= F2R (Zpos m2) e2 * F2R (Zpos mf) ef)%R ->
  match SFdiv prec emax (S754_finite false m1 e1) (S754_finite false m2 e2) with
  | S754_zero s => s = false
  | S754_finite s m e => s = false /\ (F2R (Zpos m) e <= F2R (Zpos mf) ef)%R
  | _ => False
  end.
Proof.
  intros Hf Hle. unfold SFdiv, SFdiv_core_binary.
  set (d1 := Zdigits2 (Zpos m1)). set (d2 := Zdigits2 (Zpos m2)).
  set (e' := Z.min (fexp prec emax (d1 + e1 - (d2 + e2))) (e1 - e2)).
  set (s := e1 - e2 - e').
  assert (Hs : 0 <= s) by (unfold s, e'; lia).
  set (m' := match s with Zpos _ => Z.shiftl (Zpos m1) s | 0 => Zpos m1 | Zneg _ => 0 end).
  assert (Hm' : m' = Zpos m1 * 2 ^ s).
  { unfold m'. destruct s as [|k|k] eqn:Es; try lia.
    rewrite Z.shiftl_mul_pow2 by lia. reflexivity. }
  pose proof (Z_div_mod m' (Zpos m2) ltac:(lia)) as Hdm.
  destruct (Z.div_eucl m' (Zpos m2)) as [q r]. destruct Hdm as [Hq Hr].
  assert (Hm'pos : 0 < m') by (rewrite Hm'; assert (0 < 2 ^ s) by (apply Z.pow_pos_nonneg; lia); nia).
  assert (Hq0 : 0 <= q).
  { destruct (Z_lt_le_dec q 0) as [Hneg|]; [exfalso|assumption].
    assert (Zpos m2 * q <= - Zpos m2) by nia. lia. }
  (* the exact quotient is (q + r/m2) * 2^e' *)
  assert (Hval : (F2R q e' * F2R (Zpos m2) e2 + F2R r (e' + e2) = F2R (Zpos m1) e1)%R).
  { replace e1 with (e' + e2 + s) by (unfold s; lia). rewrite <- (F2R_shift (Zpos m1) (e' + e2) s) by lia.
    rewrite <- Hm', Hq. unfold F2R. rewrite plus_IZR, mult_IZR, powerRZ2_add. ring. }
  pose proof (F2R_pos (Zpos m2) e2 ltac:(lia)) as Hy.
  pose proof (F2R_nonneg r (e' + e2) ltac:(lia)) as Hr0.
  apply binary_round_aux_le; try assumption.
  - (* the quotient has enough digits *)
    apply Z.le_trans with (fexp64 (d1 + e1 - (d2 + e2))); [unfold e'; lia|].
    apply fexp64_mono.
    destruct (Z_le_gt_dec (d1 + s - d2) 0) as [Hsmall|Hbig].
    + pose proof (Zdigits2_nonneg q). unfold s in Hsmall. lia.
    + assert (2 ^ (d1 + s - d2 - 1) <= q).
      { destruct (Zdigits2_bounds (Zpos m1) ltac:(lia)) as [Hlo1 _].
        destruct (Zdigits2_bounds (Zpos m2) ltac:(lia)) as [_ Hhi2].
        fold d1 in Hlo1. fold d2 in Hhi2.
        assert (Hd2 : 0 < d2) by (unfold d2; simpl; lia).
        assert (Hd1 : 0 < d1) by (unfold d1; simpl; lia).
        assert (Hpow : 2 ^ (d1 + s - 1) = 2 ^ (d1 + s - d2 - 1) * 2 ^ d2).
        { rewrite <- Z.pow_add_r by lia. f_equal. lia. }
        assert (Hm'lo : 2 ^ (d1 + s - 1) <= m').
        { rewrite Hm'. replace (d1 + s - 1) with (d1 - 1 + s) by lia.
          rewrite Z.pow_add_r by lia. 
          assert (0 < 2 ^ s) by (apply Z.pow_pos_nonneg; lia). nia. }
        assert (0 < 2 ^ (d1 + s - d2 - 1)) by (apply Z.pow_pos_nonneg; lia).
        nia. }
      apply Zdigits2_lower in H; [|lia]. unfold s in *. lia.
  - assert ((F2R q e' * F2R (Zpos m2) e2 <= F2R (Zpos mf) ef * F2R (Zpos m2) e2)%R) by lra.
    nra.
  - intros Hne. assert (Hrne : r <> 0) by (intros ->; apply Hne, new_location_exact; reflexivity).
    pose proof (F2R_pos r (e' + e2) ltac:(lia)).
    assert ((F2R q e' * F2R (Zpos m2) e2 < F2R (Zpos mf) ef * F2R (Zpos m2) e2)%R) by lra.
    nra.
Qed.

(* on canonical positive floats the structural comparison agrees with the order of values *)
Lemma SFcompare_Lt_F2R m1 e1 m2 e2 :
  bounded64 m1 e1 = true -> bounded64 m2 e2 = true ->
  SFcompare (S754_finite false m1 e1) (S754_finite false m2 e2) = Some Lt ->
  (F2R (Zpos m1) e1 < F2R (Zpos m2) e2)%R.
Proof.
  intros H1 H2 Hc. simpl in Hc.
  destruct (bounded_digits _ _ H1) as (Hd1 & He1 & _).
  destruct (bounded_inv _ _ H2) as [Hc2 _]. rewrite fexp64_eq in Hc2.
  destruct (Z.compare_spec e1 e2) as [Heq|Hlt|Hgt]; try discriminate.
  - subst e2. injection Hc as Hc. rewrite Pos.compare_cont_spec in Hc.
    destruct (Pos.compare_spec m1 m2) as [|Hc'|]; try discriminate. unfold F2R. 
    assert (IZR (Zpos m1) < IZR (Zpos m2))%R by (apply IZR_lt; lia).
    pose proof (powerRZ2_pos e1). nra.
  - destruct (F2R_digits (Zpos m1) e1 ltac:(lia)) as [_ Hhi].
    destruct (F2R_digits (Zpos m2) e2 ltac:(lia)) as [Hlo _].
    assert ((powerRZ 2 (Zdigits2 (Zpos m1) + e1) <= powerRZ 2 (Zdigits2 (Zpos m2) - 1 + e2))%R)
      by (apply powerRZ2_le; lia).
    lra.
Qed.

Lemma binary_round_aux_exact s m e :
  Zdigits2 (Zpos m) = 53 -> -1074 <= e <= 971 ->
  binary_round_aux prec emax s (Zpos m) e loc_Exact = S754_finite s m e.
Proof.
  intros Hd He. unfold binary_round_aux, shr_fexp.
  assert (Hk : fexp64 (Zdigits2 (Zpos m) + e) - e = 0) by (rewrite fexp64_eq; lia).
  rewrite Hk. cbn [shr shr_record_of_loc shr_m loc_of_shr_record round_nearest_even].
  rewrite Hk. cbn [shr shr_m].
  destruct (Z.leb_spec e (emax - prec)) as [|Hbad]; [reflexivity|].
  change (emax - prec) with 971 in Hbad. lia.
Qed.

Lemma iter_xO_pow2 m d : Zpos (Pos.iter xO m d) = Zpos m * 2 ^ Zpos d.
Proof.
  rewrite (Pos.iter_swap_gen _ _ Zpos xO (Z.mul 2)) by reflexivity.
  change (Pos.iter (Z.mul 2) (Zpos m) d) with (Z.shiftl (Zpos m) (Zpos d)).
  apply Z.shiftl_mul_pow2. lia.
Qed.

Lemma Zdigits2_mul_pow2 m k : 0 < m -> 0 <= k -> Zdigits2 (m * 2 ^ k) = Zdigits2 m + k.
Proof.
  intros Hm Hk. assert (0 < 2 ^ k) by (apply Z.pow_pos_nonneg; lia).
  rewrite !Zdigits2_log2 by nia. rewrite Z.log2_mul_pow2 by lia. lia.
Qed.

Lemma Zdigits2_le_53 z : 0 < z < 2 ^ 53 -> 1 <= Zdigits2 z <= 53.
Proof.
  intros [H0 H1]. rewrite Zdigits2_log2 by lia.
  pose proof (Z.log2_nonneg z). apply Z.log2_lt_pow2 in H1; lia.
Qed.

Lemma binary_normalize_small z s : 0 < z < 2 ^ 53 ->
  binary_normalize prec emax z 0 s = SF_of_small z.
Proof.
  intros Hz. pose proof (Zdigits2_le_53 z Hz) as Hd.
  destruct z as [|p|p]; try lia. unfold SF_of_small.
  unfold binary_normalize, binary_round, shl_align.
  change (Z.pos (digits2_pos p)) with (Zdigits2 (Zpos p)).
  rewrite Z.add_0_r, fexp64_eq.
  replace (Z.max (Zdigits2 (Zpos p) - 53) (-1074)) with (Zdigits2 (Zpos p) - 53) by lia.
  destruct (Zdigits2 (Zpos p) - 53 - 0) as [|k|k] eqn:Hk; try lia.
  - replace (53 - Zdigits2 (Zpos p)) with 0 by lia.
    replace (Zdigits2 (Zpos p) - 53) with 0 by lia.
    rewrite Z.mul_1_r. simpl Z.to_pos. apply binary_round_aux_exact; lia.
  - replace (53 - Zdigits2 (Zpos p)) with (Zpos k) by lia.
    rewrite <- iter_xO_pow2. simpl Z.to_pos.
    apply binary_round_aux_exact; [|lia].
    rewrite iter_xO_pow2, Zdigits2_mul_pow2 by lia. lia.
Qed.

Lemma SF_of_small_valid z : 0 < z < 2 ^ 53 -> valid_binary (SF_of_small z) = true.
Proof.
  intros Hz. pose proof (Zdigits2_le_53 z Hz) as Hd.
  unfold SF_of_small.
  assert (Hp : 0 < z * 2 ^ (53 - Zdigits2 z)).
  { assert (0 < 2 ^ (53 - Zdigits2 z)) by (apply Z.pow_pos_nonneg; lia). nia. }
  remember (z * 2 ^ (53 - Zdigits2 z)) as mz eqn:Emz.
  destruct mz as [|p|p]; try lia.
  cbn [Z.to_pos SpecFloat.valid_binary]. unfold SpecFloat.bounded, canonical_mantissa.
  change (Z.pos (digits2_pos p)) with (Zdigits2 (Zpos p)).
  rewrite Emz, Zdigits2_mul_pow2 by lia.
  rewrite fexp64_eq. apply andb_true_iff. split; [apply Z.eqb_eq|apply Z.leb_le]; 
  change (emax - prec) with 971; lia.
Qed.

Lemma SF_of_small_F2R z : 0 < z < 2 ^ 53 ->
  F2R (Zpos (Z.to_pos (z * 2 ^ (53 - Zdigits2 z)))) (Zdigits2 z - 53) = IZR z.
Proof.
  intros Hz. pose proof (Zdigits2_le_53 z Hz) as Hd.
  assert (Hp : 0 < z * 2 ^ (53 - Zdigits2 z)).
  { assert (0 < 2 ^ (53 - Zdigits2 z)) by (apply Z.pow_pos_nonneg; lia). nia. }
  rewrite Z2Pos.id by lia. rewrite F2R_shift by lia.
  replace (Zdigits2 z - 53 + (53 - Zdigits2 z)) with 0 by lia. unfold F2R. simpl. ring.
Qed.

Lemma Prim2SF_float64_of_int_small z : 0 < z < 2 ^ 53 ->
  Prim2SF (float64_of_int z) = SF_of_small z.
Proof.
  intros Hz. unfold float64_of_int. rewrite binary_normalize_small by assumption.
  apply Prim2SF_SF2Prim, SF_of_small_valid, Hz.
Qed.

Lemma Prim2SF_float64_of_int_0 : Prim2SF (float64_of_int 0) = S754_zero false.
Proof. reflexivity. Qed.

Lemma Prim2SF_100 : Prim2SF 100 = S754_finite false 7036874417766400 (-46).
Proof. reflexivity. Qed.

Lemma Prim2SF_zero : Prim2SF 0 = S754_zero false.
Proof. reflexivity. Qed.

(* a float strictly between 0 and 100 is a positive finite number below 100 *)
Lemma between_0_100 p :
  (0 <? p)%float = true -> (p <? 100)%float = true ->
  exists m e, Prim2SF p = S754_finite false m e /\ bounded64 m e = true /\
              (F2R (Zpos m) e < 100)%R.
Proof.
  rewrite !ltb_spec, Prim2SF_100, Prim2SF_zero. intros H0 H100.
  pose proof (Prim2SF_valid p) as Hv.
  destruct (Prim2SF p) as [s|s| |s m e]; try discriminate.
  - destruct s; discriminate.
  - destruct s; [discriminate|]. exists m, e. split; [reflexivity|]. split; [exact Hv|].
    unfold SFltb in H100.
    destruct (SFcompare (S754_finite false m e) (S754_finite false 7036874417766400 (-46)))
      as [[]|] eqn:Hc; try discriminate.
    apply SFcompare_Lt_F2R in Hc; [|exact Hv|reflexivity].
    replace 100%R with (F2R 7036874417766400 (-46)); [exact Hc|].
    change 7036874417766400 with (100 * 2 ^ 46). rewrite F2R_shift by lia.
    unfold F2R. simpl. lra.
Qed.

Lemma F2R_one : F2R 4503599627370496 (-52) = 1%R.
Proof.
  change 4503599627370496 with (1 * 2 ^ 52). rewrite F2R_shift by lia.
  unfold F2R. simpl. lra.
Qed.

(* p / 100 is a non-negative float not above 1 *)
Lemma div_100_range p :
  (0 <? p)%float = true -> (p <? 100)%float = true ->
  nonneg_below (Prim2SF (p / 100)) 1.
Proof.
  intros H0 H100. destruct (between_0_100 p H0 H100) as (m & e & Hp & Hb & Hlt).
  rewrite div_spec, Hp, Prim2SF_100. unfold SF64div.
  pose proof (SFdiv_le 4503599627370496 (-52) m e 7036874417766400 (-46) eq_refl) as H.
  rewrite F2R_one in H.
  assert (Hc : F2R 7036874417766400 (-46) = 100%R).
  { change 7036874417766400 with (100 * 2 ^ 46). rewrite F2R_shift by lia.
    unfold F2R. simpl. lra. }
  rewrite Hc in H. specialize (H ltac:(lra)).
  unfold nonneg_below.
  destruct (SFdiv prec emax (S754_finite false m e) (S754_finite false 7036874417766400 (-46)));
    assumption.
Qed.

(* the position (p/100)*(n-1) lies in [0, n-1] *)
Lemma position_range p n :
  1 <= n <= 2 ^ 53 ->
  (0 <? p)%float = true -> (p <? 100)%float = true ->
  nonneg_below (Prim2SF (p / 100 * float64_of_int (n - 1))) (n - 1).
Proof.
  intros Hn H0 H100. pose proof (div_100_range p H0 H100) as Hq.
  pose proof (Prim2SF_valid (p / 100)) as Hqv.
  rewrite mul_spec. unfold SF64mul.
  destruct (Z.eq_dec n 1) as [->|Hn1].
  - change (1 - 1) with 0. rewrite Prim2SF_float64_of_int_0.
    destruct (Prim2SF (p / 100)) as [s|s| |s m e]; simpl in *; try contradiction.
    + subst s. reflexivity.
    + destruct Hq as [-> _]. reflexivity.
  - assert (Hz : 0 < n - 1 < 2 ^ 53) by lia.
    rewrite Prim2SF_float64_of_int_small by exact Hz.
    pose proof (SF_of_small_valid _ Hz) as Hzv. pose proof (SF_of_small_F2R _ Hz) as Hzr.
    unfold SF_of_small in *.
    set (mz := Z.to_pos ((n - 1) * 2 ^ (53 - Zdigits2 (n - 1)))) in *.
    set (ez := Zdigits2 (n - 1) - 53) in *.
    destruct (Prim2SF (p / 100)) as [s|s| |s m e]; try contradiction.
    + simpl in Hq. subst s. reflexivity.
    + destruct Hq as [-> Hq].
      pose proof (SFmul_le mz ez m e mz ez Hzv Hqv Hzv) as H.
      pose proof (F2R_pos (Zpos mz) ez ltac:(lia)).
      specialize (H ltac:(nra)). rewrite Hzr in H. exact H.
Qed.

Lemma int_of_float64_zero : int_of_float64 (SF2Prim (S754_zero false)) = 0.
Proof. reflexivity. Qed.

Lemma int_of_float64_of_small z : 0 < z < 2 ^ 53 ->
  int_of_float64 (float64_of_int z) = z.
Proof.
  intros Hz. unfold int_of_float64. rewrite Prim2SF_float64_of_int_small by exact Hz.
  pose proof (Zdigits2_le_53 z Hz) as Hd. unfold SF_of_small.
  assert (Hp : 0 < z * 2 ^ (53 - Zdigits2 z)).
  { assert (0 < 2 ^ (53 - Zdigits2 z)) by (apply Z.pow_pos_nonneg; lia). nia. }
  rewrite Z2Pos.id by lia. cbn [cond_Zopp].
  rewrite Z.shiftl_div_pow2 by lia.
  replace (- (Zdigits2 z - 53)) with (53 - Zdigits2 z) by lia.
  rewrite Z.div_mul by (apply Z.pow_nonzero; lia).
  change (2 ^ 53) with 9007199254740992 in Hz.
  unfold MinInt64, MaxInt64.
  destruct (Z.leb_spec (-9223372036854775808) z); [|lia].
  destruct (Z.leb_spec z 9223372036854775807); [reflexivity|lia].
Qed.

Lemma int_of_float64_of_nat_range z : 0 <= z < 2 ^ 53 ->
  int_of_float64 (SF2Prim (binary_normalize prec emax z 0 false)) = z.
Proof.
  intros Hz. destruct (Z.eq_dec z 0) as [->|]; [reflexivity|].
  apply int_of_float64_of_small. lia.
Qed.

Lemma F2R_le_IZR_neg m e N : e < 0 -> (F2R m e <= IZR N)%R -> m <= N * 2 ^ (- e).
Proof.
  intros He H. apply (F2R_le_inv _ _ e). rewrite F2R_shift by lia.
  replace (e + - e) with 0 by lia. unfold F2R at 2. simpl. lra.
Qed.

Lemma F2R_le_IZR_nonneg m e N : 0 <= e -> (F2R m e <= IZR N)%R -> m * 2 ^ e <= N.
Proof.
  intros He H. apply le_IZR. 
  replace (IZR (m * 2 ^ e)) with (F2R (m * 2 ^ e) 0) by (unfold F2R; simpl; lra).
  rewrite F2R_shift by lia. exact H.
Qed.

Lemma int_of_float64_nonneg_big x m e N :
  0 <= N < 2 ^ 53 -> Prim2SF x = S754_finite false m e -> 0 <= e ->
  (F2R (Zpos m) e <= IZR N)%R -> 0 <= int_of_float64 x <= N.
Proof.
  intros HN Hx He Hle. unfold int_of_float64. rewrite Hx. cbn [cond_Zopp].
  rewrite Z.shiftl_mul_pow2 by lia.
  pose proof (F2R_le_IZR_nonneg _ _ _ He Hle) as Hb.
  assert (0 < 2 ^ e) by (apply Z.pow_pos_nonneg; lia).
  assert (0 < Zpos m * 2 ^ e) by nia.
  change (2 ^ 53) with 9007199254740992 in HN.
  unfold MinInt64, MaxInt64.
  destruct (Z.leb_spec (-9223372036854775808) (Zpos m * 2 ^ e)); [|lia].
  destruct (Z.leb_spec (Zpos m * 2 ^ e) 9223372036854775807); cbn [andb]; lia.
Qed.

(* int(math.Floor(x)) for a float in [0, N] *)
Lemma int_Floor_range x N :
  0 <= N < 2 ^ 53 -> nonneg_below (Prim2SF x) N ->
  0 <= int_of_float64 (Floor x) <= N.
Proof.
  intros HN Hx. unfold Floor.
  destruct (Prim2SF x) as [s|s| |s m e] eqn:Ex; simpl in Hx; try contradiction.
  - subst s. simpl SFfloor. rewrite int_of_float64_zero. lia.
  - destruct Hx as [-> Hle]. cbn [SFfloor].
    destruct (Z.leb_spec 0 e) as [He|He].
    + rewrite <- Ex, SF2Prim_Prim2SF. eapply int_of_float64_nonneg_big; eauto.
    + cbn [cond_Zopp]. rewrite Z.shiftl_div_pow2 by lia.
      pose proof (F2R_le_IZR_neg _ _ _ He Hle) as Hb.
      assert (Hp : 0 < 2 ^ (- e)) by (apply Z.pow_pos_nonneg; lia).
      assert (H1 : 0 <= Zpos m / 2 ^ (- e)) by (apply Z.div_pos; lia).
      assert (H2 : Zpos m / 2 ^ (- e) <= N) by (apply Z.div_le_upper_bound; lia).
      rewrite int_of_float64_of_nat_range by lia. lia.
Qed.

(* int(math.Ceil(x)) for a float in [0, N] *)
Lemma int_Ceil_range x N :
  0 <= N < 2 ^ 53 -> nonneg_below (Prim2SF x) N ->
  0 <= int_of_float64 (Ceil x) <= N.
Proof.
  intros HN Hx. unfold Ceil.
  destruct (Prim2SF x) as [s|s| |s m e] eqn:Ex; simpl in Hx; try contradiction.
  - subst s. simpl SFceil. rewrite int_of_float64_zero. lia.
  - destruct Hx as [-> Hle]. cbn [SFceil].
    destruct (Z.leb_spec 0 e) as [He|He].
    + rewrite <- Ex, SF2Prim_Prim2SF. eapply int_of_float64_nonneg_big; eauto.
    + cbn [cond_Zopp]. rewrite Z.shiftl_div_pow2 by lia.
      pose proof (F2R_le_IZR_neg _ _ _ He Hle) as Hb.
      assert (Hp : 0 < 2 ^ (- e)) by (apply Z.pow_pos_nonneg; lia).
      assert (H1 : - Zpos m / 2 ^ (- e) < 0) by (apply Z.div_lt_upper_bound; lia).
      assert (H2 : - N <= - Zpos m / 2 ^ (- e)) by (apply Z.div_le_lower_bound; lia).
      rewrite int_of_float64_of_nat_range by lia. lia.
Qed.

End Rounding.

(* ================================================================= *)
(** ** [percentile] *)

Lemma len_nonneg {A : Type} (l : list A) : 0 <= len l.
Proof. unfold len. lia. Qed.

Lemma len_nil_iff {A : Type} (l : list A) : len l = 0 <-> l = [].
Proof.
  unfold len. destruct l as [|a l]; simpl; split; intros H; try reflexivity; try discriminate.
Qed.

Lemma slice_index_Ok {A : Type} (l : list A) (i : Z) (d : A) :
  0 <= i < len l -> slice_index l i = Ok (nth (Z.to_nat i) l d).
Proof.
  intros Hi. unfold slice_index.
  destruct (Z.leb_spec 0 i); [|lia]. destruct (Z.ltb_spec i (len l)); [|lia].
  cbn [andb]. unfold len in *.
  destruct (nth_error l (Z.to_nat i)) as [a|] eqn:Hn.
  - f_equal. symmetry. apply nth_error_nth. exact Hn.
  - apply nth_error_None in Hn. lia.
Qed.

(** The comparisons of [percentile] against 0 and 100. *)
Ltac by_cases_on_float p m e :=
  destruct (Prim2SF p) as [[]|[]| |[] m e];
  try (intros; first [reflexivity | discriminate | contradiction]).

Lemma leb_100_not_leb_0 p : (100 <=? p)%float = true -> (p <=? 0)%float = false.
Proof.
  rewrite !FloatAxioms.leb_spec, Prim2SF_100, Prim2SF_zero. by_cases_on_float p m e.
Qed.

Lemma ltb_0_not_leb_0 p : (0 <? p)%float = true -> (p <=? 0)%float = false.
Proof.
  rewrite FloatAxioms.ltb_spec, FloatAxioms.leb_spec, Prim2SF_zero. by_cases_on_float p m e.
Qed.

Lemma SFcompare_finite_antisym m1 e1 m2 e2 :
  SFcompare (S754_finite false m1 e1) (S754_finite false m2 e2) =
  option_map CompOpp (SFcompare (S754_finite false m2 e2) (S754_finite false m1 e1)).
Proof.
  unfold SFcompare, option_map. f_equal. rewrite (Z.compare_antisym e1 e2).
  destruct (e1 ?= e2) eqn:He; try reflexivity.
  rewrite !Pos.compare_cont_spec. unfold Pos.switch_Eq.
  rewrite (Pos.compare_antisym m1 m2).
  destruct (m1 ?= m2)%positive; reflexivity.
Qed.

Lemma ltb_100_not_leb_100 p : (p <? 100)%float = true -> (100 <=? p)%float = false.
Proof.
  rewrite FloatAxioms.ltb_spec, FloatAxioms.leb_spec, Prim2SF_100. by_cases_on_float p m e.
  unfold SFltb, SFleb. rewrite (SFcompare_finite_antisym 7036874417766400 (-46) m e).
  destruct (SFcompare (S754_finite false m e) (S754_finite false 7036874417766400 (-46)))
    as [[]|]; intros; first [reflexivity | discriminate].
Qed.

Lemma IsNaN_false p : IsNaN p = false -> Prim2SF p <> S754_nan.
Proof.
  unfold IsNaN. rewrite FloatAxioms.eqb_spec. intros H Hn. rewrite Hn in H. discriminate.
Qed.

(** A number that is neither at most 0 nor at least 100 lies strictly
    between them. *)
Lemma between_of_not_leb p :
  Prim2SF p <> S754_nan ->
  (p <=? 0)%float = false -> (100 <=? p)%float = false ->
  (0 <? p)%float = true /\ (p <? 100)%float = true.
Proof.
  rewrite !FloatAxioms.leb_spec, !FloatAxioms.ltb_spec, Prim2SF_100, Prim2SF_zero.
  by_cases_on_float p m e.
  intros _ _ H. split; [reflexivity|]. revert H.
  unfold SFltb, SFleb. rewrite (SFcompare_finite_antisym 7036874417766400 (-46) m e).
  destruct (SFcompare (S754_finite false m e) (S754_finite false 7036874417766400 (-46)))
    as [[]|] eqn:Hc; intros;
    first [reflexivity | discriminate | unfold SFcompare in Hc; discriminate Hc].
Qed.

(** The indices that [percentile] computes lie within the slice. *)
Lemma percentile_indices (sorted : list float) (p : float) :
  sorted <> [] -> len sorted <= 2 ^ 53 ->
  (0 <? p)%float = true -> (p <? 100)%float = true ->
  let pos := (p / 100 * float64_of_int (len sorted - 1))%float in
  0 <= int_of_float64 (Floor pos) <= len sorted - 1 /\
  0 <= int_of_float64 (Ceil pos) <= len sorted - 1.
Proof.
  intros Hne Hlen H0 H100 pos.
  assert (Hn : 1 <= len sorted).
  { pose proof (len_nonneg sorted). destruct (Z.eq_dec (len sorted) 0) as [E|]; [|lia].
    apply len_nil_iff in E. contradiction. }
  pose proof (position_range p (len sorted) ltac:(lia) H0 H100) as Hpos.
  split; [apply int_Floor_range | apply int_Ceil_range]; try exact Hpos; lia.
Qed.

Lemma allocatable_float64 (sorted : list float) :
  allocatable 8 sorted -> len sorted <= 2 ^ 53.
Proof.
  unfold allocatable, maxAlloc. intros H.
  change (2 ^ 48) with 281474976710656 in H.
  change (2 ^ 53) with 9007199254740992. lia.
Qed.

(** Between 0 and 100 [percentile] reads elements that exist. *)
Lemma percentile_Ok_between (sorted : list float) (p : float) :
  sorted <> [] -> len sorted <= 2 ^ 53 ->
  (0 <? p)%float = true -> (p <? 100)%float = true ->
  exists v, percentile sorted p = Ok v.
Proof.
  intros Hne Hlen H0 H100.
  destruct (percentile_indices sorted p Hne Hlen H0 H100) as [Hl Hu].
  unfold percentile.
  destruct (Z.eqb_spec (len sorted) 0) as [E|_]; [eexists; reflexivity|].
  rewrite (ltb_0_not_leb_0 p H0), (ltb_100_not_leb_100 p H100).
  set (pos := (p / 100 * float64_of_int (len sorted - 1))%float) in *.
  cbv zeta in Hl, Hu.
  rewrite (slice_index_Ok sorted (int_of_float64 (Floor pos)) 0%float) by lia.
  rewrite (slice_index_Ok sorted (int_of_float64 (Ceil pos)) 0%float) by lia.
  destruct (int_of_float64 (Floor pos) =? int_of_float64 (Ceil pos)); eexists; reflexivity.
Qed.

Lemma percentile_nil (p : float) : percentile [] p = Ok 0%float.
Proof. reflexivity. Qed.

Lemma percentile_Ok (sorted : list float) (p : float) :
  len sorted <= 2 ^ 53 -> Prim2SF p <> S754_nan ->
  exists v, percentile sorted p = Ok v.
Proof.
  intros Hlen Hn. destruct sorted as [|x sorted]; [eexists; apply percentile_nil|].
  destruct (p <=? 0)%float eqn:H0.
  - unfold percentile. rewrite H0. cbn [len length Z.eqb Z.of_nat].
    eexists. apply (slice_index_Ok _ 0 x). unfold len. cbn [length]. lia.
  - destruct (100 <=? p)%float eqn:H100.
    + unfold percentile. rewrite H0, H100. cbn [len length Z.eqb Z.of_nat].
      eexists. apply (slice_index_Ok _ _ x). unfold len. cbn [length]. lia.
    + destruct (between_of_not_leb p Hn H0 H100) as [Hp0 Hp100].
      apply percentile_Ok_between; [discriminate|assumption..].
Qed.

(** Between 0 and 100 the result is the interpolation of two elements of
    the slice. *)
Lemma percentile_interpolates (s : list float) (p : float) :
  s <> [] -> len s <= 2 ^ 53 ->
  (0 <? p)%float = true -> (p <? 100)%float = true ->
  let position := (p / 100 * float64_of_int (len s - 1))%float in
  let lo := int_of_float64 (Floor position) in
  let hi := int_of_float64 (Ceil position) in
  let frac := (position - float64_of_int lo)%float in
  percentile s p =
    Ok (if lo =? hi then nth (Z.to_nat lo) s 0%float
        else (nth (Z.to_nat lo) s 0 * (1 - frac) + nth (Z.to_nat hi) s 0 * frac)%float).
Proof.
  intros Hne Hlen H0 H100.
  destruct (percentile_indices s p Hne Hlen H0 H100) as [Hl Hu].
  cbv zeta in Hl, Hu |- *. unfold percentile.
  destruct (Z.eqb_spec (len s) 0) as [E|_]; [apply len_nil_iff in E; contradiction|].
  rewrite (ltb_0_not_leb_0 p H0), (ltb_100_not_leb_100 p H100).
  set (position := (p / 100 * float64_of_int (len s - 1))%float) in *.
  rewrite (slice_index_Ok s (int_of_float64 (Floor position)) 0%float) by lia.
  rewrite (slice_index_Ok s (int_of_float64 (Ceil position)) 0%float) by lia.
  destruct (int_of_float64 (Floor position) =? int_of_float64 (Ceil position)); reflexivity.
Qed.

(** C1. On a sorted non-empty list [s] of [n] elapsed times, [percentile]
    returns [s[0]] when [p <= 0] and [s[n-1]] when [p >= 100]; otherwise,
    with [position = (p/100)*(n-1)], [lo = floor(position)] and
    [hi = ceil(position)], it returns [s[lo]] when [lo == hi] and
    [s[lo]*(1-frac) + s[hi]*frac] with [frac = position - lo] when not; on
    [[10, 20, 30, 40]] the percentile at 50 is 25.  (The list need not be
    sorted for any of this.  In the third part [s[i]] is Go's checked
    indexing; the fourth part says that for [0 < p < 100] both elements
    exist.) *)
Theorem C1_percentile_formula (s : list float) (p : float) :
  s <> [] ->
  ((p <=? 0)%float = true -> percentile s p = Ok (nth 0 s 0%float)) /\
  ((100 <=? p)%float = true -> percentile s p = Ok (nth (length s - 1) s 0%float)) /\
  ((p <=? 0)%float = false -> (100 <=? p)%float = false ->
   let position := (p / 100 * float64_of_int (len s - 1))%float in
   let lo := int_of_float64 (Floor position) in
   let hi := int_of_float64 (Ceil position) in
   let frac := (position - float64_of_int lo)%float in
   percentile s p =
     if lo =? hi then slice_index s lo
     else a ← slice_index s lo; b ← slice_index s hi;
          Ok (a * (1 - frac) + b * frac)%float) /\
  (allocatable 8 s -> (0 <? p)%float = true -> (p <? 100)%float = true ->
   let position := (p / 100 * float64_of_int (len s - 1))%float in
   let lo := int_of_float64 (Floor position) in
   let hi := int_of_float64 (Ceil position) in
   let frac := (position - float64_of_int lo)%float in
   percentile s p =
     Ok (if lo =? hi then nth (Z.to_nat lo) s 0%float
         else (nth (Z.to_nat lo) s 0 * (1 - frac) + nth (Z.to_nat hi) s 0 * frac)%float)) /\
  percentile [10; 20; 30; 40]%float 50 = Ok 25%float.
Proof.
  intros Hne.
  assert (Hlen : 1 <= len s).
  { pose proof (len_nonneg s). destruct (Z.eq_dec (len s) 0) as [E|]; [|lia].
    apply len_nil_iff in E. contradiction. }
  assert (Hz : (len s =? 0) = false) by (apply Z.eqb_neq; lia).
  split; [|split; [|split; [|split]]].
  - intros H0. unfold percentile. rewrite Hz, H0.
    apply (slice_index_Ok s 0). lia.
  - intros H100. unfold percentile. rewrite Hz, (leb_100_not_leb_0 p H100), H100.
    rewrite (slice_index_Ok s (len s - 1) 0%float) by lia.
    do 2 f_equal. unfold len. lia.
  - intros H0 H100. unfold percentile. rewrite Hz, H0, H100. reflexivity.
  - intros Ha H0 H100. apply percentile_interpolates; try assumption.
    apply allocatable_float64, Ha.
  - vm_compute. reflexivity.
Qed.

Lemma C1_percentile_formula_witness :
  [10; 20; 30; 40]%float <> [] /\
  percentile [10; 20; 30; 40]%float 0 = Ok 10%float /\
  percentile [10; 20; 30; 40]%float 100 = Ok 40%float /\
  percentile [10; 20; 30; 40]%float 95 = Ok 38.5%float.
Proof.
  assert (Hne : [10; 20; 30; 40]%float <> []) by discriminate.
  destruct (C1_percentile_formula [10; 20; 30; 40]%float 0 Hne) as (H0 & _).
  destruct (C1_percentile_formula [10; 20; 30; 40]%float 100 Hne) as (_ & H100 & _).
  destruct (C1_percentile_formula [10; 20; 30; 40]%float 95 Hne) as (_ & _ & H95 & _ & _).
  split; [exact Hne|]. split; [exact (H0 eq_refl)|]. split; [exact (H100 eq_refl)|].
  rewrite (H95 eq_refl eq_refl). vm_compute. reflexivity.
Defined.

(** C9, as the code has it.  On every list that the allocator accepts and
    for every percentile [p] that is a number (not NaN, negative values and
    values above 100 included), [percentile] returns a result; on the empty
    list that result is 0; and on a non-empty list of length [n] with
    [0 < p < 100] the indices [floor(position)] and [ceil(position)] lie
    within [[0, n-1]]. *)
Theorem C9_percentile_total (sorted : list float) (p : float) :
  allocatable 8 sorted -> IsNaN p = false ->
  (exists v, percentile sorted p = Ok v) /\
  (sorted = [] -> percentile sorted p = Ok 0%float) /\
  (sorted <> [] -> (0 <? p)%float = true -> (p <? 100)%float = true ->
   let position := (p / 100 * float64_of_int (len sorted - 1))%float in
   0 <= int_of_float64 (Floor position) <= len sorted - 1 /\
   0 <= int_of_float64 (Ceil position) <= len sorted - 1).
Proof.
  intros Halloc Hnan. apply allocatable_float64 in Halloc. apply IsNaN_false in Hnan.
  split; [|split].
  - apply percentile_Ok; assumption.
  - intros ->. apply percentile_nil.
  - intros Hne H0 H100. apply percentile_indices; assumption.
Qed.

Lemma C9_percentile_total_witness :
  allocatable 8 [10; 20; 30; 40]%float /\ IsNaN 95 = false /\
  (exists v, percentile [10; 20; 30; 40]%float 95 = Ok v) /\
  0 <= int_of_float64 (Floor (95 / 100 * float64_of_int 3)%float) <= 3 /\
  0 <= int_of_float64 (Ceil (95 / 100 * float64_of_int 3)%float) <= 3.
Proof.
  assert (Ha : allocatable 8 [10; 20; 30; 40]%float) by (vm_compute; discriminate).
  assert (Hn : IsNaN 95 = false) by reflexivity.
  destruct (C9_percentile_total [10; 20; 30; 40]%float 95 Ha Hn) as (Hok & _ & Hidx).
  split; [exact Ha|]. split; [exact Hn|]. split; [exact Hok|].
  apply Hidx; [discriminate|reflexivity|reflexivity].
Defined.

(** C9 as stated fails: on amd64 the conversion of NaN to [int] yields the
    smallest [int64], and [percentile] indexes the slice with it. *)
Lemma C9_counterexample :
  percentile [1]%float nan = Panic (IndexOutOfRange MinInt64 1) /\
  ~ (forall (sorted : list float) (p : float), exists v, percentile sorted p = Ok v).
Proof.
  assert (H : percentile [1]%float nan = Panic (IndexOutOfRange MinInt64 1))
    by (vm_compute; reflexivity).
  split; [exact H|].
  intros Hall. destruct (Hall [1]%float nan) as [v Hv]. rewrite H in Hv. discriminate.
Qed.

(* ================================================================= *)
(** ** [summarize] *)

Lemma wrap64_small z : MinInt64 <= z <= MaxInt64 -> wrap64 z = z.
Proof.
  unfold MinInt64, MaxInt64, wrap64. intros H. rewrite Z.mod_small; lia.
Qed.

Lemma successes_of_nonneg samples : 0 <= successes_of samples.
Proof. unfold successes_of. apply len_nonneg. Qed.

Lemma successes_of_le_len samples : successes_of samples <= len samples.
Proof.
  unfold successes_of, len. apply inj_le, List.filter_length_le.
Qed.

Lemma successes_of_cons s samples :
  successes_of (s :: samples) =
  (match Err s with None => 1 | Some _ => 0 end) + successes_of samples.
Proof.
  unfold successes_of, len. cbn [List.filter]. destruct (Err s); cbn [length]; lia.
Qed.

(** What one pass of the loop of [summarize] does to the fields. *)
Lemma summarize_body_fields st s :
  let st' := summarize_body st s in
  Count st' = Count st /\ Avg st' = Avg st /\ Median st' = Median st /\ P95 st' = P95 st /\
  len (DurationsMs st') =
    len (DurationsMs st) + (match Err s with None => 1 | Some _ => 0 end) /\
  Successes st' =
    match Err s with None => wrap64 (Successes st + 1) | Some _ => Successes st end.
Proof.
  unfold summarize_body. destruct (Err s) as [e|].
  - cbn. repeat split; lia.
  - destruct (Duration s <? Min (set_Successes (wrap64 (Successes st + 1)) st));
    match goal with
    | |- context [if ?c then _ else _] => destruct c
    end; cbn; unfold len; rewrite length_app; cbn [length]; repeat split; lia.
Qed.

(** What the loop of [summarize] leaves in [stats]. *)
Lemma summarize_loop samples : forall st,
  let st' := fold_left summarize_body samples st in
  Count st' = Count st /\ Avg st' = Avg st /\ Median st' = Median st /\ P95 st' = P95 st /\
  len (DurationsMs st') = len (DurationsMs st) + successes_of samples /\
  (0 <= Successes st -> Successes st + successes_of samples <= MaxInt64 ->
   Successes st' = Successes st + successes_of samples).
Proof.
  induction samples as [|s samples IH]; intros st; cbn [fold_left].
  - unfold successes_of, len. cbn. repeat split; lia.
  - specialize (IH (summarize_body st s)). cbv zeta in IH.
    destruct IH as (HC & HA & HM & HP & HD & HS).
    destruct (summarize_body_fields st s) as (BC & BA & BM & BP & BD & BS).
    rewrite successes_of_cons. pose proof (successes_of_nonneg samples) as Hnn.
    rewrite HC, HA, HM, HP, HD, BC, BA, BM, BP, BD.
    split; [reflexivity|]. split; [reflexivity|]. split; [reflexivity|].
    split; [reflexivity|]. split; [lia|].
    intros H0 Hmax. rewrite BS in HS. destruct (Err s) as [e|].
    + apply HS; lia.
    + rewrite wrap64_small in HS by (unfold MinInt64, MaxInt64 in *; lia).
      rewrite HS; lia.
Qed.

(** The loop when no sample succeeded: only [Errors] grows. *)
Lemma summarize_loop_failures samples : forall st,
  (forall s, In s samples -> Err s <> None) ->
  fold_left summarize_body samples st = set_Errors (Errors st ++ map Err samples) st.
Proof.
  induction samples as [|s samples IH]; intros st Hall; cbn [fold_left map].
  - rewrite app_nil_r. destruct st; reflexivity.
  - rewrite IH by (intros s' Hs'; apply Hall; right; exact Hs').
    unfold summarize_body. destruct (Err s) as [e|] eqn:He.
    + destruct st; cbn. rewrite <- app_assoc. reflexivity.
    + exfalso. apply (Hall s); [left; reflexivity | exact He].
Qed.

Lemma length_insert_float64 x l : length (insert_float64 x l) = S (length l).
Proof.
  induction l as [|y l IH]; cbn; [reflexivity|].
  destruct (float64_less y x); cbn; [rewrite IH|]; reflexivity.
Qed.

Lemma length_Float64s l : length (Float64s l) = length l.
Proof.
  induction l as [|x l IH]; cbn; [reflexivity|].
  fold (Float64s l). rewrite length_insert_float64, IH. reflexivity.
Qed.

Lemma allocatable_Sample (samples : list Sample) :
  allocatable 24 samples -> len samples <= 2 ^ 45.
Proof.
  unfold allocatable, maxAlloc. intros H.
  change (2 ^ 48) with 281474976710656 in H.
  change (2 ^ 45) with 35184372088832. lia.
Qed.

(** [summarize] returns, and what it returns in [Count] and [Successes]. *)
Lemma summarize_Ok samples :
  allocatable 24 samples ->
  exists st, summarize samples = Ok st /\
             Count st = len samples /\ Successes st = successes_of samples.
Proof.
  intros Halloc. apply allocatable_Sample in Halloc.
  change (2 ^ 45) with 35184372088832 in Halloc.
  unfold summarize.
  pose proof (summarize_loop samples (mkStats (len samples) 0 MaxInt64 0 0 0 0 [] [])) as H.
  cbv zeta in H. cbn [Count Avg Median P95 Successes DurationsMs] in H.
  set (st := fold_left summarize_body samples _) in *.
  destruct H as (HC & _ & _ & _ & HD & HS).
  pose proof (successes_of_nonneg samples) as Hnn.
  pose proof (successes_of_le_len samples) as Hle.
  rewrite Z.add_0_l in HS. specialize (HS ltac:(lia) ltac:(unfold MaxInt64; lia)).
  destruct (Z.eqb_spec (Successes st) 0) as [E|E].
  - eexists. split; [reflexivity|]. cbn. split; [exact HC | lia].
  - set (ms := Float64s (DurationsMs _)).
    assert (Hms : len ms = successes_of samples).
    { unfold ms, len. rewrite length_Float64s. cbn [DurationsMs set_Avg].
      unfold len in HD. cbn [length] in HD. lia. }
    assert (Hne : ms <> []) by (intros E0; rewrite E0 in Hms; unfold len in Hms; cbn in Hms; lia).
    assert (Hlen : len ms <= 2 ^ 53) by (change (2 ^ 53) with 9007199254740992; lia).
    destruct (percentile_Ok_between ms 50 Hne Hlen eq_refl eq_refl) as [p50 H50].
    destruct (percentile_Ok_between ms 95 Hne Hlen eq_refl eq_refl) as [p95 H95].
    rewrite H50. cbn [mbind result_bind]. rewrite H95. cbn [mbind result_bind].
    eexists. split; [reflexivity|]. cbn. split; [exact HC | exact HS].
Qed.

(** C4. For every sequence of outcomes (every slice that the allocator
    accepts), [summarize] returns statistics whose [Count] is the length of
    the sequence and whose [Successes] is the number of outcomes without
    an error, and [Successes <= Count]. *)
Theorem C4_summarize_counts (samples : list Sample) :
  allocatable 24 samples ->
  exists st, summarize samples = Ok st /\
             Count st = len samples /\
             Successes st = successes_of samples /\
             Successes st <= Count st.
Proof.
  intros Halloc. destruct (summarize_Ok samples Halloc) as (st & Hst & HC & HS).
  exists st. repeat split; try assumption.
  rewrite HC, HS. apply successes_of_le_len.
Qed.

Lemma C4_summarize_counts_witness :
  let samples := [mkSample 10000000 None;
                  mkSample 1500000000 (Some (mkError "*net.DNSError" "i/o timeout"));
                  mkSample 20000000 None] in
  allocatable 24 samples /\
  exists st, summarize samples = Ok st /\ Count st = 3 /\ Successes st = 2 /\
             Successes st <= Count st.
Proof.
  intros samples.
  assert (Ha : allocatable 24 samples) by (vm_compute; discriminate).
  split; [exact Ha|].
  destruct (C4_summarize_counts samples Ha) as (st & Hst & HC & HS & Hle).
  exists st. split; [exact Hst|]. split; [exact HC|]. split; [exact HS | exact Hle].
Defined.

(** C3. When no outcome succeeds (every outcome carries an error),
    [summarize] returns normally and reports min, max, avg, median and p95
    as zero: the statistics are the zero value but for [Count] and
    [Errors], nothing is divided and [percentile] is never called. *)
Theorem C3_summarize_no_success (samples : list Sample) :
  (forall s, In s samples -> Err s <> None) ->
  summarize samples = Ok (mkStats (len samples) 0 0 0 0 0 0 (map Err samples) []) /\
  exists st, summarize samples = Ok st /\
             Min st = 0 /\ Max st = 0 /\ Avg st = 0 /\ Median st = 0 /\ P95 st = 0.
Proof.
  intros Hall.
  assert (H : summarize samples = Ok (mkStats (len samples) 0 0 0 0 0 0 (map Err samples) [])).
  { unfold summarize. rewrite summarize_loop_failures by exact Hall. reflexivity. }
  split; [exact H|]. eexists. split; [exact H|]. cbn. repeat split.
Qed.

Lemma C3_summarize_no_success_witness :
  let e := Some (mkError "*net.DNSError" "i/o timeout") in
  let samples := [mkSample 1500000000 e; mkSample 1500000001 e] in
  (forall s, In s samples -> Err s <> None) /\
  summarize samples = Ok (mkStats 2 0 0 0 0 0 0 [e; e] []).
Proof.
  intros e samples.
  assert (Hall : forall s, In s samples -> Err s <> None).
  { intros s [<-|[<-|[]]]; discriminate. }
  split; [exact Hall|]. exact (proj1 (C3_summarize_no_success samples Hall)).
Defined.

(* ================================================================= *)
(** ** [uniqueErrors] *)

Lemma messages_app l1 l2 : messages (l1 ++ l2) = messages l1 ++ messages l2.
Proof. unfold messages. apply omap_app. Qed.

Lemma In_distinct_in_order x l : In x (distinct_in_order l) <-> In x l.
Proof.
  induction l as [|a l IH]; cbn [distinct_in_order]; [reflexivity|].
  cbn [In]. rewrite List.filter_In, IH. split.
  - intros [H|[H _]]; [left|right]; assumption.
  - intros [H|H]; [left; assumption|].
    destruct (String.eqb_spec x a) as [->|Hne]; [left; reflexivity|].
    right. split; [assumption|reflexivity].
Qed.

Lemma NoDup_distinct_in_order l : List.NoDup (distinct_in_order l).
Proof.
  induction l as [|a l IH]; cbn [distinct_in_order]; constructor.
  - rewrite List.filter_In. intros [_ H].
    rewrite String.eqb_refl in H. discriminate.
  - apply List.NoDup_filter. exact IH.
Qed.

(** Appending a message to the input appends it to the distinct messages
    exactly when it is new. *)
Lemma distinct_in_order_snoc x l :
  distinct_in_order (l ++ [x]) =
  if in_dec String.string_dec x l then distinct_in_order l else distinct_in_order l ++ [x].
Proof.
  induction l as [|a l IH]; cbn [app distinct_in_order].
  - destruct (in_dec String.string_dec x []) as [[]|_]. reflexivity.
  - rewrite IH. destruct (in_dec String.string_dec x l) as [Hin|Hnin].
    + destruct (in_dec String.string_dec x (a :: l)) as [_|Hn]; [reflexivity|].
      exfalso. apply Hn. right. exact Hin.
    + rewrite List.filter_app. cbn [List.filter].
      destruct (String.eqb_spec x a) as [->|Hne]; cbn [negb].
      * destruct (in_dec String.string_dec a (a :: l)) as [_|Hn];
          [rewrite app_nil_r; reflexivity|].
        exfalso. apply Hn. left. reflexivity.
      * destruct (in_dec String.string_dec x (a :: l)) as [[E|Hin]|_]; [congruence|contradiction|reflexivity].
Qed.

(** The invariant of the loop of [uniqueErrors]: [seen] holds the messages
    read so far and [out] their first occurrences. *)
Lemma uniqueErrors_loop errs : forall (seen : gmap string bool) (out : list error) (pre : list string),
  (forall k, default false (seen !! k) = true <-> In k pre) ->
  messages out = distinct_in_order pre ->
  (forall e, In e out -> e <> None) ->
  let st := fold_left uniqueErrors_body errs (seen, out) in
  messages st.2 = distinct_in_order (pre ++ messages errs) /\
  (forall e, In e st.2 -> e <> None).
Proof.
  induction errs as [|e errs IH]; intros seen out pre Hseen Hout Hnn; cbn [fold_left].
  - cbn. rewrite app_nil_r. split; assumption.
  - destruct e as [v|]; cbn [uniqueErrors_body fst snd].
    + change (messages (Some v :: errs)) with (Error v :: messages errs).
      change (pre ++ Error v :: messages errs) with (pre ++ [Error v] ++ messages errs).
      rewrite app_assoc.
      destruct (default false (seen !! Error v)) eqn:Hs; cbn [negb].
      * apply IH; [| |exact Hnn].
        -- intros k. rewrite Hseen, in_app_iff. cbn [In]. split; [tauto|].
           intros [H|[<-|[]]]; [exact H|]. apply Hseen. exact Hs.
        -- rewrite distinct_in_order_snoc.
           destruct (in_dec String.string_dec (Error v) pre) as [_|Hn]; [exact Hout|].
           exfalso. apply Hn, Hseen. exact Hs.
      * apply IH.
        -- intros k. rewrite in_app_iff. cbn [In].
           destruct (String.eqb_spec (Error v) k) as [<-|Hne].
           ++ rewrite lookup_insert_eq. cbn. tauto.
           ++ rewrite lookup_insert_ne by exact Hne. rewrite Hseen. tauto.
        -- rewrite messages_app, Hout, distinct_in_order_snoc.
           destruct (in_dec String.string_dec (Error v) pre) as [Hin|_]; [|reflexivity].
           apply Hseen in Hin. congruence.
        -- intros e He. apply in_app_iff in He. destruct He as [He|[<-|[]]];
             [apply Hnn; exact He | discriminate].
    + apply IH; assumption.
Qed.

(** The loop only ever appends elements of its input, in their order. *)
Lemma uniqueErrors_sublist errs : forall (seen : gmap string bool) (out : list error),
  sublist (fold_left uniqueErrors_body errs (seen, out)).2 (out ++ errs).
Proof.
  induction errs as [|e errs IH]; intros seen out; cbn [fold_left].
  - cbn. rewrite app_nil_r. reflexivity.
  - destruct e as [v|]; cbn [uniqueErrors_body fst snd].
    + destruct (negb (default false (seen !! Error v))).
      * change (out ++ Some v :: errs) with (out ++ [Some v] ++ errs).
        rewrite app_assoc. apply IH.
      * etransitivity; [apply IH|].
        apply sublist_app; [reflexivity|]. apply sublist_cons. reflexivity.
    + etransitivity; [apply IH|].
      apply sublist_app; [reflexivity|]. apply sublist_cons. reflexivity.
Qed.

(** C7. The distinct errors reported for a sequence of failures are the
    unique error messages among them: each message once, in the order of
    first occurrence.  The errors reported are elements of the input, none
    of them nil. *)
Theorem C7_uniqueErrors_distinct (errs : list error) :
  messages (uniqueErrors errs) = distinct_in_order (messages errs) /\
  List.NoDup (messages (uniqueErrors errs)) /\
  (forall m, In m (messages (uniqueErrors errs)) <-> In m (messages errs)) /\
  (forall e, In e (uniqueErrors errs) -> e <> None) /\
  sublist (uniqueErrors errs) errs.
Proof.
  unfold uniqueErrors.
  destruct (uniqueErrors_loop errs ∅ [] []) as [Hm Hnn].
  - intros k. rewrite lookup_empty. cbn. split; [discriminate|tauto].
  - reflexivity.
  - intros e [].
  - cbn [app] in Hm. cbv zeta in Hm, Hnn. rewrite Hm.
    split; [reflexivity|]. split; [apply NoDup_distinct_in_order|].
    split; [intros m; apply In_distinct_in_order|]. split; [exact Hnn|].
    exact (uniqueErrors_sublist errs ∅ []).
Qed.

Lemma uniqueErrors_same_message (e1 e2 : errorValue) :
  Error e1 = Error e2 -> uniqueErrors [Some e1; Some e2] = [Some e1].
Proof.
  intros H. unfold uniqueErrors. cbn [fold_left uniqueErrors_body fst snd].
  rewrite lookup_empty. cbn [default negb app fst snd].
  rewrite <- H, lookup_insert_eq. reflexivity.
Qed.

Lemma uniqueErrors_two_messages (e1 e2 : errorValue) :
  Error e1 <> Error e2 -> uniqueErrors [Some e1; Some e2] = [Some e1; Some e2].
Proof.
  intros H. unfold uniqueErrors. cbn [fold_left uniqueErrors_body fst snd].
  rewrite lookup_empty. cbn [default negb app fst snd].
  rewrite lookup_insert_ne by exact H. rewrite lookup_empty. reflexivity.
Qed.

(** C2. On the outcomes [success 10ms, failure, success 20ms, failure],
    the two failures carrying one error message, [summarize] yields count
    4, two successes, min 10ms, max 20ms, avg 15ms (success rate 50%) and
    one distinct error; on five successes of 10, 20, 30, 40 and 50ms it
    yields min 10ms, max 50ms, avg 30ms, median 30ms and success rate
    100%. *)
Theorem C2_summarize_scenarios (e1 e2 : errorValue) (d1 d2 : Duration_t) :
  Error e1 = Error e2 ->
  (exists st,
     summarize [mkSample (10 * Millisecond) None; mkSample d1 (Some e1);
                mkSample (20 * Millisecond) None; mkSample d2 (Some e2)] = Ok st /\
     Count st = 4 /\ Successes st = 2 /\
     Min st = 10 * Millisecond /\ Max st = 20 * Millisecond /\
     Avg st = 15 * Millisecond /\ successPct st = 50%float /\
     length (uniqueErrors (Errors st)) = 1%nat) /\
  (exists st,
     summarize (map (fun ms => mkSample (ms * Millisecond) None) [10; 20; 30; 40; 50]) = Ok st /\
     Count st = 5 /\ Successes st = 5 /\
     Min st = 10 * Millisecond /\ Max st = 50 * Millisecond /\
     Avg st = 30 * Millisecond /\ Median st = 30 * Millisecond /\
     successPct st = 100%float).
Proof.
  intros He. split.
  - exists (mkStats 4 2 10000000 20000000 15000000 15000000 19500000
                    [Some e1; Some e2] [10; 20]%float).
    split; [vm_compute; reflexivity|].
    cbn [Count Successes Min Max Avg Errors].
    rewrite (uniqueErrors_same_message e1 e2 He).
    repeat split.
  - exists (mkStats 5 5 10000000 50000000 30000000 30000000 48000000
                    [] [10; 20; 30; 40; 50]%float).
    split; [vm_compute; reflexivity|]. repeat split.
Qed.

Lemma C2_summarize_scenarios_witness :
  let e := mkError "*net.DNSError" "lookup example.com: i/o timeout" in
  Error e = Error e /\
  exists st,
    summarize [mkSample (10 * Millisecond) None; mkSample 1500000000 (Some e);
               mkSample (20 * Millisecond) None; mkSample 1500000000 (Some e)] = Ok st /\
    Count st = 4 /\ Successes st = 2 /\ Avg st = 15 * Millisecond /\
    length (uniqueErrors (Errors st)) = 1%nat.
Proof.
  intros e. split; [reflexivity|].
  destruct (C2_summarize_scenarios e e 1500000000 1500000000 eq_refl)
    as [(st & Hst & HC & HS & _ & _ & HA & _ & HU) _].
  exists st. repeat split; assumption.
Defined.

(* ================================================================= *)
(** ** [durFmt] *)

Lemma append_ms_not_placeholder (s : string) : s +:+ "ms" <> "--".
Proof.
  destruct s as [|a [|b [|c s]]]; cbn; discriminate.
Qed.

(** C10. [durFmt] renders the placeholder ["--"] exactly when the duration
    is at most zero.  So a measured statistic of zero duration is shown as
    the statistics of a resolver without successes are: the report of one
    success that took 0ns and the report of one failure print the same
    five columns. *)
Theorem C10_durFmt_placeholder :
  (forall d : Duration_t, durFmt d = "--" <-> d <= 0) /\
  (forall (e : errorValue) (d : Duration_t),
     exists measured unavailable,
       summarize [mkSample 0 None] = Ok measured /\
       summarize [mkSample d (Some e)] = Ok unavailable /\
       Successes measured = 1 /\ Successes unavailable = 0 /\
       map durFmt [Min measured; Avg measured; Median measured; P95 measured; Max measured]
       = ["--"; "--"; "--"; "--"; "--"] /\
       map durFmt [Min unavailable; Avg unavailable; Median unavailable;
                   P95 unavailable; Max unavailable]
       = ["--"; "--"; "--"; "--"; "--"]).
Proof.
  split.
  - intros d. unfold durFmt. destruct (Z.leb_spec d 0) as [Hle|Hgt].
    + split; [intros _; exact Hle | reflexivity].
    + split; [|lia]. intros H. exfalso. exact (append_ms_not_placeholder _ H).
  - intros e d. eexists. eexists.
    split; [vm_compute; reflexivity|]. split; [vm_compute; reflexivity|].
    repeat split.
Qed.

(* ================================================================= *)
(** ** [parseResolvers] *)

Lemma prefix_byte (c a : ascii) (s : string) :
  String.prefix (String c "") (String a s) = Ascii.eqb a c.
Proof.
  cbn. destruct (ascii_dec c a) as [->|Hne].
  - rewrite Ascii.eqb_refl. destruct s; reflexivity.
  - symmetry. apply Ascii.eqb_neq. congruence.
Qed.

(** [strings.Index] with a one-byte separator finds the first occurrence,
    as [cut_first] does. *)
Lemma Index_cut_first (c : ascii) (s : string) :
  match Index s (String c "") with
  | Some m => cut_first c s = Some (slice_to m s, slice_from (m + 1) s)
  | None => cut_first c s = None
  end.
Proof.
  induction s as [|a s IH].
  - reflexivity.
  - cbn [Index]. rewrite prefix_byte. cbn [cut_first].
    destruct (Ascii.eqb a c); [reflexivity|].
    destruct (Index s (String c "")) as [m|]; cbn [option_map]; rewrite IH; reflexivity.
Qed.

Lemma cut_first_shorter (c : ascii) (s before after : string) :
  cut_first c s = Some (before, after) -> (String.length after < String.length s)%nat.
Proof.
  revert before after. induction s as [|a s IH]; intros before after; cbn [cut_first].
  - discriminate.
  - destruct (Ascii.eqb a c).
    + intros [= <- <-]. cbn. lia.
    + destruct (cut_first c s) as [[b' a']|]; [|discriminate].
      intros [= <- <-]. specialize (IH _ _ eq_refl). cbn. lia.
Qed.

Lemma split_on_cut_first (c : ascii) (s : string) :
  split_on c s =
  match cut_first c s with
  | Some (before, after) => before :: split_on c after
  | None => [s]
  end.
Proof.
  induction s as [|a s IH]; cbn [split_on cut_first]; [reflexivity|].
  destruct (Ascii.eqb a c); [reflexivity|].
  rewrite IH. destruct (cut_first c s) as [[before after]|]; reflexivity.
Qed.

Lemma Count_loop_le (c : ascii) (fuel : nat) : forall s,
  (String.length s <= fuel)%nat ->
  (Count_loop fuel s (String c "") <= String.length s)%nat.
Proof.
  induction fuel as [|fuel IH]; intros s Hs; cbn [Count_loop]; [lia|].
  pose proof (Index_cut_first c s) as Hi.
  destruct (Index s (String c "")) as [m|]; [|lia].
  apply cut_first_shorter in Hi. cbn [String.length] in *.
  specialize (IH (slice_from (m + 1) s) ltac:(lia)). lia.
Qed.

(** [Count] allows [genSplit] exactly the cuts that the commas need. *)
Lemma genSplit_loop_Count (c : ascii) (fuel : nat) : forall s,
  (String.length s <= fuel)%nat ->
  genSplit_loop (String c "") (Count_loop fuel s (String c "")) s = split_on c s.
Proof.
  induction fuel as [|fuel IH]; intros s Hs.
  - destruct s; [reflexivity|cbn in Hs; lia].
  - cbn [Count_loop]. rewrite (split_on_cut_first c s).
    pose proof (Index_cut_first c s) as Hi.
    destruct (Index s (String c "")) as [m|] eqn:Em.
    + cbn [genSplit_loop]. rewrite Em, Hi. f_equal.
      apply IH. apply cut_first_shorter in Hi. cbn [String.length] in *. lia.
    + cbn [genSplit_loop]. rewrite Hi. reflexivity.
Qed.

Lemma Split_split_on (c : ascii) (s : string) :
  Split s (String c "") = split_on c s.
Proof.
  unfold Split, genSplit, GoStrings.Count. cbn [Z.eqb Z.ltb Z.compare].
  pose proof (Count_loop_le c (String.length s) s (Nat.le_refl _)) as Hle.
  destruct (Z.ltb_spec (Z.of_nat (String.length s) + 1)
              (Z.of_nat (Count_loop (String.length s) s (String c "")) + 1)); [lia|].
  replace (Z.to_nat (Z.of_nat (Count_loop (String.length s) s (String c "")) + 1 - 1))
    with (Count_loop (String.length s) s (String c "")) by lia.
  apply genSplit_loop_Count. lia.
Qed.

Lemma SplitN_2_cut_first (c : ascii) (p : string) :
  p <> "" ->
  SplitN p (String c "") 2 =
  match cut_first c p with
  | Some (k, v) => [k; v]
  | None => [p]
  end.
Proof.
  intros Hp. unfold SplitN, genSplit. cbn [Z.eqb Z.ltb Z.compare].
  assert (Hlen : (0 < String.length p)%nat) by (destruct p; [contradiction|cbn; lia]).
  destruct (Z.ltb_spec (Z.of_nat (String.length p) + 1) 2); [lia|].
  change (Z.to_nat (2 - 1)) with 1%nat. cbn [genSplit_loop].
  pose proof (Index_cut_first c p) as Hi.
  destruct (Index p (String c "")) as [m|]; rewrite Hi; reflexivity.
Qed.

Lemma parseResolvers_body_segment (out : list ResolverCfg) (p : string) :
  parseResolvers_body out p = out ++ parse_segment p.
Proof.
  unfold parseResolvers_body, parse_segment.
  destruct (String.eqb_spec (TrimSpace p) "") as [E|Hne]; [rewrite app_nil_r; reflexivity|].
  change "=" with (String "=" "") at 1. rewrite (SplitN_2_cut_first "=" _ Hne).
  destruct (cut_first "=" (TrimSpace p)) as [[k v]|]; [reflexivity|].
  rewrite app_nil_r. reflexivity.
Qed.

Lemma parseResolvers_loop (parts : list string) : forall out,
  fold_left parseResolvers_body parts out = out ++ flat_map parse_segment parts.
Proof.
  induction parts as [|p parts IH]; intros out; cbn [fold_left flat_map].
  - rewrite app_nil_r. reflexivity.
  - rewrite IH, parseResolvers_body_segment, <- app_assoc. reflexivity.
Qed.

(** [+:+] is [String.append]. *)
Lemma append_nil (s : string) : "" +:+ s = s.
Proof. reflexivity. Qed.

Lemma append_cons (c : ascii) (a b : string) : String c a +:+ b = String c (a +:+ b).
Proof. reflexivity. Qed.

Lemma append_nil_r (s : string) : s +:+ "" = s.
Proof.
  induction s as [|c s IH]; [reflexivity|]. rewrite append_cons, IH. reflexivity.
Qed.

Lemma append_assoc (a b c : string) : (a +:+ b) +:+ c = a +:+ (b +:+ c).
Proof.
  induction a as [|x a IH]; [reflexivity|]. rewrite !append_cons, IH. reflexivity.
Qed.


(** *** [strings.TrimSpace] trims *)

Lemma length_string_append (a b : string) :
  String.length (a +:+ b) = (String.length a + String.length b)%nat.
Proof.
  induction a as [|x a IH]; [reflexivity|].
  rewrite append_cons. cbn [String.length]. rewrite IH. reflexivity.
Qed.

Lemma append_eq_nil (a b : string) : a +:+ b = "" -> a = "" /\ b = "".
Proof.
  destruct a as [|x a]; [rewrite append_nil; intros ->; split; reflexivity|].
  rewrite append_cons. discriminate.
Qed.

Lemma space_runes_nonempty (w : string) : In w space_runes -> w <> "".
Proof.
  unfold space_runes, unicodeSpace. cbn [map app In].
  intros H. repeat (destruct H as [<-|H]; [discriminate|]). destruct H.
Qed.

Lemma asciiSpace_space_runes (c : ascii) :
  asciiSpace c = true <-> In (String c "") (map (fun n => bytes [n]) [9; 10; 11; 12; 13; 32]%nat).
Proof.
  split.
  - destruct c as [[] [] [] [] [] [] [] []]; intros H; try discriminate H;
      cbn [map In bytes]; unfold byte; cbn; tauto.
  - cbn [map In bytes]. unfold byte.
    intros H. repeat (destruct H as [H|H]; [injection H as <-; reflexivity|]). destruct H.
Qed.

Lemma prefix_true (w : string) : forall s,
  String.prefix w s = true -> s = w +:+ slice_from (String.length w) s.
Proof.
  induction w as [|a w IH]; intros s H.
  - destruct s; reflexivity.
  - destruct s as [|b s]; [discriminate|]. cbn [String.prefix] in H.
    destruct (ascii_dec a b) as [->|]; [|discriminate].
    rewrite append_cons. cbn [String.length slice_from]. rewrite <- (IH s H). reflexivity.
Qed.

Lemma prefix_append (w u : string) : String.prefix w (w +:+ u) = true.
Proof.
  induction w as [|a w IH]; [rewrite append_nil; destruct u; reflexivity|].
  rewrite append_cons. cbn [String.prefix].
  destruct (ascii_dec a a); [exact IH | contradiction].
Qed.

Lemma slice_from_append (a b : string) : slice_from (String.length a) (a +:+ b) = b.
Proof.
  induction a as [|x a IH]; [destruct b; reflexivity|].
  rewrite append_cons. exact IH.
Qed.

Lemma slice_to_append (a b : string) : slice_to (String.length a) (a +:+ b) = a.
Proof.
  induction a as [|x a IH]; [destruct b; reflexivity|].
  rewrite append_cons. cbn [String.length slice_to]. rewrite IH. reflexivity.
Qed.

Lemma slice_to_from (k : nat) : forall s, s = slice_to k s +:+ slice_from k s.
Proof.
  induction k as [|k IH]; intros s; [destruct s; reflexivity|].
  destruct s as [|c s]; [reflexivity|].
  cbn [slice_to slice_from]. rewrite append_cons, <- IH. reflexivity.
Qed.

Lemma length_slice_to (k : nat) : forall s,
  (k <= String.length s)%nat -> String.length (slice_to k s) = k.
Proof.
  induction k as [|k IH]; intros s H; [destruct s; reflexivity|].
  destruct s as [|c s]; [cbn in H; lia|].
  cbn [slice_to String.length] in *. rewrite IH by lia. reflexivity.
Qed.

(** What [leadingSpace] finds is a white-space rune that [s] starts with,
    and it finds one if there is one. *)
Lemma leadingSpace_Some (s : string) (n : nat) :
  leadingSpace s = Some n ->
  exists w, In w space_runes /\ String.length w = n /\ s = w +:+ slice_from n s.
Proof.
  destruct s as [|c s]; [discriminate|]. unfold leadingSpace.
  destruct (asciiSpace c) eqn:Hc.
  - intros [= <-]. exists (String c ""). split; [|split; reflexivity].
    unfold space_runes. apply in_or_app. left. apply asciiSpace_space_runes, Hc.
  - destruct (find (fun w => String.prefix w (String c s)) unicodeSpace) as [w|] eqn:F;
      [|discriminate].
    intros [= <-]. apply find_some in F. destruct F as [Hin Hp].
    exists w. split; [unfold space_runes; apply in_or_app; right; exact Hin|].
    split; [reflexivity | apply prefix_true, Hp].
Qed.

Lemma leadingSpace_None (s : string) :
  leadingSpace s = None -> forall w, In w space_runes -> ~ starts_with s w.
Proof.
  intros H w Hin [u Hu]. pose proof (space_runes_nonempty w Hin) as Hne.
  destruct s as [|c s].
  - symmetry in Hu. apply append_eq_nil in Hu. destruct Hu as [-> _]. contradiction.
  - unfold leadingSpace in H. destruct (asciiSpace c) eqn:Hc; [discriminate|].
    unfold space_runes in Hin. apply in_app_or in Hin. destruct Hin as [Hin|Hin].
    + destruct w as [|a w]; [contradiction|]. rewrite append_cons in Hu. injection Hu as -> _.
      assert (Hw : w = "").
      { clear -Hin. cbn [map In bytes] in Hin.
        repeat (destruct Hin as [Hin|Hin]; [injection Hin as _ <-; reflexivity|]).
        destruct Hin. }
      subst w. apply asciiSpace_space_runes in Hin. congruence.
    + destruct (find (fun w => String.prefix w (String c s)) unicodeSpace) as [w'|] eqn:F;
        [discriminate|].
      pose proof (find_none _ _ F w Hin) as Hp. cbv beta in Hp.
      rewrite Hu, prefix_append in Hp. discriminate.
Qed.

Lemma TrimLeft_loop_trims (fuel : nat) : forall s,
  (String.length s <= fuel)%nat ->
  exists l, white l /\ s = l +:+ TrimLeft_loop fuel s /\
            forall w, In w space_runes -> ~ starts_with (TrimLeft_loop fuel s) w.
Proof.
  induction fuel as [|fuel IH]; intros s Hlen; cbn [TrimLeft_loop].
  - exists "". split; [constructor|]. split; [reflexivity|].
    destruct s; [|cbn in Hlen; lia].
    intros w Hin [u Hu]. symmetry in Hu. apply append_eq_nil in Hu.
    apply (space_runes_nonempty w Hin), Hu.
  - destruct (leadingSpace s) as [n|] eqn:Hl.
    + destruct (leadingSpace_Some s n Hl) as (w & Hin & Hn & Hs).
      assert (Hw : (0 < String.length w)%nat).
      { pose proof (space_runes_nonempty w Hin). destruct w; [contradiction|cbn; lia]. }
      assert (Hrest : (String.length (slice_from n s) <= fuel)%nat).
      { pose proof (f_equal String.length Hs) as E. rewrite length_string_append in E. lia. }
      destruct (IH _ Hrest) as (l & Hwl & Hsl & Hfree).
      exists (w +:+ l). split; [constructor; assumption|]. split; [|exact Hfree].
      rewrite append_assoc, <- Hsl. exact Hs.
    + exists "". split; [constructor|]. split; [reflexivity|].
      apply leadingSpace_None, Hl.
Qed.

Lemma HasSuffix_ends_with (s w : string) : HasSuffix s w = true <-> ends_with s w.
Proof.
  unfold HasSuffix, ends_with. split.
  - intros H. apply andb_true_iff in H. destruct H as [_ H]. apply String.eqb_eq in H.
    exists (slice_to (String.length s - String.length w) s).
    rewrite <- H at 2. apply slice_to_from.
  - intros [u ->]. rewrite length_string_append. apply andb_true_iff. split.
    + apply Nat.leb_le. lia.
    + replace (String.length u + String.length w - String.length w)%nat
        with (String.length u) by lia.
      rewrite slice_from_append. apply String.eqb_refl.
Qed.

Lemma get_last (u : string) (c : ascii) :
  String.get (String.length (u +:+ String c "") - 1) (u +:+ String c "") = Some c.
Proof.
  rewrite length_string_append. cbn [String.length].
  replace (String.length u + 1 - 1)%nat with (0 + String.length u)%nat by lia.
  rewrite <- append_correct2. reflexivity.
Qed.

Lemma get_last_inv (s : string) (c : ascii) :
  String.get (String.length s - 1) s = Some c ->
  s = slice_to (String.length s - 1) s +:+ String c "".
Proof.
  intros H.
  assert (Hne : (0 < String.length s)%nat) by (destruct s; [discriminate|cbn; lia]).
  pose proof (slice_to_from (String.length s - 1) s) as E.
  pose proof (f_equal String.length E) as EL.
  rewrite length_string_append, length_slice_to in EL by lia.
  destruct (slice_from (String.length s - 1) s) as [|a [|b r]] eqn:Hr;
    cbn [String.length] in EL; try lia.
  rewrite E in H at 2. 
  replace (String.length s - 1)%nat
    with (0 + String.length (slice_to (String.length s - 1) s))%nat in H at 1
    by (rewrite length_slice_to; lia).
  rewrite <- append_correct2 in H. cbn [String.get] in H. injection H as ->.
  exact E.
Qed.

Lemma get_last_None (s : string) : String.get (String.length s - 1) s = None -> s = "".
Proof.
  intros H. destruct s as [|c s]; [reflexivity|]. exfalso.
  pose proof (slice_to_from (String.length (String c s) - 1) (String c s)) as E.
  pose proof (f_equal String.length E) as EL.
  rewrite length_string_append, length_slice_to in EL by lia.
  destruct (slice_from (String.length (String c s) - 1) (String c s)) as [|a r] eqn:Hr;
    [cbn [String.length] in EL; lia|].
  rewrite E in H at 2.
  replace (String.length (String c s) - 1)%nat
    with (0 + String.length (slice_to (String.length (String c s) - 1) (String c s)))%nat
    in H at 1 by (rewrite length_slice_to; lia).
  rewrite <- append_correct2 in H. discriminate.
Qed.

(** What [trailingSpace] finds is a white-space rune that [s] ends with,
    and it finds one if there is one. *)
Lemma trailingSpace_Some (s : string) (n : nat) :
  trailingSpace s = Some n ->
  exists w, In w space_runes /\ s = slice_to (String.length s - n) s +:+ w.
Proof.
  unfold trailingSpace.
  destruct (String.get (String.length s - 1) s) as [c|] eqn:Hg; [|discriminate].
  destruct (asciiSpace c) eqn:Hc.
  - intros [= <-]. exists (String c ""). split; [|apply get_last_inv, Hg].
    unfold space_runes. apply in_or_app. left. apply asciiSpace_space_runes, Hc.
  - destruct (find (fun w => HasSuffix s w) unicodeSpace) as [w|] eqn:F; [|discriminate].
    intros [= <-]. apply find_some in F. destruct F as [Hin Hp].
    exists w. split; [unfold space_runes; apply in_or_app; right; exact Hin|].
    apply HasSuffix_ends_with in Hp. destruct Hp as [u Hu].
    clear Hg. subst s. rewrite length_string_append.
    replace (String.length u + String.length w - String.length w)%nat
      with (String.length u) by lia.
    rewrite slice_to_append. reflexivity.
Qed.

Lemma trailingSpace_None (s : string) :
  trailingSpace s = None -> forall w, In w space_runes -> ~ ends_with s w.
Proof.
  intros H w Hin [u Hu]. pose proof (space_runes_nonempty w Hin) as Hne.
  unfold trailingSpace in H.
  destruct (String.get (String.length s - 1) s) as [c|] eqn:Hg.
  - destruct (asciiSpace c) eqn:Hc; [discriminate|].
    unfold space_runes in Hin. apply in_app_or in Hin. destruct Hin as [Hin|Hin].
    + destruct w as [|a w]; [contradiction|].
      assert (Hw : w = "").
      { clear -Hin. cbn [map In bytes] in Hin.
        repeat (destruct Hin as [Hin|Hin]; [injection Hin as _ <-; reflexivity|]).
        destruct Hin. }
      subst w. apply asciiSpace_space_runes in Hin.
      rewrite Hu, get_last in Hg. injection Hg as ->. congruence.
    + destruct (find (fun w => HasSuffix s w) unicodeSpace) as [w'|] eqn:F; [discriminate|].
      pose proof (find_none _ _ F w Hin) as Hp. cbv beta in Hp.
      assert (Hs : HasSuffix s w = true) by (apply HasSuffix_ends_with; exists u; exact Hu).
      congruence.
  - apply get_last_None in Hg. subst s. symmetry in Hu.
    apply append_eq_nil in Hu. apply Hne, Hu.
Qed.

Lemma white_app (a b : string) : white a -> white b -> white (a +:+ b).
Proof.
  induction 1 as [|w l Hin _ IH]; intros Hb; [exact Hb|].
  rewrite append_assoc. constructor; [exact Hin | exact (IH Hb)].
Qed.

Lemma TrimRight_loop_trims (fuel : nat) : forall s,
  (String.length s <= fuel)%nat ->
  exists r, white r /\ s = TrimRight_loop fuel s +:+ r /\
            forall w, In w space_runes -> ~ ends_with (TrimRight_loop fuel s) w.
Proof.
  induction fuel as [|fuel IH]; intros s Hlen; cbn [TrimRight_loop].
  - exists "". split; [constructor|]. split; [rewrite append_nil_r; reflexivity|].
    destruct s; [|cbn in Hlen; lia].
    intros w Hin [u Hu]. symmetry in Hu. apply append_eq_nil in Hu.
    apply (space_runes_nonempty w Hin), Hu.
  - destruct (trailingSpace s) as [n|] eqn:Ht.
    + destruct (trailingSpace_Some s n Ht) as (w & Hin & Hs).
      assert (Hw : (0 < String.length w)%nat).
      { pose proof (space_runes_nonempty w Hin). destruct w; [contradiction|cbn; lia]. }
      assert (Hrest : (String.length (slice_to (String.length s - n) s) <= fuel)%nat).
      { pose proof (f_equal String.length Hs) as E. rewrite length_string_append in E. lia. }
      destruct (IH _ Hrest) as (r & Hwr & Hsr & Hfree).
      exists (r +:+ w). split.
      * apply white_app; [exact Hwr|].
        rewrite <- (append_nil_r w). constructor; [exact Hin | constructor].
      * split; [|exact Hfree]. rewrite <- append_assoc, <- Hsr. exact Hs.
    + exists "". split; [constructor|]. split; [rewrite append_nil_r; reflexivity|].
      apply trailingSpace_None, Ht.
Qed.

(** [strings.TrimSpace] returns its argument without the white space in
    front and behind. *)
Lemma TrimSpace_trimmed_of (s : string) : trimmed_of s (TrimSpace s).
Proof.
  unfold TrimSpace, trimmed_of.
  destruct (TrimLeft_loop_trims (String.length s) s (Nat.le_refl _))
    as (l & Hl & Hs & Hstart).
  set (t1 := TrimLeft_loop (String.length s) s) in *.
  destruct (TrimRight_loop_trims (String.length t1) t1 (Nat.le_refl _))
    as (r & Hr & Ht & Hend).
  set (t := TrimRight_loop (String.length t1) t1) in *.
  split; [|split].
  - exists l, r. split; [rewrite <- Ht; exact Hs|]. split; assumption.
  - intros w Hin [u Hu]. apply (Hstart w Hin). exists (u +:+ r).
    rewrite Ht, Hu, append_assoc. reflexivity.
  - exact Hend.
Qed.

(** *** Trimming is determined: a string is trimmed in one way only *)

Lemma append_split (a : string) : forall b c d : string,
  a +:+ b = c +:+ d ->
  (exists e, a = c +:+ e /\ d = e +:+ b) \/ (exists e, c = a +:+ e /\ b = e +:+ d).
Proof.
  induction a as [|x a IH]; intros b c d H.
  - right. exists c. split; [reflexivity | exact H].
  - destruct c as [|y c].
    + left. exists (String x a). split; [reflexivity | symmetry; exact H].
    + rewrite !append_cons in H. injection H as -> H.
      destruct (IH b c d H) as [(e & -> & ->)|(e & -> & ->)].
      * left. exists e. split; reflexivity.
      * right. exists e. split; reflexivity.
Qed.

Lemma space_runes_bytes (w : string) :
  In w space_runes ->
  exists c z, w = String c z /\ leadByte c = true /\
              all_bytes (fun b => negb (leadByte b)) z = true.
Proof.
  unfold space_runes, unicodeSpace. cbn [map app In].
  intros H.
  repeat (destruct H as [<-|H]; [eexists; eexists; split; [reflexivity|]; split; reflexivity|]).
  destruct H.
Qed.

Lemma space_runes_prefix_free (w w' z z' : string) :
  In w space_runes -> In w' space_runes -> w +:+ z = w' +:+ z' -> w = w' /\ z = z'.
Proof.
  intros Hw Hw' H.
  assert (E : w = w').
  { revert Hw Hw' H. unfold space_runes, unicodeSpace. cbn [map app In].
    intros Hw Hw'.
    repeat (destruct Hw as [<-|Hw]; [|]); try (destruct Hw);
      repeat (destruct Hw' as [<-|Hw']; [|]); try (destruct Hw');
      intros H; try reflexivity; exfalso; cbv in H; discriminate H. }
  subst w'. split; [reflexivity|]. exact (String.app_inj w _ _ H).
Qed.

Lemma white_inv (s : string) :
  white s -> s = "" \/ exists w l, In w space_runes /\ white l /\ s = w +:+ l.
Proof.
  intros [|w l Hin Hl]; [left; reflexivity|].
  right. exists w, l. split; [exact Hin|]. split; [exact Hl | reflexivity].
Qed.

(** A run of white space does not start with a byte from the inside of a
    white-space rune. *)
Lemma white_not_inside (w a b z : string) (x : ascii) :
  In w space_runes -> w = a +:+ String x b -> a <> "" ->
  white (String x z) -> False.
Proof.
  intros Hw Hsplit Ha Hr.
  destruct (space_runes_bytes w Hw) as (c0 & z0 & E0 & _ & Hin0).
  destruct a as [|a0 a]; [contradiction|].
  rewrite Hsplit, append_cons in E0. injection E0 as _ <-.
  assert (Hx : leadByte x = false).
  { clear -Hin0. induction a as [|y a IH].
    - rewrite append_nil in Hin0. cbn [all_bytes] in Hin0.
      apply andb_true_iff in Hin0. apply negb_true_iff, Hin0.
    - rewrite append_cons in Hin0. cbn [all_bytes] in Hin0.
      apply andb_true_iff in Hin0. apply IH, Hin0. }
  destruct (white_inv _ Hr) as [E|(w' & l' & Hw' & _ & E)]; [discriminate|].
  destruct (space_runes_bytes w' Hw') as (c1 & z1 & -> & Hlead & _).
  rewrite append_cons in E. injection E as -> _. congruence.
Qed.

(** What is left of a run of white space after a run of white space. *)
Lemma white_after (a : string) : forall b, white a -> white (a +:+ b) -> white b.
Proof.
  intros b Ha. revert b. induction Ha as [|w l Hin _ IH]; intros b Hab.
  - exact Hab.
  - rewrite append_assoc in Hab.
    destruct (white_inv _ Hab) as [E|(w' & l' & Hw' & Hl' & E)].
    + apply append_eq_nil in E. destruct (space_runes_nonempty w Hin (proj1 E)).
    + destruct (space_runes_prefix_free _ _ _ _ Hin Hw' E) as [_ E2].
      rewrite <- E2 in Hl'. apply IH, Hl'.
Qed.

(** What comes before a run of white space in a run of white space. *)
Lemma white_before (s : string) : white s -> forall e r, s = e +:+ r -> white r -> white e.
Proof.
  induction 1 as [|w l Hin Hl IH]; intros e r E Hr.
  - symmetry in E. apply append_eq_nil in E. destruct E as [-> _]. constructor.
  - destruct (append_split _ _ _ _ E) as [(e2 & Ew & Er)|(e2 & Ee & El)].
    + destruct e as [|e0 e']; [constructor|].
      destruct e2 as [|x e2'].
      * rewrite append_nil_r in Ew. rewrite <- Ew, <- (append_nil_r w).
        constructor; [exact Hin | constructor].
      * exfalso. rewrite Er, append_cons in Hr.
        eapply white_not_inside; [exact Hin | exact Ew | discriminate | exact Hr].
    + rewrite Ee. constructor; [exact Hin|]. exact (IH e2 r El Hr).
Qed.

Lemma white_ends_with (y : string) :
  white y -> y <> "" -> exists y' w, In w space_runes /\ y = y' +:+ w.
Proof.
  induction 1 as [|w l Hin Hl IH]; intros Hne; [contradiction|].
  destruct l as [|c l'].
  - exists "", w. split; [exact Hin|]. rewrite append_nil_r. reflexivity.
  - destruct IH as (y' & w' & Hw' & E); [discriminate|].
    exists (w +:+ y'), w'. split; [exact Hw'|]. rewrite E, append_assoc. reflexivity.
Qed.

(** A string that does not start with white space, followed by white
    space, starts with white space only if it is empty. *)
Lemma leading_free_white (t r y z : string) :
  (forall w, In w space_runes -> ~ starts_with t w) ->
  white r -> white y -> t +:+ r = y +:+ z -> t = "" \/ y = "".
Proof.
  intros Hfree Hr Hy E.
  destruct (white_inv _ Hy) as [->|(w & y' & Hw & _ & ->)]; [right; reflexivity|].
  left. rewrite append_assoc in E.
  destruct (append_split _ _ _ _ E) as [(e & Et & _)|(e & Ew & Er)].
  - destruct (Hfree w Hw). exists e. exact Et.
  - destruct t as [|t0 t']; [reflexivity|]. exfalso.
    destruct e as [|x e'].
    + rewrite append_nil_r in Ew. apply (Hfree w Hw). exists "".
      rewrite append_nil_r. symmetry. exact Ew.
    + rewrite Er, append_cons in Hr.
      eapply white_not_inside; [exact Hw | exact Ew | discriminate | exact Hr].
Qed.

(** A string that does not end with white space has no white space
    behind what it starts with. *)
Lemma trailing_free_white (t t' e : string) :
  (forall w, In w space_runes -> ~ ends_with t w) ->
  t = t' +:+ e -> white e -> e = "".
Proof.
  intros Hfree Et He. destruct e as [|c e']; [reflexivity|]. exfalso.
  destruct (white_ends_with _ He) as (y' & w & Hw & Ey); [discriminate|].
  apply (Hfree w Hw). exists (t' +:+ y'). rewrite Et, Ey, append_assoc. reflexivity.
Qed.

(** A string is trimmed in one way only. *)
Lemma trimmed_of_unique (s t1 t2 : string) :
  trimmed_of s t1 -> trimmed_of s t2 -> t1 = t2.
Proof.
  assert (Hright : forall t1 r1 t2 r2,
            (forall w, In w space_runes -> ~ ends_with t1 w) ->
            (forall w, In w space_runes -> ~ ends_with t2 w) ->
            white r1 -> white r2 -> t1 +:+ r1 = t2 +:+ r2 -> t1 = t2).
  { intros t1' r1 t2' r2 Hf1 Hf2 Hr1 Hr2 E.
    destruct (append_split _ _ _ _ E) as [(e & Et & Er)|(e & Et & Er)].
    - assert (He : white e) by exact (white_before _ Hr2 e r1 Er Hr1).
      rewrite (trailing_free_white _ _ _ Hf1 Et He), append_nil_r in Et. exact Et.
    - assert (He : white e) by exact (white_before _ Hr1 e r2 Er Hr2).
      rewrite (trailing_free_white _ _ _ Hf2 Et He), append_nil_r in Et.
      symmetry. exact Et. }
  assert (Hempty : forall t r,
            (forall w, In w space_runes -> ~ starts_with t w) ->
            white r -> white (t +:+ r) -> t = "").
  { intros t r Hf Hr Htr.
    destruct (leading_free_white t r (t +:+ r) "" Hf Hr Htr) as [E|E];
      [rewrite append_nil_r; reflexivity | exact E |].
    apply append_eq_nil in E. apply E. }
  assert (Hleft : forall l1 ta ra l2 tb rb,
            ((forall w, In w space_runes -> ~ starts_with ta w) /\
             (forall w, In w space_runes -> ~ ends_with ta w)) ->
            ((forall w, In w space_runes -> ~ starts_with tb w) /\
             (forall w, In w space_runes -> ~ ends_with tb w)) ->
            white l1 -> white ra -> white l2 -> white rb ->
            forall y, white y -> ta +:+ ra = y +:+ tb +:+ rb -> ta = tb).
  { intros _ ta ra _ tb rb [Hsa Hea] [Hsb Heb] _ Hra _ Hrb y Hy E.
    destruct (leading_free_white ta ra y (tb +:+ rb) Hsa Hra Hy E) as [-> | ->].
    - rewrite append_nil in E.
      assert (Hw : white (tb +:+ rb)).
      { apply (white_after y); [exact Hy|]. rewrite <- E. exact Hra. }
      symmetry. exact (Hempty tb rb Hsb Hrb Hw).
    - rewrite append_nil in E. exact (Hright ta ra tb rb Hea Heb Hra Hrb E). }
  intros [(l1 & r1 & E1 & Hl1 & Hr1) [Hs1 He1]] [(l2 & r2 & E2 & Hl2 & Hr2) [Hs2 He2]].
  rewrite E1 in E2.
  destruct (append_split _ _ _ _ E2) as [(e & El & Ex)|(e & El & Ex)].
  - assert (He : white e).
    { apply (white_after l2); [exact Hl2|]. rewrite <- El. exact Hl1. }
    symmetry.
    exact (Hleft l2 t2 r2 l1 t1 r1 (conj Hs2 He2) (conj Hs1 He1) Hl2 Hr2 Hl1 Hr1 e He Ex).
  - assert (He : white e).
    { apply (white_after l1); [exact Hl1|]. rewrite <- El. exact Hl2. }
    exact (Hleft l1 t1 r1 l2 t2 r2 (conj Hs1 He1) (conj Hs2 He2) Hl1 Hr1 Hl2 Hr2 e He Ex).
Qed.

(** C5. [parseResolvers] splits its input on commas, trims each segment,
    skips the segments that are empty after trimming and those without
    [=], splits every other segment at its first [=] into name and
    address (each trimmed in turn), and keeps the order of the input.
    Trimming is taking away the white space in front and behind: the
    trimmed segment is the one string that, between two runs of white
    space, makes up the segment and neither starts nor ends with white
    space.  ["A=1.1.1.1,B=8.8.8.8:53"] parses to the targets A and B in
    that order, ["bad,,C=9.9.9.9"] to the one target C and [""] to none;
    blanks, tabs, line ends and a no-break space around segments, names
    and addresses are dropped, and a segment of white space alone is
    skipped.  The function is total: no segment makes the parse fail. *)
Theorem C5_parseResolvers_rules :
  (forall s, parseResolvers s = parse_by_rules s) /\
  (forall seg t, TrimSpace seg = t <-> trimmed_of seg t) /\
  parseResolvers "A=1.1.1.1,B=8.8.8.8:53"
    = [mkResolverCfg "A" "1.1.1.1"; mkResolverCfg "B" "8.8.8.8:53"] /\
  parseResolvers "bad,,C=9.9.9.9" = [mkResolverCfg "C" "9.9.9.9"] /\
  parseResolvers "" = [] /\
  parseResolvers (" A = 1.1.1.1 ," +:+ bytes [9]%nat +:+ "B=8.8.8.8:53"
                  +:+ bytes [13; 10]%nat +:+ ", " +:+ bytes [194; 160]%nat +:+ " ,C"
                  +:+ bytes [226; 128; 168]%nat +:+ "=9.9.9.9")
    = [mkResolverCfg "A" "1.1.1.1"; mkResolverCfg "B" "8.8.8.8:53";
       mkResolverCfg "C" "9.9.9.9"].
Proof.
  split; [|split; [|split; [|split; [|split]]]]; try (vm_compute; reflexivity).
  - intros s. unfold parseResolvers, parse_by_rules.
    change "," with (String "," "") at 1. rewrite Split_split_on.
    rewrite parseResolvers_loop. reflexivity.
  - intros seg t. split.
    + intros <-. apply TrimSpace_trimmed_of.
    + intros H. exact (trimmed_of_unique seg _ _ (TrimSpace_trimmed_of seg) H).
Qed.

(* ================================================================= *)
(** ** [lookup] *)

Lemma Cut_cut_first (c : ascii) (s : string) :
  Cut s (String c "") =
  match cut_first c s with
  | Some (before, after) => (before, after, true)
  | None => (s, "", false)
  end.
Proof.
  unfold Cut. pose proof (Index_cut_first c s) as Hi.
  destruct (Index s (String c "")) as [m|]; rewrite Hi; reflexivity.
Qed.

Lemma lookup_selected (env : Env) (n : nat) (ctx : Duration_t)
    (resolverAddr name network : string) :
  lookup env n ctx resolverAddr name network =
  LookupIP env n ctx (dial_address resolverAddr)
    (selected_network (ToLower (mapUnicodeToLower env) network)) name.
Proof.
  unfold lookup, dial_address, selected_network.
  change ":" with (String ":" "") at 1. rewrite Cut_cut_first.
  set (lower := ToLower (mapUnicodeToLower env) network).
  destruct (cut_first ":" resolverAddr) as [[host port]|]; cbn [negb];
    destruct (String.eqb_spec lower "ip4") as [->|H4]; try reflexivity;
    destruct (String.eqb_spec lower "ipv4") as [->|Hv4]; try reflexivity;
    destruct (String.eqb lower "ip6" || String.eqb lower "ipv6"); reflexivity.
Qed.

(** C6, as the code has it.  The record type follows the network token
    after [strings.ToLower]: ["ip6"] and ["ipv6"], in any letter case, ask
    for AAAA records (network ["ip6"]); ["ip4"], ["ipv4"] and every other
    token ask for A records (network ["ip4"]); no token makes [lookup]
    fail by itself. *)
Theorem C6_lookup_network :
  (forall (env : Env) (n : nat) (ctx : Duration_t) (resolverAddr name network : string),
     lookup env n ctx resolverAddr name network =
     LookupIP env n ctx (dial_address resolverAddr)
       (selected_network (ToLower (mapUnicodeToLower env) network)) name) /\
  (forall lower,
     selected_network lower = "ip6" \/ selected_network lower = "ip4") /\
  (forall lower,
     selected_network lower = "ip6" <-> lower = "ip6" \/ lower = "ipv6") /\
  (forall f,
     map (fun token => selected_network (ToLower f token))
         ["ip4"; "ipv4"; "IP4"; "ip6"; "ipv6"; "IPv6"; "a"; "aaaa"; ""]
     = ["ip4"; "ip4"; "ip4"; "ip6"; "ip6"; "ip6"; "ip4"; "ip4"; "ip4"]).
Proof.
  split; [exact lookup_selected|]. split; [|split].
  - intros lower. unfold selected_network.
    destruct (String.eqb lower "ip6" || String.eqb lower "ipv6"); [left|right]; reflexivity.
  - intros lower. unfold selected_network.
    destruct (String.eqb_spec lower "ip6") as [->|H6]; cbn [orb].
    + split; [left|]; reflexivity.
    + destruct (String.eqb_spec lower "ipv6") as [->|Hv6].
      * split; [right|]; reflexivity.
      * split; [discriminate|]. intros [H|H]; contradiction.
  - intros f. vm_compute. reflexivity.
Qed.

(** C6 as stated fails: the token ["ipv6"] is neither ["ip4"] nor ["ip6"],
    and it is looked up as ["ip6"] is, not as ["ip4"] is. *)
Lemma C6_counterexample :
  ~ (forall (env : Env) (n : nat) (ctx : Duration_t) (resolverAddr name token : string),
       token <> "ip4" -> token <> "ip6" ->
       lookup env n ctx resolverAddr name token = lookup env n ctx resolverAddr name "ip4").
Proof.
  intros H.
  set (env := mkEnv (fun s => s) (fun _ _ _ net _ => Some (mkError "*net.DNSError" net))
                    (fun _ => 0) (fun _ => []) (fun _ _ => None)).
  specialize (H env O 1500000000 "1.1.1.1" "example.com" "ipv6"
                ltac:(discriminate) ltac:(discriminate)).
  vm_compute in H. discriminate H.
Qed.

(* ================================================================= *)
(** ** [main] *)

(** C8, on the code.  When no resolver parses, the run ends in
    [os.Exit(1)] before any lookup, and the message is printed with
    [fmt.Println], that is to standard output: nothing goes to standard
    error. *)
Theorem C8_main_no_resolvers (env : Env) (fl : Flags) :
  parseResolvers (resolversCSV fl) = [] ->
  run env fl = (Exited 1, mkWorld [Println [ArgString "No resolvers provided."]] [] O) /\
  exit_code (run env fl) = 1 /\
  stderr (run env fl).2 = [] /\
  lookups (run env fl).2 = O.
Proof.
  intros H.
  assert (Hrun : run env fl
                 = (Exited 1, mkWorld [Println [ArgString "No resolvers provided."]] [] O)).
  { unfold run, main. rewrite H. reflexivity. }
  rewrite Hrun. repeat split.
Qed.

Lemma C8_main_no_resolvers_witness :
  let env := mkEnv (fun s => s) (fun _ _ _ _ _ => None) (fun _ => 0) (fun _ => [])
                   (fun _ _ => None) in
  let fl := mkFlags "example.com" 10 1500000000 "ip4" false "bad,," "" in
  parseResolvers (resolversCSV fl) = [] /\
  run env fl = (Exited 1, mkWorld [Println [ArgString "No resolvers provided."]] [] O).
Proof.
  intros env fl.
  assert (H : parseResolvers (resolversCSV fl) = []) by (vm_compute; reflexivity).
  split; [exact H|]. exact (proj1 (C8_main_no_resolvers env fl H)).
Defined.

(** Running a statement that returns, then the rest. *)
Lemma IO_bind_Return {A B : Type} (m : IO A) (k : A -> IO B) (w w' : World) (a : A) :
  m w = (Return a, w') -> (m ≫= k) w = k a w'.
Proof.
  intros H. unfold mbind, IO_bind. rewrite H. reflexivity.
Qed.

Lemma returns_print (o : output) : returns (print o).
Proof. intros w. eexists. eexists. split; reflexivity. Qed.

Lemma returns_mret {A : Type} (a : A) : returns (mret a : IO A).
Proof. intros w. eexists. eexists. split; reflexivity. Qed.

Lemma returns_bind {A B : Type} (m : IO A) (k : A -> IO B) :
  returns m -> (forall a, returns (k a)) -> returns (m ≫= k).
Proof.
  intros Hm Hk w. destruct (Hm w) as (a & w1 & H1 & E1).
  destruct (Hk a w1) as (b & w2 & H2 & E2).
  exists b, w2. split; [rewrite (IO_bind_Return _ _ _ _ _ H1); exact H2 | congruence].
Qed.

Lemma returns_fold_print {A : Type} (f : A -> output) (l : list A) : forall io : IO unit,
  returns io -> returns (fold_left (fun io a => _ ← io; print (f a)) l io).
Proof.
  induction l as [|a l IH]; intros io Hio; cbn [fold_left]; [exact Hio|].
  apply IH. apply returns_bind; [exact Hio|]. intros _. apply returns_print.
Qed.

Lemma returns_printTable_row (r : Row) : returns (printTable_row r).
Proof.
  unfold printTable_row. apply returns_bind; [apply returns_print|]. intros _.
  destruct (0 <? len (Errors (Row_Stats r))); [|apply returns_mret].
  apply (returns_fold_print (fun e => Printf ("  ! %s" +:+ LF) [ArgError e])).
  apply returns_mret.
Qed.

Lemma returns_printTable (rows : list Row) : returns (printTable rows).
Proof.
  unfold printTable. apply returns_bind; [apply returns_print|]. intros _.
  apply returns_bind; [apply returns_print|]. intros _.
  generalize (mret tt : IO unit) (returns_mret tt).
  induction rows as [|r rows IH]; intros io Hio; cbn [fold_left]; [exact Hio|].
  apply IH. apply returns_bind; [exact Hio|]. intros _. apply returns_printTable_row.
Qed.

(** The inner loop of [main] returns [k] more samples. *)
Lemma queries_returns (env : Env) (fl : Flags) (r : ResolverCfg) (k : nat) :
  forall samples w, exists samples' w',
    queries env fl r k samples w = (Return samples', w') /\
    stderr w' = stderr w /\ length samples' = (length samples + k)%nat.
Proof.
  induction k as [|k IH]; intros samples w; cbn [queries].
  - exists samples, w. repeat split. lia.
  - unfold mbind, IO_bind, query. lazy beta zeta iota.
    edestruct IH as (samples' & w' & H & E & L).
    exists samples', w'. split; [exact H|]. split; [exact E|].
    rewrite L, length_app. cbn [length]. lia.
Qed.

(** With a number of runs that [make] accepts, the body of the loop over
    the resolvers returns, whatever the lookups answered. *)
Lemma returns_benchmark (env : Env) (fl : Flags) (rows : list Row) (r : ResolverCfg) :
  0 <= count fl -> 24 * count fl <= maxAlloc -> returns (benchmark env fl rows r).
Proof.
  intros H0 Hmax w. unfold benchmark, make_Samples.
  destruct (Z.ltb_spec (count fl) 0); [lia|].
  destruct (Z.ltb_spec maxAlloc (24 * count fl)); [lia|]. cbn [orb].
  destruct (queries_returns env fl r (Z.to_nat (count fl)) [] w) as (samples & w' & Hq & E & L).
  assert (Ha : allocatable 24 samples).
  { unfold allocatable, len. rewrite L. cbn [length]. lia. }
  destruct (summarize_Ok samples Ha) as (st & Hst & _).
  eexists. exists w'. split; [|exact E].
  unfold mbind at 1, IO_bind at 1. cbn [lift].
  unfold mbind at 1, IO_bind at 1. rewrite Hq.
  unfold mbind at 1, IO_bind at 1. rewrite Hst. reflexivity.
Qed.

Lemma errorStrings_Ok (errs : list error) :
  (forall e, In e errs -> e <> None) -> exists strs, errorStrings errs = Ok strs.
Proof.
  unfold errorStrings. intros Hnn.
  enough (H : forall acc : list string, exists strs,
            fold_left
              (fun (out : result (list string)) (e : error) =>
                 out ← out;
                 match e with
                 | Some v => Ok (out ++ [Error v])
                 | None => Panic NilDereference
                 end)
              errs (Ok acc) = Ok strs) by apply H.
  induction errs as [|[v|] errs IH]; intros acc; cbn [fold_left].
  - eexists. reflexivity.
  - cbn [mbind result_bind]. apply IH. intros e He. apply Hnn. right. exact He.
  - exfalso. apply (Hnn None); [left|]; reflexivity.
Qed.

Lemma csv_summary_row_Ok (r : Row) : exists fields, csv_summary_row r = Ok fields.
Proof.
  unfold csv_summary_row. destruct (0 <? len (Errors (Row_Stats r))).
  - destruct (uniqueErrors_loop (Errors (Row_Stats r)) ∅ [] []) as [_ Hnn].
    + intros k. rewrite lookup_empty. cbn. split; [discriminate|tauto].
    + reflexivity.
    + intros e [].
    + destruct (errorStrings_Ok _ Hnn) as [strs Hs].
      fold (uniqueErrors (Errors (Row_Stats r))) in Hs. rewrite Hs.
      eexists. reflexivity.
  - eexists. reflexivity.
Qed.

Lemma csv_records_Ok (rows : list Row) : exists records, csv_records rows = Ok records.
Proof.
  unfold csv_records.
  assert (H : exists summary, mapM csv_summary_row rows = Ok summary).
  { induction rows as [|r rows [summary IH]]; [eexists; reflexivity|].
    destruct (csv_summary_row_Ok r) as [fields Hf].
    cbn [mapM]. rewrite Hf. cbn [mbind result_bind]. rewrite IH. eexists. reflexivity. }
  destruct H as [summary Hs]. rewrite Hs. eexists. reflexivity.
Qed.

(** The rest of C8.  When a resolver parses, the number of runs is one that
    [make] accepts and no CSV write fails, the program ends with status 0,
    whatever the lookups answered: a run whose queries all failed has no
    exit status of its own. *)
Lemma main_exit_code (env : Env) (fl : Flags) :
  parseResolvers (resolversCSV fl) <> [] ->
  0 <= count fl -> 24 * count fl <= maxAlloc ->
  (forall path records, writeRecords env path records = None) ->
  exit_code (run env fl) = 0.
Proof.
  intros Hres H0 Hmax Hcsv.
  assert (Hret : returns (main env fl)).
  { unfold main.
    destruct (Z.eqb_spec (len (parseResolvers (resolversCSV fl))) 0) as [E|_];
      [apply len_nil_iff in E; contradiction|].
    apply returns_bind; [apply returns_mret|]. intros _.
    apply returns_bind; [apply returns_print|]. intros _.
    apply returns_bind; [apply returns_print|]. intros _.
    apply returns_bind; [apply returns_print|]. intros _.
    apply returns_bind.
    - clear Hres. generalize (mret [] : IO (list Row)) (returns_mret (@nil Row)).
      induction (parseResolvers (resolversCSV fl)) as [|r rs IH]; intros io Hio;
        cbn [fold_left]; [exact Hio|].
      apply IH. apply returns_bind; [exact Hio|]. intros rows.
      apply returns_benchmark; assumption.
    - intros rows. apply returns_bind; [apply returns_printTable|]. intros _.
      destruct (negb (String.eqb (outCSV fl) "")); [|apply returns_mret].
      unfold writeCSV. destruct (csv_records_Ok rows) as [records Hr].
      rewrite Hr. cbn [mbind result_bind lift]. rewrite Hcsv.
      intros w.
      destruct (returns_print (Printf (LF +:+ "CSV written to: %s" +:+ LF)
                                      [ArgString (outCSV fl)]) w) as (a & w' & H & E).
      exists a, w'. split; [exact H | exact E]. }
  unfold run, exit_code. destruct (Hret (mkWorld [] [] O)) as (a & w' & -> & _). reflexivity.
Qed.

(** With a negative number of runs the first [make] panics. *)
Lemma main_negative_count (env : Env) :
  exit_code (run env (mkFlags "example.com" (-1) 1500000000 "ip4" false "A=1.1.1.1" "")) = 2.
Proof. vm_compute. reflexivity. Qed.

(* ================================================================= *)
(** ** Further properties of [lookup] *)

Lemma cut_first_None_Index (c : ascii) (s : string) :
  cut_first c s = None <-> Index s (String c "") = None.
Proof.
  pose proof (Index_cut_first c s) as H.
  destruct (Index s (String c "")) as [m|]; split; intros E; congruence.
Qed.

Lemma cut_first_Some_inv (c : ascii) (s before after : string) :
  cut_first c s = Some (before, after) ->
  s = before +:+ String c after /\ cut_first c before = None.
Proof.
  revert before after. induction s as [|a s IH]; intros before after; cbn [cut_first].
  - discriminate.
  - destruct (Ascii.eqb_spec a c) as [->|Hne].
    + intros [= <- <-]. split; reflexivity.
    + destruct (cut_first c s) as [[b' a']|]; [|discriminate].
      intros [= <- <-]. destruct (IH _ _ eq_refl) as [-> Hb]. split; [reflexivity|].
      cbn [cut_first]. destruct (Ascii.eqb_spec a c); [contradiction|]. rewrite Hb. reflexivity.
Qed.

(** X1. [lookup] cuts the resolver address at its first colon and joins
    the two parts again, which gives the address back: it dials
    [resolverAddr] itself when that contains a colon, and
    [resolverAddr:53] when it contains none.  (So an IPv6 literal is
    dialled as it was written, without brackets and without a port.) *)
Theorem lookup_dials_address (env : Env) (n : nat) (ctx : Duration_t)
    (resolverAddr name network : string) :
  lookup env n ctx resolverAddr name network =
  LookupIP env n ctx
    (match Index resolverAddr ":" with
     | Some _ => resolverAddr
     | None => resolverAddr +:+ ":53"
     end)
    (selected_network (ToLower (mapUnicodeToLower env) network)) name.
Proof.
  rewrite lookup_selected. f_equal. unfold dial_address.
  pose proof (Index_cut_first ":" resolverAddr) as Hi.
  change (String ":" "") with ":" in Hi.
  destruct (Index resolverAddr ":") as [m|]; rewrite Hi.
  - destruct (cut_first_Some_inv _ _ _ _ Hi) as [Hs Hb].
    apply cut_first_None_Index in Hb. change (String ":" "") with ":" in Hb.
    unfold JoinHostPort. rewrite Hb. rewrite Hs at 3. reflexivity.
  - unfold JoinHostPort.
    assert (Hn : Index resolverAddr ":" = None) by (apply (cut_first_None_Index ":"), Hi).
    rewrite Hn. reflexivity.
Qed.

(* ================================================================= *)
(** ** Further properties of [percentile] *)

Lemma Prim2SF_SF2Prim_zero : Prim2SF (SF2Prim (S754_zero false)) = S754_zero false.
Proof. reflexivity. Qed.

(** [int(math.Floor(x))] and [int(math.Ceil(x))] of a float in [[0, N]]
    are equal or adjacent. *)
Lemma int_Floor_Ceil_adjacent x N :
  0 <= N < 2 ^ 53 -> nonneg_below (Prim2SF x) N ->
  int_of_float64 (Floor x) <= int_of_float64 (Ceil x) <= int_of_float64 (Floor x) + 1.
Proof.
  intros HN Hx. unfold Floor, Ceil.
  destruct (Prim2SF x) as [s|s| |s m e] eqn:Ex; simpl in Hx; try contradiction.
  - subst s. cbn [SFfloor SFceil]. rewrite int_of_float64_zero. lia.
  - destruct Hx as [-> Hle]. cbn [SFfloor SFceil].
    destruct (Z.leb_spec 0 e) as [He|He]; [lia|].
    cbn [cond_Zopp]. rewrite !Z.shiftl_div_pow2 by lia.
    pose proof (F2R_le_IZR_neg _ _ _ He Hle) as Hb.
    assert (Hp : 0 < 2 ^ (- e)) by (apply Z.pow_pos_nonneg; lia).
    assert (H1 : 0 <= Zpos m / 2 ^ (- e)) by (apply Z.div_pos; lia).
    assert (H2 : Zpos m / 2 ^ (- e) <= N) by (apply Z.div_le_upper_bound; lia).
    assert (H3 : - Zpos m / 2 ^ (- e) < 0) by (apply Z.div_lt_upper_bound; lia).
    assert (H4 : - N <= - Zpos m / 2 ^ (- e)) by (apply Z.div_le_lower_bound; lia).
    rewrite !int_of_float64_of_nat_range by lia.
    pose proof (Z.div_mod (Zpos m) (2 ^ (- e)) ltac:(lia)) as Hd1.
    pose proof (Z.mod_pos_bound (Zpos m) (2 ^ (- e)) Hp) as Hm1.
    pose proof (Z.div_mod (- Zpos m) (2 ^ (- e)) ltac:(lia)) as Hd2.
    pose proof (Z.mod_pos_bound (- Zpos m) (2 ^ (- e)) Hp) as Hm2.
    nia.
Qed.

(** X2. For [0 < p < 100] the two indices between which [percentile]
    interpolates are equal or adjacent: [lo <= hi <= lo + 1], both inside
    the slice. *)
Theorem percentile_closest_ranks (sorted : list float) (p : float) :
  sorted <> [] -> allocatable 8 sorted ->
  (0 <? p)%float = true -> (p <? 100)%float = true ->
  let position := (p / 100 * float64_of_int (len sorted - 1))%float in
  let lo := int_of_float64 (Floor position) in
  let hi := int_of_float64 (Ceil position) in
  0 <= lo /\ lo <= hi /\ hi <= lo + 1 /\ hi <= len sorted - 1.
Proof.
  intros Hne Ha H0 H100. apply allocatable_float64 in Ha.
  assert (Hn : 1 <= len sorted).
  { pose proof (len_nonneg sorted). destruct (Z.eq_dec (len sorted) 0) as [E|]; [|lia].
    apply len_nil_iff in E. contradiction. }
  pose proof (position_range p (len sorted) ltac:(lia) H0 H100) as Hpos.
  pose proof (int_Floor_range _ (len sorted - 1) ltac:(lia) Hpos) as Hf.
  pose proof (int_Ceil_range _ (len sorted - 1) ltac:(lia) Hpos) as Hc.
  pose proof (int_Floor_Ceil_adjacent _ (len sorted - 1) ltac:(lia) Hpos) as Hadj.
  cbv zeta. lia.
Qed.

Lemma percentile_closest_ranks_witness :
  [10; 20; 30; 40]%float <> [] /\ allocatable 8 [10; 20; 30; 40]%float /\
  let lo := int_of_float64 (Floor (95 / 100 * float64_of_int 3)%float) in
  let hi := int_of_float64 (Ceil (95 / 100 * float64_of_int 3)%float) in
  0 <= lo /\ lo <= hi /\ hi <= lo + 1 /\ hi <= 3.
Proof.
  assert (Hne : [10; 20; 30; 40]%float <> []) by discriminate.
  assert (Ha : allocatable 8 [10; 20; 30; 40]%float) by (vm_compute; discriminate).
  split; [exact Hne|]. split; [exact Ha|].
  exact (percentile_closest_ranks [10; 20; 30; 40]%float 95 Hne Ha eq_refl eq_refl).
Defined.

(** X3. On a slice with a single element [percentile] returns that element
    for every [p] that is a number: with one success the median and the
    95th percentile are that one measurement. *)
Theorem percentile_singleton (x p : float) :
  IsNaN p = false -> percentile [x] p = Ok x.
Proof.
  intros Hnan. apply IsNaN_false in Hnan.
  destruct (p <=? 0)%float eqn:H0.
  - unfold percentile. rewrite H0. reflexivity.
  - destruct (100 <=? p)%float eqn:H100.
    + unfold percentile. rewrite H0, H100. reflexivity.
    + destruct (between_of_not_leb p Hnan H0 H100) as [Hp0 Hp100].
      assert (Hlen : len [x] <= 2 ^ 53) by (unfold len; cbn; lia).
      destruct (percentile_indices [x] p ltac:(discriminate) Hlen Hp0 Hp100) as [Hl Hu].
      rewrite (percentile_interpolates [x] p ltac:(discriminate) Hlen Hp0 Hp100).
      cbv zeta in Hl, Hu |- *. change (len [x] - 1) with 0 in *.
      set (pos := (p / 100 * float64_of_int 0)%float) in *.
      replace (int_of_float64 (Floor pos)) with 0 by lia.
      replace (int_of_float64 (Ceil pos)) with 0 by lia.
      reflexivity.
Qed.

Lemma percentile_singleton_witness :
  IsNaN 95 = false /\ percentile [12.5]%float 95 = Ok 12.5%float.
Proof.
  split; [reflexivity|]. exact (percentile_singleton 12.5 95 eq_refl).
Defined.

(* ================================================================= *)
(** ** Further properties of [uniqueErrors] and [errorStrings] *)

Lemma uniqueErrors_loop_distinct l : forall (seen : gmap string bool) (out : list error),
  (forall k, default false (seen !! k) = true <-> In k (messages out)) ->
  List.NoDup (messages (out ++ l)) ->
  (forall e, In e l -> e <> None) ->
  (fold_left uniqueErrors_body l (seen, out)).2 = out ++ l.
Proof.
  induction l as [|e l IH]; intros seen out Hseen Hnd Hnn; cbn [fold_left].
  - cbn. rewrite app_nil_r. reflexivity.
  - destruct e as [v|]; [|exfalso; apply (Hnn None); [left|]; reflexivity].
    cbn [uniqueErrors_body fst snd].
    assert (Hfresh : ~ In (Error v) (messages out)).
    { rewrite messages_app in Hnd. change (messages (Some v :: l)) with (Error v :: messages l) in Hnd.
      apply List.NoDup_remove_2 in Hnd. intros Hin. apply Hnd, in_or_app. left. exact Hin. }
    destruct (default false (seen !! Error v)) eqn:Hs; [exfalso; apply Hfresh, Hseen, Hs|].
    cbn [negb]. change (out ++ Some v :: l) with (out ++ [Some v] ++ l). rewrite app_assoc.
    apply IH.
    + intros k. rewrite messages_app, in_app_iff.
      change (messages [Some v]) with [Error v]. cbn [In].
      destruct (String.eqb_spec (Error v) k) as [<-|Hne].
      * rewrite lookup_insert_eq. cbn. tauto.
      * rewrite lookup_insert_ne by exact Hne. rewrite Hseen. tauto.
    + rewrite <- app_assoc. exact Hnd.
    + intros e He. apply Hnn. right. exact He.
Qed.

Lemma uniqueErrors_facts errs :
  messages (uniqueErrors errs) = distinct_in_order (messages errs) /\
  (forall e, In e (uniqueErrors errs) -> e <> None).
Proof.
  unfold uniqueErrors.
  destruct (uniqueErrors_loop errs ∅ [] []) as [Hm Hnn].
  - intros k. rewrite lookup_empty. cbn. split; [discriminate|tauto].
  - reflexivity.
  - intros e [].
  - split; [exact Hm | exact Hnn].
Qed.

(** X4. [uniqueErrors] returns its argument when that holds no nil error
    and no message twice, and so applying it twice is applying it once;
    it never returns more errors than it was given. *)
Theorem uniqueErrors_idempotent :
  (forall errs,
     (forall e, In e errs -> e <> None) -> List.NoDup (messages errs) ->
     uniqueErrors errs = errs) /\
  (forall errs, uniqueErrors (uniqueErrors errs) = uniqueErrors errs) /\
  (forall errs, (length (uniqueErrors errs) <= length errs)%nat).
Proof.
  assert (Hfix : forall errs,
            (forall e, In e errs -> e <> None) -> List.NoDup (messages errs) ->
            uniqueErrors errs = errs).
  { intros errs Hnn Hnd. unfold uniqueErrors.
    apply (uniqueErrors_loop_distinct errs ∅ []); [|exact Hnd|exact Hnn].
    intros k. rewrite lookup_empty. cbn. split; [discriminate|tauto]. }
  split; [exact Hfix|]. split.
  - intros errs. destruct (uniqueErrors_facts errs) as [Hm Hnn].
    apply Hfix; [exact Hnn|]. rewrite Hm. apply NoDup_distinct_in_order.
  - intros errs. apply sublist_length. exact (uniqueErrors_sublist errs ∅ []).
Qed.

Lemma errorStrings_loop (errs : list error) : forall acc : list string,
  fold_left
    (fun (out : result (list string)) (e : error) =>
       out ← out;
       match e with
       | Some v => Ok (out ++ [Error v])
       | None => Panic NilDereference
       end)
    errs (Ok acc)
  = if existsb (fun e : error => match e with None => true | Some _ => false end) errs
    then Panic NilDereference
    else Ok (acc ++ messages errs).
Proof.
  induction errs as [|[v|] errs IH]; intros acc; cbn [fold_left existsb orb].
  - cbn. rewrite app_nil_r. reflexivity.
  - cbn [mbind result_bind]. rewrite IH.
    change (messages (Some v :: errs)) with (Error v :: messages errs).
    rewrite <- app_assoc. reflexivity.
  - cbn [mbind result_bind]. clear IH.
    induction errs as [|e errs IH]; [reflexivity|]. cbn [fold_left]. exact IH.
Qed.

Lemma errorStrings_no_nil (errs : list error) :
  (forall e, In e errs -> e <> None) -> errorStrings errs = Ok (messages errs).
Proof.
  intros Hnn. unfold errorStrings. rewrite errorStrings_loop.
  match goal with |- context [existsb ?f errs] => destruct (existsb f errs) eqn:Hex end;
    [|reflexivity].
  apply existsb_exists in Hex. destruct Hex as ([v|] & Hin & Hv); [discriminate|].
  exfalso. apply (Hnn None Hin). reflexivity.
Qed.

Lemma errorStrings_uniqueErrors (errs : list error) :
  errorStrings (uniqueErrors errs) = Ok (distinct_in_order (messages errs)).
Proof.
  destruct (uniqueErrors_facts errs) as [Hm Hnn].
  rewrite errorStrings_no_nil by exact Hnn. rewrite Hm. reflexivity.
Qed.

(** X5. [errorStrings] returns the messages of the errors in order when
    none of them is nil, and panics on a nil error.  After [uniqueErrors]
    it cannot panic: the errors column of the CSV summary holds each
    message once, in the order of first occurrence. *)
Theorem errorStrings_messages :
  (forall errs, (forall e, In e errs -> e <> None) ->
                errorStrings errs = Ok (messages errs)) /\
  (forall errs, In None errs -> errorStrings errs = Panic NilDereference) /\
  (forall errs, errorStrings (uniqueErrors errs) = Ok (distinct_in_order (messages errs))).
Proof.
  split; [exact errorStrings_no_nil|]. split; [|exact errorStrings_uniqueErrors].
  intros errs Hin. unfold errorStrings. rewrite errorStrings_loop.
  match goal with |- context [existsb ?f errs] => destruct (existsb f errs) eqn:Hex end;
    [reflexivity|].
  exfalso. apply Bool.not_true_iff_false in Hex. apply Hex.
  apply existsb_exists. exists None. split; [exact Hin|reflexivity].
Qed.

(* ================================================================= *)
(** ** Further properties of [summarize] *)

(** One pass of the loop of [summarize], on the fields it may change. *)
Lemma summarize_body_changes st s :
  let st' := summarize_body st s in
  Errors st' = Errors st ++ (if succeeded s then [] else [Err s]) /\
  DurationsMs st' = DurationsMs st ++ (if succeeded s then [millis s] else []) /\
  Min st' = (if succeeded s then Z.min (Min st) (Duration s) else Min st) /\
  Max st' = (if succeeded s then Z.max (Max st) (Duration s) else Max st).
Proof.
  unfold summarize_body, succeeded, millis. destruct (Err s) as [e|].
  - cbn. rewrite app_nil_r. repeat split.
  - cbn [set_Successes Min].
    destruct (Z.ltb_spec (Duration s) (Min st)) as [H1|H1]; cbn [set_Min set_Successes Max];
      destruct (Z.ltb_spec (Max st) (Duration s)) as [H2|H2];
      cbn -[Z.min Z.max]; rewrite ?app_nil_r; repeat split; lia.
Qed.

Lemma failures_of_cons s samples :
  failures_of (s :: samples) =
  if succeeded s then failures_of samples else Err s :: failures_of samples.
Proof.
  unfold failures_of, succeeded. cbn [map List.filter].
  destruct (Err s); reflexivity.
Qed.

(** The loop of [summarize], field by field. *)
Lemma summarize_loop_fields samples : forall st,
  let st' := fold_left summarize_body samples st in
  Errors st' = Errors st ++ failures_of samples /\
  DurationsMs st' = DurationsMs st ++ map millis (List.filter succeeded samples) /\
  Min st' = fold_left Z.min (map Duration (List.filter succeeded samples)) (Min st) /\
  Max st' = fold_left Z.max (map Duration (List.filter succeeded samples)) (Max st).
Proof.
  induction samples as [|s samples IH]; intros st; cbn [fold_left].
  - unfold failures_of. cbn. rewrite !app_nil_r. repeat split.
  - specialize (IH (summarize_body st s)). cbv zeta in IH.
    destruct IH as (HE & HD & HMin & HMax).
    destruct (summarize_body_changes st s) as (BE & BD & BMin & BMax).
    rewrite HE, HD, HMin, HMax, BE, BD, BMin, BMax, failures_of_cons. clear.
    cbn [List.filter].
    destruct (succeeded s); cbn [map fold_left app]; rewrite <- ?app_assoc;
      repeat split; reflexivity.
Qed.

(** [summarize] returns the statistics of the loop, with [Min] and [Max]
    reset when nothing succeeded and [Avg], [Median], [P95] set
    otherwise. *)
Lemma summarize_Ok_loop samples :
  allocatable 24 samples ->
  let st0 := fold_left summarize_body samples
               (mkStats (len samples) 0 MaxInt64 0 0 0 0 [] []) in
  exists st, summarize samples = Ok st /\
             Count st = len samples /\ Successes st = successes_of samples /\
             Errors st = Errors st0 /\ DurationsMs st = DurationsMs st0 /\
             (successes_of samples = 0 -> Min st = 0 /\ Max st = 0) /\
             (successes_of samples <> 0 -> Min st = Min st0 /\ Max st = Max st0).
Proof.
  intros Halloc st0. apply allocatable_Sample in Halloc.
  change (2 ^ 45) with 35184372088832 in Halloc.
  unfold summarize.
  pose proof (summarize_loop samples (mkStats (len samples) 0 MaxInt64 0 0 0 0 [] [])) as H.
  cbv zeta in H. cbn [Count Avg Median P95 Successes DurationsMs] in H.
  fold st0 in H |- *.
  destruct H as (HC & _ & _ & _ & HD & HS).
  pose proof (successes_of_nonneg samples) as Hnn.
  pose proof (successes_of_le_len samples) as Hle.
  rewrite Z.add_0_l in HS. specialize (HS ltac:(lia) ltac:(unfold MaxInt64; lia)).
  destruct (Z.eqb_spec (Successes st0) 0) as [E|E].
  - eexists. split; [reflexivity|]. cbn.
    split; [exact HC|]. split; [exact HS|]. split; [reflexivity|].
    split; [reflexivity|]. split; [split; reflexivity | lia].
  - set (ms := Float64s (DurationsMs _)).
    assert (Hms : len ms = successes_of samples).
    { unfold ms, len. rewrite length_Float64s. cbn [DurationsMs set_Avg].
      unfold len in HD. cbn [length] in HD. lia. }
    assert (Hne : ms <> []) by (intros E0; rewrite E0 in Hms; unfold len in Hms; cbn in Hms; lia).
    assert (Hlen : len ms <= 2 ^ 53) by (change (2 ^ 53) with 9007199254740992; lia).
    destruct (percentile_Ok_between ms 50 Hne Hlen eq_refl eq_refl) as [p50 H50].
    destruct (percentile_Ok_between ms 95 Hne Hlen eq_refl eq_refl) as [p95 H95].
    rewrite H50. cbn [mbind result_bind]. rewrite H95. cbn [mbind result_bind].
    eexists. split; [reflexivity|]. cbn.
    split; [exact HC|]. split; [exact HS|]. split; [reflexivity|].
    split; [reflexivity|]. split; [lia | split; reflexivity].
Qed.

Lemma length_failures_of samples :
  len (failures_of samples) + successes_of samples = len samples.
Proof.
  induction samples as [|s samples IH]; [reflexivity|].
  rewrite failures_of_cons, successes_of_cons. unfold succeeded.
  unfold len in *. destruct (Err s); cbn [length]; lia.
Qed.

Lemma filter_succeeded samples :
  List.filter succeeded samples =
  List.filter (fun s => match Err s with None => true | Some _ => false end) samples.
Proof. reflexivity. Qed.

(** X6. [summarize] sorts every sample into exactly one of two bins and
    keeps the order of arrival in both: [Errors] holds the errors of the
    failed samples, [DurationsMs] the elapsed milliseconds of the successful
    ones (the sorted copy that the percentiles use is not stored), and
    [Successes] plus the number of errors is [Count]. *)
Theorem summarize_partition (samples : list Sample) :
  allocatable 24 samples ->
  exists st, summarize samples = Ok st /\
             Errors st = failures_of samples /\
             DurationsMs st = map millis (List.filter succeeded samples) /\
             Successes st + len (Errors st) = Count st.
Proof.
  intros Halloc.
  destruct (summarize_Ok_loop samples Halloc) as (st & Hst & HC & HS & HE & HD & _).
  destruct (summarize_loop_fields samples (mkStats (len samples) 0 MaxInt64 0 0 0 0 [] []))
    as (LE & LD & _).
  cbn [Errors DurationsMs app] in LE, LD.
  exists st. split; [exact Hst|].
  rewrite HE, HD, LE, LD, HS, HC.
  split; [reflexivity|]. split; [reflexivity|].
  pose proof (length_failures_of samples). lia.
Qed.

Lemma summarize_partition_witness :
  let e := Some (mkError "*net.DNSError" "i/o timeout") in
  let samples := [mkSample 10000000 None; mkSample 1500000000 e;
                  mkSample 20000000 None] in
  allocatable 24 samples /\
  exists st, summarize samples = Ok st /\
             Errors st = [e] /\
             DurationsMs st = [millis (mkSample 10000000 None);
                               millis (mkSample 20000000 None)] /\
             Successes st + len (Errors st) = Count st.
Proof.
  intros e samples.
  assert (Ha : allocatable 24 samples) by (vm_compute; discriminate).
  split; [exact Ha|]. exact (summarize_partition samples Ha).
Defined.

(** The running minimum and maximum of the loop. *)
Lemma fold_min_le l : forall a,
  fold_left Z.min l a <= a /\ forall x, In x l -> fold_left Z.min l a <= x.
Proof.
  induction l as [|y l IH]; intros a; cbn [fold_left].
  - split; [lia | intros x []].
  - destruct (IH (Z.min a y)) as [H1 H2]. split; [lia|].
    intros x [<-|Hx]; [lia | apply H2, Hx].
Qed.

Lemma fold_max_ge l : forall a,
  a <= fold_left Z.max l a /\ forall x, In x l -> x <= fold_left Z.max l a.
Proof.
  induction l as [|y l IH]; intros a; cbn [fold_left].
  - split; [lia | intros x []].
  - destruct (IH (Z.max a y)) as [H1 H2]. split; [lia|].
    intros x [<-|Hx]; [lia | apply H2, Hx].
Qed.

Lemma fold_min_attained l : forall a,
  fold_left Z.min l a = a \/ In (fold_left Z.min l a) l.
Proof.
  induction l as [|y l IH]; intros a; cbn [fold_left]; [left; reflexivity|].
  destruct (IH (Z.min a y)) as [H|H]; [|right; right; exact H].
  rewrite H. destruct (Z.min_spec a y) as [[_ ->]|[_ ->]]; [left | right; left]; reflexivity.
Qed.

Lemma fold_max_attained l : forall a,
  fold_left Z.max l a = a \/ In (fold_left Z.max l a) l.
Proof.
  induction l as [|y l IH]; intros a; cbn [fold_left]; [left; reflexivity|].
  destruct (IH (Z.max a y)) as [H|H]; [|right; right; exact H].
  rewrite H. destruct (Z.max_spec a y) as [[_ ->]|[_ ->]]; [right; left | left]; reflexivity.
Qed.

Lemma In_succeeded_durations d samples :
  In d (map Duration (List.filter succeeded samples)) <->
  exists s, In s samples /\ Err s = None /\ Duration s = d.
Proof.
  rewrite in_map_iff. split.
  - intros (s & Hd & Hs). apply filter_In in Hs. destruct Hs as [Hin Hok].
    exists s. split; [exact Hin|]. split; [|exact Hd].
    unfold succeeded in Hok. destruct (Err s); [discriminate | reflexivity].
  - intros (s & Hin & Hok & Hd). exists s. split; [exact Hd|].
    apply filter_In. split; [exact Hin|]. unfold succeeded. rewrite Hok. reflexivity.
Qed.

(** X7. When the elapsed times of the successful samples are non-negative
    (as [time.Since] delivers them), [Min] and [Max] of the statistics
    bound the elapsed time of every successful sample, and as soon as one
    sample succeeded both are the elapsed time of a successful sample. *)
Theorem summarize_Min_Max (samples : list Sample) :
  allocatable 24 samples ->
  (forall s, In s samples -> Err s = None -> 0 <= Duration s <= MaxInt64) ->
  exists st, summarize samples = Ok st /\
             (forall s, In s samples -> Err s = None ->
                        Min st <= Duration s <= Max st) /\
             ((exists s, In s samples /\ Err s = None) ->
              (exists s, In s samples /\ Err s = None /\ Duration s = Min st) /\
              (exists s, In s samples /\ Err s = None /\ Duration s = Max st)).
Proof.
  intros Halloc Hrange.
  destruct (summarize_Ok_loop samples Halloc) as (st & Hst & _ & _ & _ & _ & _ & HMM).
  destruct (summarize_loop_fields samples (mkStats (len samples) 0 MaxInt64 0 0 0 0 [] []))
    as (_ & _ & LMin & LMax).
  cbn [Min Max] in LMin, LMax.
  set (ds := map Duration (List.filter succeeded samples)) in *.
  assert (Hsucc : forall s, In s samples -> Err s = None -> successes_of samples <> 0).
  { intros s Hin Hok E.
    assert (Hf : In s (List.filter succeeded samples)).
    { apply filter_In. split; [exact Hin|]. unfold succeeded. rewrite Hok. reflexivity. }
    unfold successes_of, len in E. rewrite <- filter_succeeded in E.
    destruct (List.filter succeeded samples); [destruct Hf | cbn [length] in E; lia]. }
  exists st. split; [exact Hst|]. split.
  - intros s Hin Hok. destruct (HMM (Hsucc s Hin Hok)) as [-> ->].
    rewrite LMin, LMax.
    assert (Hd : In (Duration s) ds).
    { apply In_succeeded_durations. exists s. repeat split; assumption. }
    split; [apply fold_min_le, Hd | apply fold_max_ge, Hd].
  - intros (s & Hin & Hok). destruct (HMM (Hsucc s Hin Hok)) as [-> ->].
    rewrite LMin, LMax.
    assert (Hd : In (Duration s) ds).
    { apply In_succeeded_durations. exists s. repeat split; assumption. }
    pose proof (Hrange s Hin Hok) as Hs.
    split.
    + destruct (fold_min_attained ds MaxInt64) as [E|E].
      * exists s. split; [exact Hin|]. split; [exact Hok|].
        pose proof (proj2 (fold_min_le ds MaxInt64) _ Hd). lia.
      * apply In_succeeded_durations, E.
    + destruct (fold_max_attained ds 0) as [E|E].
      * exists s. split; [exact Hin|]. split; [exact Hok|].
        pose proof (proj2 (fold_max_ge ds 0) _ Hd). lia.
      * apply In_succeeded_durations, E.
Qed.

Lemma summarize_Min_Max_witness :
  let e := Some (mkError "*net.DNSError" "i/o timeout") in
  let samples := [mkSample 30000000 None; mkSample 1500000000 e;
                  mkSample 20000000 None] in
  exists st, summarize samples = Ok st /\
             (forall s, In s samples -> Err s = None ->
                        Min st <= Duration s <= Max st) /\
             ((exists s, In s samples /\ Err s = None) ->
              (exists s, In s samples /\ Err s = None /\ Duration s = Min st) /\
              (exists s, In s samples /\ Err s = None /\ Duration s = Max st)).
Proof.
  intros e samples. apply (summarize_Min_Max samples).
  - vm_compute. discriminate.
  - intros s [<-|[<-|[<-|[]]]]; cbn; intros H; try discriminate;
      unfold MaxInt64; lia.
Defined.

(* ================================================================= *)
(** ** The success rate that [printTable] prints *)

Lemma F2R_100 : F2R 7036874417766400 (-46) = 100%R.
Proof.
  change 7036874417766400 with (100 * 2 ^ 46). rewrite F2R_shift by lia.
  unfold F2R. simpl. lra.
Qed.

(** X8. The success rate that [printTable] computes from statistics with
    [0 <= Successes <= Count] (and a [Count] that a slice can have) is a
    number between 0 and 100: never NaN, infinite, negative or above 100,
    although the product and the quotient are both rounded; it is [+0]
    when nothing succeeded. *)
Theorem successPct_range (st : Stats) :
  0 <= Successes st <= Count st -> Count st < 2 ^ 46 ->
  nonneg_below (Prim2SF (successPct st)) 100 /\
  (Successes st = 0 -> Prim2SF (successPct st) = S754_zero false).
Proof.
  intros HS HC. change (2 ^ 46) with 70368744177664 in HC.
  unfold successPct. destruct (Z.ltb_spec 0 (Count st)) as [Hpos|Hzero].
  2:{ split; reflexivity. }
  assert (HCs : 0 < Count st < 2 ^ 53) by (change (2 ^ 53) with 9007199254740992; lia).
  assert (Hzero : Successes st = 0 ->
            Prim2SF (100 * float64_of_int (Successes st) / float64_of_int (Count st))
            = S754_zero false).
  { intros E. rewrite E. rewrite div_spec.
    rewrite (Prim2SF_float64_of_int_small _ HCs).
    change (Prim2SF (100 * float64_of_int 0)) with (S754_zero false).
    unfold SF_of_small. reflexivity. }
  split; [|exact Hzero].
  destruct (Z.eq_dec (Successes st) 0) as [E|E]; [rewrite (Hzero E); reflexivity|].
  assert (HSs : 0 < Successes st < 2 ^ 53) by (change (2 ^ 53) with 9007199254740992; lia).
  assert (HPs : 0 < 100 * Count st < 2 ^ 53) by (change (2 ^ 53) with 9007199254740992; lia).
  rewrite div_spec, mul_spec, Prim2SF_100.
  rewrite (Prim2SF_float64_of_int_small _ HCs), (Prim2SF_float64_of_int_small _ HSs).
  pose proof (SF_of_small_valid _ HSs) as HSv. pose proof (SF_of_small_F2R _ HSs) as HSr.
  pose proof (SF_of_small_valid _ HCs) as HCv. pose proof (SF_of_small_F2R _ HCs) as HCr.
  pose proof (SF_of_small_valid _ HPs) as HPv. pose proof (SF_of_small_F2R _ HPs) as HPr.
  unfold SF_of_small in *.
  set (mS := Z.to_pos (Successes st * _)) in *. set (eS := Zdigits2 (Successes st) - 53) in *.
  set (mC := Z.to_pos (Count st * _)) in *. set (eC := Zdigits2 (Count st) - 53) in *.
  set (mP := Z.to_pos (100 * Count st * _)) in *.
  set (eP := Zdigits2 (100 * Count st) - 53) in *.
  unfold SF64mul, SF64div.
  pose proof (SFmul_le mP eP 7036874417766400 (-46) mS eS HPv eq_refl HSv) as Hmul.
  rewrite F2R_100, HSr, HPr in Hmul.
  assert (Hle : (100 * IZR (Successes st) <= IZR (100 * Count st))%R).
  { rewrite mult_IZR. apply Rmult_le_compat_l; [lra|]. apply IZR_le. lia. }
  specialize (Hmul Hle).
  destruct (SFmul prec emax (S754_finite false 7036874417766400 (-46))
              (S754_finite false mS eS)) as [s|s| |s m e]; try contradiction.
  - subst s. reflexivity.
  - destruct Hmul as [-> Hmul].
    pose proof (SFdiv_le 7036874417766400 (-46) m e mC eC eq_refl) as Hdiv.
    rewrite F2R_100, HCr in Hdiv.
    assert (Hle' : (F2R (Z.pos m) e <= IZR (Count st) * 100)%R).
    { rewrite mult_IZR in Hmul. lra. }
    specialize (Hdiv Hle'). unfold nonneg_below.
    destruct (SFdiv prec emax (S754_finite false m e) (S754_finite false mC eC));
      assumption.
Qed.

Lemma successPct_range_witness :
  let st := mkStats 3 2 10000000 20000000 15000000 15000000 19500000 [] [] in
  nonneg_below (Prim2SF (successPct st)) 100.
Proof.
  intros st. apply (successPct_range st); cbn; lia.
Defined.

(* ================================================================= *)
(** ** Further properties of [parseResolvers] *)

Lemma parseResolvers_segments (s : string) :
  parseResolvers s = flat_map parse_segment (split_on "," s).
Proof.
  unfold parseResolvers. change "," with (String "," "") at 1.
  rewrite Split_split_on. rewrite parseResolvers_loop. reflexivity.
Qed.

Lemma split_on_nonempty (c : ascii) (s : string) : split_on c s <> [].
Proof.
  destruct s as [|a s]; cbn [split_on]; [discriminate|].
  destruct (Ascii.eqb a c); [discriminate|].
  destruct (split_on c s); discriminate.
Qed.

Lemma split_on_app_sep (c : ascii) (a b : string) :
  split_on c (a +:+ String c b) = split_on c a ++ split_on c b.
Proof.
  induction a as [|x a IH]; rewrite ?append_nil, ?append_cons; cbn [split_on].
  - rewrite Ascii.eqb_refl. reflexivity.
  - destruct (Ascii.eqb x c); [rewrite IH; reflexivity|].
    rewrite IH. pose proof (split_on_nonempty c a) as Hne.
    destruct (split_on c a) as [|seg segs]; [contradiction|reflexivity].
Qed.

(** X9. [parseResolvers] works segment by segment: the resolvers of two
    lists joined by a comma are the resolvers of the first followed by
    those of the second, so no segment changes how another is read. *)
Theorem parseResolvers_app (a b : string) :
  parseResolvers (a +:+ "," +:+ b) = parseResolvers a ++ parseResolvers b.
Proof.
  rewrite !parseResolvers_segments.
  change ("," +:+ b) with (String "," b).
  rewrite split_on_app_sep. apply flat_map_app.
Qed.

Lemma all_bytes_app f (a b : string) :
  all_bytes f (a +:+ b) = all_bytes f a && all_bytes f b.
Proof.
  induction a as [|x a IH]; rewrite ?append_nil, ?append_cons; cbn [all_bytes]; [reflexivity|].
  rewrite IH, andb_assoc. reflexivity.
Qed.

Lemma all_bytes_impl (f g : ascii -> bool) (s : string) :
  (forall c, f c = true -> g c = true) ->
  all_bytes f s = true -> all_bytes g s = true.
Proof.
  intros Hfg. induction s as [|x s IH]; cbn [all_bytes]; [reflexivity|].
  intros H. apply andb_true_iff in H. destruct H as [Hx Hs].
  rewrite (Hfg _ Hx), (IH Hs). reflexivity.
Qed.

Lemma all_bytes_slice_from f (n : nat) : forall s,
  all_bytes f s = true -> all_bytes f (slice_from n s) = true.
Proof.
  induction n as [|n IH]; intros s H; [destruct s; exact H|].
  destruct s as [|x s]; [exact H|]. cbn [slice_from].
  cbn [all_bytes] in H. apply andb_true_iff in H. apply IH, H.
Qed.

Lemma all_bytes_prefix f (w : string) : forall s,
  String.prefix w s = true -> all_bytes f s = true -> all_bytes f w = true.
Proof.
  induction w as [|a w IH]; intros s Hp Hs; [reflexivity|].
  destruct s as [|b s]; [discriminate|]. cbn [String.prefix] in Hp.
  destruct (ascii_dec a b) as [->|]; [|discriminate].
  cbn [all_bytes] in *. apply andb_true_iff in Hs. destruct Hs as [Hb Hs].
  rewrite Hb. exact (IH s Hp Hs).
Qed.

Lemma all_bytes_get f (s : string) : forall n c,
  all_bytes f s = true -> String.get n s = Some c -> f c = true.
Proof.
  induction s as [|x s IH]; intros n c H Hg; [discriminate|].
  cbn [all_bytes] in H. apply andb_true_iff in H. destruct H as [Hx Hs].
  destruct n as [|n]; cbn [String.get] in Hg.
  - injection Hg as <-. exact Hx.
  - exact (IH n c Hs Hg).
Qed.

(** No white-space rune above U+007F is made of ASCII bytes. *)
Lemma unicodeSpace_not_plain w :
  In w unicodeSpace -> all_bytes plain w = false.
Proof.
  unfold unicodeSpace. cbn [map In].
  intros H. repeat (destruct H as [<-|H]; [reflexivity|]). destruct H.
Qed.

Lemma plain_not_space c : plain c = true -> asciiSpace c = false.
Proof.
  unfold plain. intros H. apply andb_true_iff in H. destruct H as [_ H].
  apply negb_true_iff, H.
Qed.

Lemma leadingSpace_plain (s : string) :
  all_bytes plain s = true -> leadingSpace s = None.
Proof.
  intros H. destruct s as [|c s]; [reflexivity|]. unfold leadingSpace.
  pose proof H as Hc. cbn [all_bytes] in Hc. apply andb_true_iff in Hc.
  rewrite (plain_not_space c (proj1 Hc)).
  destruct (find (fun w => String.prefix w (String c s)) unicodeSpace) as [w|] eqn:F;
    [|reflexivity].
  apply find_some in F. destruct F as [Hin Hp].
  pose proof (unicodeSpace_not_plain w Hin) as Hw.
  rewrite (all_bytes_prefix plain w _ Hp H) in Hw. discriminate.
Qed.

Lemma trailingSpace_plain (s : string) :
  all_bytes plain s = true -> trailingSpace s = None.
Proof.
  intros H. unfold trailingSpace.
  destruct (String.get (String.length s - 1) s) as [c|] eqn:Hg; [|reflexivity].
  rewrite (plain_not_space c (all_bytes_get plain s _ c H Hg)).
  destruct (find (fun w => HasSuffix s w) unicodeSpace) as [w|] eqn:F; [|reflexivity].
  apply find_some in F. destruct F as [Hin Hp].
  unfold HasSuffix in Hp. apply andb_true_iff in Hp. destruct Hp as [_ Hp].
  apply String.eqb_eq in Hp.
  pose proof (all_bytes_slice_from plain (String.length s - String.length w) s H) as Hw.
  rewrite Hp, (unicodeSpace_not_plain w Hin) in Hw. discriminate.
Qed.

(** [strings.TrimSpace] leaves a string of such bytes as it is. *)
Lemma TrimSpace_plain (s : string) : all_bytes plain s = true -> TrimSpace s = s.
Proof.
  intros H. unfold TrimSpace.
  assert (HL : TrimLeft_loop (String.length s) s = s).
  { destruct (String.length s); cbn [TrimLeft_loop]; [reflexivity|].
    rewrite (leadingSpace_plain s H). reflexivity. }
  rewrite HL. destruct (String.length s); cbn [TrimRight_loop]; [reflexivity|].
  rewrite (trailingSpace_plain s H). reflexivity.
Qed.

Lemma cut_first_app (c : ascii) (a b : string) :
  all_bytes (fun x => negb (Ascii.eqb x c)) a = true ->
  cut_first c (a +:+ String c b) = Some (a, b).
Proof.
  induction a as [|x a IH]; rewrite ?append_nil, ?append_cons; cbn [cut_first all_bytes]; intros H.
  - rewrite Ascii.eqb_refl. reflexivity.
  - apply andb_true_iff in H. destruct H as [Hx Ha].
    apply negb_true_iff in Hx. rewrite Hx, (IH Ha). reflexivity.
Qed.

Lemma split_on_no_sep (c : ascii) (a : string) :
  all_bytes (fun x => negb (Ascii.eqb x c)) a = true -> split_on c a = [a].
Proof.
  induction a as [|x a IH]; cbn [split_on all_bytes]; intros H; [reflexivity|].
  apply andb_true_iff in H. destruct H as [Hx Ha].
  apply negb_true_iff in Hx. rewrite Hx, (IH Ha). reflexivity.
Qed.

Lemma split_on_concat (c : ascii) (segs : list string) :
  segs <> [] ->
  Forall (fun seg => all_bytes (fun x => negb (Ascii.eqb x c)) seg = true) segs ->
  split_on c (String.concat (String c "") segs) = segs.
Proof.
  induction segs as [|seg segs IH]; intros Hne Hall; [contradiction|].
  inversion Hall as [|? ? Hseg Hsegs]; subst.
  destruct segs as [|seg' segs].
  - cbn [String.concat]. apply split_on_no_sep, Hseg.
  - change (String.concat (String c "") (seg :: seg' :: segs))
      with (seg +:+ String c (String.concat (String c "") (seg' :: segs))).
    rewrite split_on_app_sep, (split_on_no_sep c seg Hseg).
    rewrite IH by (discriminate || exact Hsegs). reflexivity.
Qed.

Lemma parse_segment_format (r : ResolverCfg) :
  well_formed r = true -> parse_segment (format_resolver r) = [r].
Proof.
  unfold well_formed, format_resolver. intros H.
  apply andb_true_iff in H. destruct H as [HN HA].
  assert (HNp : all_bytes plain (Name r) = true).
  { revert HN. apply all_bytes_impl. intros c Hc.
    apply andb_true_iff in Hc. destruct Hc as [Hc _].
    apply andb_true_iff in Hc. apply Hc. }
  assert (HAp : all_bytes plain (Addr r) = true).
  { revert HA. apply all_bytes_impl. intros c Hc.
    apply andb_true_iff in Hc. apply Hc. }
  assert (HNe : all_bytes (fun x => negb (Ascii.eqb x "=")) (Name r) = true).
  { revert HN. apply all_bytes_impl. intros c Hc.
    apply andb_true_iff in Hc. apply Hc. }
  unfold parse_segment.
  rewrite TrimSpace_plain
    by (rewrite !all_bytes_app, HNp, HAp; reflexivity).
  change ("=" +:+ Addr r) with (String "=" (Addr r)).
  rewrite (cut_first_app "=" _ _ HNe).
  rewrite (TrimSpace_plain _ HNp), (TrimSpace_plain _ HAp).
  destruct (String.eqb_spec (Name r +:+ String "=" (Addr r)) "") as [E|_].
  - destruct (Name r); discriminate.
  - destruct r; reflexivity.
Qed.

Lemma format_resolver_no_comma (r : ResolverCfg) :
  well_formed r = true ->
  all_bytes (fun x => negb (Ascii.eqb x ",")) (format_resolver r) = true.
Proof.
  unfold well_formed, format_resolver. intros H.
  apply andb_true_iff in H. destruct H as [HN HA].
  rewrite !all_bytes_app. apply andb_true_iff. split; [|apply andb_true_iff; split].
  - revert HN. apply all_bytes_impl. intros c Hc.
    apply andb_true_iff in Hc. destruct Hc as [Hc _].
    apply andb_true_iff in Hc. apply Hc.
  - reflexivity.
  - revert HA. apply all_bytes_impl. intros c Hc.
    apply andb_true_iff in Hc. apply Hc.
Qed.

(** X10. Every list of resolvers can be passed on the command line:
    written as [Name=Addr] joined by commas, a list whose names and
    addresses are ASCII without white space and commas (and without [=]
    in the names) is what [parseResolvers] reads back, in the same
    order. *)
Theorem parseResolvers_format (l : list ResolverCfg) :
  Forall (fun r => well_formed r = true) l ->
  parseResolvers (format_resolvers l) = l.
Proof.
  intros Hwf. rewrite parseResolvers_segments. unfold format_resolvers.
  destruct l as [|r l]; [reflexivity|].
  change "," with (String "," "") at 1.
  rewrite split_on_concat.
  - clear -Hwf. induction Hwf as [|r' l' Hr _ IH]; [reflexivity|].
    cbn [map flat_map]. rewrite (parse_segment_format r' Hr), IH. reflexivity.
  - discriminate.
  - clear -Hwf. induction Hwf as [|r' l' Hr _ IH]; cbn [map]; constructor;
      [apply format_resolver_no_comma, Hr | exact IH].
Qed.

Lemma parseResolvers_format_witness :
  let l := [mkResolverCfg "Cloudflare" "1.1.1.1"; mkResolverCfg "Local" "[::1]:5353"] in
  Forall (fun r => well_formed r = true) l /\
  parseResolvers "Cloudflare=1.1.1.1,Local=[::1]:5353" = l.
Proof.
  intros l.
  assert (Hwf : Forall (fun r => well_formed r = true) l)
    by (repeat constructor).
  split; [exact Hwf|]. exact (parseResolvers_format l Hwf).
Defined.

(* ================================================================= *)
(** ** [randomLabel] *)

(** The two digits that the loop of [randomLabel] writes for the byte [v]. *)
Lemma hex_of_byte (v : ascii) :
  exists h l,
    hexdigit (nat_of_ascii v / 16) +:+ hexdigit (nat_of_ascii v mod 16)
      = String h (String l "") /\
    isHexDigit h = true /\ isHexDigit l = true /\
    ascii_of_nat (16 * unhex_digit h + unhex_digit l) = v.
Proof.
  destruct v as [[] [] [] [] [] [] [] []];
    eexists; eexists; (split; [vm_compute; reflexivity|]);
    vm_compute; repeat split.
Qed.

Lemma randomLabel_loop (b : list ascii) : forall acc,
  fold_left
    (fun hex v =>
       hex +:+ hexdigit (nat_of_ascii v / 16) +:+ hexdigit (nat_of_ascii v mod 16))
    b acc = acc +:+ randomLabel b.
Proof.
  unfold randomLabel. induction b as [|v b IH]; intros acc; cbn [fold_left].
  - rewrite append_nil_r. reflexivity.
  - rewrite IH, (IH ("" +:+ _)). rewrite append_nil, append_assoc. reflexivity.
Qed.

Lemma randomLabel_cons (v : ascii) (b : list ascii) :
  randomLabel (v :: b) =
  (hexdigit (nat_of_ascii v / 16) +:+ hexdigit (nat_of_ascii v mod 16)) +:+ randomLabel b.
Proof.
  unfold randomLabel at 1. cbn [fold_left]. rewrite randomLabel_loop, append_nil.
  reflexivity.
Qed.

Lemma length_rand8 (delivered : list ascii) : length (rand8 delivered) = 8%nat.
Proof.
  unfold rand8. rewrite length_firstn, length_app, repeat_length. lia.
Qed.

Lemma randomLabel_digits (b : list ascii) :
  String.length (randomLabel b) = (2 * length b)%nat /\
  all_bytes isHexDigit (randomLabel b) = true /\
  unhex (randomLabel b) = b.
Proof.
  induction b as [|v b (IHl & IHh & IHu)]; [repeat split|].
  rewrite randomLabel_cons.
  destruct (hex_of_byte v) as (h & l & -> & Hh & Hl & Hv).
  rewrite !append_cons, append_nil. cbn [String.length all_bytes unhex length].
  rewrite IHl, IHh, IHu, Hh, Hl, Hv. repeat split. lia.
Qed.

(** X11. [randomLabel] writes every byte as two lower-case hexadecimal
    digits, the high half first: the label has twice as many characters as
    there are bytes (16 for the 8 random bytes of a cold query), all of
    them among [0-9a-f], and reading the digits back gives the bytes, so
    that different random bytes always make different labels. *)
Theorem randomLabel_hex :
  (forall b, String.length (randomLabel b) = (2 * length b)%nat /\
             all_bytes isHexDigit (randomLabel b) = true /\
             unhex (randomLabel b) = b) /\
  (forall b b', randomLabel b = randomLabel b' -> b = b') /\
  (forall delivered, String.length (randomLabel (rand8 delivered)) = 16%nat).
Proof.
  split; [exact randomLabel_digits|]. split.
  - intros b b' E.
    rewrite <- (proj2 (proj2 (randomLabel_digits b))),
            <- (proj2 (proj2 (randomLabel_digits b'))), E.
    reflexivity.
  - intros delivered. rewrite (proj1 (randomLabel_digits _)), length_rand8. reflexivity.
Qed.

(* ================================================================= *)
(** ** [writeCSV] *)

Lemma csv_summary_row_fields (r : Row) :
  let s := Row_Stats r in
  csv_summary_row r =
  Ok [Row_Name r; decimal (Count s); decimal (Successes s);
      csv_ms (Min s); csv_ms (Avg s); csv_ms (Median s); csv_ms (P95 s);
      csv_ms (Max s);
      String.concat " | " (distinct_in_order (messages (Errors s)))].
Proof.
  intros s. unfold csv_summary_row. fold s.
  destruct (Z.ltb_spec 0 (len (Errors s))) as [Hpos|Hzero].
  - rewrite errorStrings_uniqueErrors. reflexivity.
  - assert (E : Errors s = []).
    { apply len_nil_iff. pose proof (len_nonneg (Errors s)). lia. }
    rewrite E. reflexivity.
Qed.

Lemma imap_fields {A B : Type} (P : B -> Prop) (l : list A) : forall f : nat -> A -> B,
  (forall i a, P (f i a)) ->
  Forall P (imap f l) /\ length (imap f l) = length l.
Proof.
  induction l as [|a l IH]; intros f Hf; cbn [imap length].
  - split; [constructor | reflexivity].
  - destruct (IH (f ∘ S)) as [H1 H2]; [intros i a'; apply Hf|].
    split; [constructor; [apply Hf | exact H1] | rewrite H2; reflexivity].
Qed.

(** X12. [writeCSV] never panics while it builds its records (the error
    messages are taken after [uniqueErrors], which drops nil), and the
    records are: the summary header, one summary record of nine fields per
    row, which starts with the resolver's name and ends with its distinct
    error messages joined by [" | "], an empty record, the header of the
    samples, and one record of four fields for every sample of every
    row. *)
Theorem csv_records_shape (rows : list Row) :
  exists summary,
    csv_records rows =
      Ok ([["resolver"; "count"; "successes"; "min_ms"; "avg_ms"; "median_ms";
            "p95_ms"; "max_ms"; "errors"]]
          ++ summary ++ [[]] ++ [["resolver"; "run_index"; "duration_ms"; "error"]]
          ++ concat (map csv_sample_rows rows)) /\
    Forall2 (fun r fields =>
               length fields = 9%nat /\ nth 0 fields "" = Row_Name r /\
               nth 8 fields ""
               = String.concat " | " (distinct_in_order (messages (Errors (Row_Stats r)))))
            rows summary /\
    Forall (fun fields => length fields = 4%nat) (concat (map csv_sample_rows rows)) /\
    length (concat (map csv_sample_rows rows))
    = list_sum (map (fun r => length (Row_Samples r)) rows).
Proof.
  assert (Hs : exists summary,
            mapM csv_summary_row rows = Ok summary /\
            Forall2 (fun r fields =>
               length fields = 9%nat /\ nth 0 fields "" = Row_Name r /\
               nth 8 fields ""
               = String.concat " | " (distinct_in_order (messages (Errors (Row_Stats r)))))
            rows summary).
  { induction rows as [|r rows (summary & IH & IHf)].
    - exists []. split; [reflexivity | constructor].
    - eexists. cbn [mapM]. rewrite csv_summary_row_fields. cbn [mbind result_bind].
      rewrite IH. cbn [mbind result_bind mret result_ret].
      split; [reflexivity|]. constructor; [repeat split | exact IHf]. }
  destruct Hs as (summary & Hm & Hf). exists summary.
  unfold csv_records. rewrite Hm. split; [reflexivity|]. split; [exact Hf|].
  clear. induction rows as [|r rows [IH1 IH2]]; cbn [map concat list_sum].
  - split; [constructor | reflexivity].
  - unfold csv_sample_rows at 1 3.
    match goal with
    | |- context [imap ?f (Row_Samples r)] =>
        destruct (imap_fields (fun fields : list string => length fields = 4%nat)
                    (Row_Samples r) f) as [H1 H2]; [intros i a; reflexivity|]
    end.
    split.
    + apply Forall_app. split; [exact H1 | exact IH1].
    + rewrite length_app, H2, IH2. reflexivity.
Qed.

(* ================================================================= *)
(** ** Further properties of [main] *)

Lemma IO_bind_Panicked {A B : Type} (m : IO A) (k : A -> IO B) (w w' : World) (p : panic) :
  m w = (Panicked p, w') -> (m ≫= k) w = (Panicked p, w').
Proof.
  intros H. unfold mbind, IO_bind. rewrite H. reflexivity.
Qed.

Lemma IO_bind_Exited {A B : Type} (m : IO A) (k : A -> IO B) (w w' : World) (c : Z) :
  m w = (Exited c, w') -> (m ≫= k) w = (Exited c, w').
Proof.
  intros H. unfold mbind, IO_bind. rewrite H. reflexivity.
Qed.

(** The inner loop of [main]: [k] lookups one after the other, their
    samples appended in that order, nothing printed. *)
Lemma queries_samples (env : Env) (fl : Flags) (r : ResolverCfg) (k : nat) :
  forall samples w,
    queries env fl r k samples w =
    (Return (samples ++ map (sample_at env fl r) (seq (lookups w) k)),
     mkWorld (stdout w) (stderr w) (lookups w + k)).
Proof.
  induction k as [|k IH]; intros samples w; cbn [queries].
  - cbn [seq map]. rewrite app_nil_r, Nat.add_0_r. destruct w; reflexivity.
  - unfold mbind, IO_bind, query. lazy beta zeta iota.
    rewrite IH. cbn [lookups stdout stderr seq map].
    rewrite <- app_assoc. cbn [app].
    replace (S (lookups w) + k)%nat with (lookups w + S k)%nat by lia.
    reflexivity.
Qed.

(** The body of the loop over the resolvers. *)
Lemma benchmark_row_eq (env : Env) (fl : Flags) (rows : list Row) (r : ResolverCfg)
    (w : World) :
  0 <= count fl -> 24 * count fl <= maxAlloc ->
  let samples := map (sample_at env fl r) (seq (lookups w) (Z.to_nat (count fl))) in
  exists st,
    summarize samples = Ok st /\
    benchmark env fl rows r w =
    (Return (rows ++ [mkRow (Name r) st samples]),
     mkWorld (stdout w) (stderr w) (lookups w + Z.to_nat (count fl))).
Proof.
  intros H0 Hmax samples.
  assert (Ha : allocatable 24 samples).
  { unfold allocatable, len, samples. rewrite length_map, length_seq. lia. }
  destruct (summarize_Ok samples Ha) as (st & Hst & _).
  exists st. split; [exact Hst|].
  unfold benchmark, make_Samples.
  destruct (Z.ltb_spec (count fl) 0); [lia|].
  destruct (Z.ltb_spec maxAlloc (24 * count fl)); [lia|]. cbn [orb].
  unfold mbind at 1, IO_bind at 1. cbn [lift].
  unfold mbind at 1, IO_bind at 1. rewrite queries_samples. cbn [app]. fold samples.
  unfold mbind at 1, IO_bind at 1. rewrite Hst. reflexivity.
Qed.

(** X13. The body of the loop over the resolvers, for a number of runs
    that [make] accepts: the resolver is asked [count] times, one lookup
    after the other; the samples are kept in the order of the lookups;
    the new row carries the resolver's name, these samples and their
    statistics and comes after the rows of the resolvers before; nothing
    is printed meanwhile. *)
Theorem benchmark_row (env : Env) (fl : Flags) (rows : list Row) (r : ResolverCfg)
    (w : World) :
  0 <= count fl -> 24 * count fl <= maxAlloc ->
  let samples := map (sample_at env fl r) (seq (lookups w) (Z.to_nat (count fl))) in
  exists st,
    summarize samples = Ok st /\
    benchmark env fl rows r w =
    (Return (rows ++ [mkRow (Name r) st samples]),
     mkWorld (stdout w) (stderr w) (lookups w + Z.to_nat (count fl))).
Proof. exact (benchmark_row_eq env fl rows r w). Qed.

Lemma benchmark_row_witness :
  let env := mkEnv (fun s => s) (fun _ _ _ _ _ => None) (fun n => 1000000 * Z.of_nat (S n))
                   (fun _ => []) (fun _ _ => None) in
  let fl := mkFlags "example.com" 2 1500000000 "ip4" false "A=1.1.1.1" "" in
  exists st,
    benchmark env fl [] (mkResolverCfg "A" "1.1.1.1") (mkWorld [] [] O) =
    (Return [mkRow "A" st [mkSample 1000000 None; mkSample 2000000 None]],
     mkWorld [] [] 2).
Proof.
  intros env fl.
  destruct (benchmark_row env fl [] (mkResolverCfg "A" "1.1.1.1") (mkWorld [] [] O))
    as (st & _ & H).
  - cbn. lia.
  - vm_compute. discriminate.
  - exists st. exact H.
Defined.

(** The loop over the resolvers. *)
Lemma main_loop (env : Env) (fl : Flags) (resolvers : list ResolverCfg) :
  0 <= count fl -> 24 * count fl <= maxAlloc ->
  forall (io : IO (list Row)) (w w0 : World) (rows0 : list Row),
    io w = (Return rows0, w0) ->
    exists rows,
      benchmarked env fl (lookups w0) resolvers rows /\
      fold_left (fun io r => rows ← io; benchmark env fl rows r) resolvers io w =
      (Return (rows0 ++ rows),
       mkWorld (stdout w0) (stderr w0)
               (lookups w0 + length resolvers * Z.to_nat (count fl))).
Proof.
  intros H0 Hmax.
  induction resolvers as [|r rs IH]; intros io w w0 rows0 Hio; cbn [fold_left].
  - exists []. split; [exact I|]. rewrite app_nil_r, Hio, Nat.add_0_r.
    destruct w0; reflexivity.
  - destruct (benchmark_row_eq env fl rows0 r w0 H0 Hmax) as (st & Hst & Hb).
    edestruct (IH (io ≫= (fun rows => benchmark env fl rows r)) w) as (rows & Hrows & Hfold).
    { rewrite (IO_bind_Return _ _ _ _ _ Hio). exact Hb. }
    cbn [lookups stdout stderr] in Hrows, Hfold.
    exists (mkRow (Name r) st
              (map (sample_at env fl r) (seq (lookups w0) (Z.to_nat (count fl)))) :: rows).
    split.
    + cbn [benchmarked Row_Name Row_Samples Row_Stats].
      split; [reflexivity|]. split; [reflexivity|]. split; [exact Hst | exact Hrows].
    + rewrite Hfold, <- app_assoc. cbn [app length].
      replace (lookups w0 + Z.to_nat (count fl) + length rs * Z.to_nat (count fl))%nat
        with (lookups w0 + (S (length rs)) * Z.to_nat (count fl))%nat by lia.
      reflexivity.
Qed.

Lemma prints_print (o : output) : prints (print o) [o].
Proof. intros w. reflexivity. Qed.

Lemma prints_mret : prints (mret tt) [].
Proof. intros w. unfold mret, IO_ret. rewrite app_nil_r. destruct w; reflexivity. Qed.

Lemma prints_bind (m : IO unit) (k : unit -> IO unit) (out1 out2 : list output) :
  prints m out1 -> prints (k tt) out2 -> prints (m ≫= k) (out1 ++ out2).
Proof.
  intros Hm Hk w. rewrite (IO_bind_Return _ _ _ _ _ (Hm w)), Hk.
  cbn [stdout stderr lookups]. rewrite app_assoc. reflexivity.
Qed.

Lemma prints_fold {A : Type} (f : A -> IO unit) (g : A -> list output) (l : list A) :
  (forall a, prints (f a) (g a)) ->
  forall (io : IO unit) (out : list output),
    prints io out ->
    prints (fold_left (fun io a => _ ← io; f a) l io) (out ++ flat_map g l).
Proof.
  intros Hf. induction l as [|a l IH]; intros io out Hio; cbn [fold_left flat_map].
  - rewrite app_nil_r. exact Hio.
  - rewrite app_assoc. apply IH. apply prints_bind; [exact Hio | apply Hf].
Qed.

Lemma prints_printTable_row (r : Row) : exists out, prints (printTable_row r) out.
Proof.
  unfold printTable_row.
  destruct (0 <? len (Errors (Row_Stats r))); eexists;
    (apply prints_bind; [apply prints_print|]).
  - apply (prints_fold (fun e => print (Printf ("  ! %s" +:+ LF) [ArgError e]))
                       (fun e => [Printf ("  ! %s" +:+ LF) [ArgError e]])).
    + intros e. apply prints_print.
    + apply prints_mret.
  - apply prints_mret.
Qed.

(** [printTable] only appends to standard output, and what it appends
    depends on the rows alone. *)
Lemma prints_printTable (rows : list Row) : prints (printTable rows) (table_of rows).
Proof.
  assert (H : exists out, prints (printTable rows) out).
  { unfold printTable. 
    assert (Hrows : forall (io : IO unit) out0, prints io out0 ->
              exists out, prints (fold_left (fun io r => _ ← io; printTable_row r) rows io) out).
    { induction rows as [|r rows IH]; intros io out0 Hio; cbn [fold_left].
      - exists out0. exact Hio.
      - destruct (prints_printTable_row r) as [outr Hr].
        apply (IH _ (out0 ++ outr)). apply prints_bind; [exact Hio | exact Hr]. }
    destruct (Hrows (mret tt) [] prints_mret) as [out Hout].
    eexists. apply prints_bind; [apply prints_print|].
    apply prints_bind; [apply prints_print | exact Hout]. }
  destruct H as [out Hout].
  assert (E : table_of rows = out).
  { unfold table_of. rewrite Hout. reflexivity. }
  rewrite E. exact Hout.
Qed.

Lemma bind_mret_tt {B : Type} (k : unit -> IO B) (w : World) :
  (mret tt ≫= k) w = k tt w.
Proof. reflexivity. Qed.

Lemma bind_print {B : Type} (o : output) (k : unit -> IO B) (w : World) :
  (print o ≫= k) w = k tt (mkWorld (stdout w ++ [o]) (stderr w) (lookups w)).
Proof. reflexivity. Qed.

Lemma bind_lift_Ok {A B : Type} (a : A) (k : A -> IO B) (w : World) :
  (lift (Ok a) ≫= k) w = k a w.
Proof. reflexivity. Qed.

(** [main] up to the end of [printTable]. *)
Lemma main_table (env : Env) (fl : Flags) :
  parseResolvers (resolversCSV fl) <> [] ->
  0 <= count fl -> 24 * count fl <= maxAlloc ->
  exists rows,
    benchmarked env fl O (parseResolvers (resolversCSV fl)) rows /\
      run env fl =
      ((if negb (String.eqb (outCSV fl) "") then
          err ← lift (writeCSV env (outCSV fl) rows);
          match err with
          | Some _ =>
              _ ← eprint (Printf ("CSV write error: %v" +:+ LF) [ArgError err]);
              os_Exit 1
          | None =>
              print (Printf (LF +:+ "CSV written to: %s" +:+ LF) [ArgString (outCSV fl)])
          end
        else mret tt)
         (mkWorld (banner fl ++ table_of rows) []
            (length (parseResolvers (resolversCSV fl)) * Z.to_nat (count fl)))).
Proof.
  intros Hres H0 Hmax.
  set (resolvers := parseResolvers (resolversCSV fl)) in *.
  pose (w3 := mkWorld (banner fl) [] O).
  destruct (main_loop env fl resolvers H0 Hmax (mret []) w3 w3 [] eq_refl)
    as (rows & Hrows & Hfold).
  exists rows. split; [exact Hrows|].
  unfold run, main. fold resolvers.
  destruct (Z.eqb_spec (len resolvers) 0) as [E|_];
    [apply len_nil_iff in E; contradiction|].
  rewrite bind_mret_tt, !bind_print.
  cbn [stdout stderr lookups app].
  change (mkWorld _ [] O) with w3 at 1.
  rewrite (IO_bind_Return _ _ _ _ _ Hfold).
  rewrite (IO_bind_Return _ _ _ _ _ (prints_printTable rows _)).
  cbn [stdout stderr lookups app]. reflexivity.
Qed.

(** X14. A run that completes.  With at least one resolver, a number of
    runs that [make] accepts and no failure while writing the CSV file (or
    no CSV file asked for), [main] returns normally, so the exit status is
    0 whatever the lookups answered.  Every resolver was asked [count]
    times, in the order of the command line, all lookups of one resolver
    before the first lookup of the next; standard output holds the
    banner, then the table of these rows, then the line about the CSV
    file when one was written; standard error is empty. *)
Theorem main_completes (env : Env) (fl : Flags) :
  parseResolvers (resolversCSV fl) <> [] ->
  0 <= count fl -> 24 * count fl <= maxAlloc ->
  (outCSV fl = "" \/ forall records, writeRecords env (outCSV fl) records = None) ->
  exists rows,
    benchmarked env fl O (parseResolvers (resolversCSV fl)) rows /\
    run env fl =
    (Return tt,
     mkWorld (banner fl ++ table_of rows ++
              (if String.eqb (outCSV fl) "" then []
               else [Printf (LF +:+ "CSV written to: %s" +:+ LF) [ArgString (outCSV fl)]]))
             []
             (length (parseResolvers (resolversCSV fl)) * Z.to_nat (count fl))) /\
    exit_code (run env fl) = 0.
Proof.
  intros Hres H0 Hmax Hcsv.
  destruct (main_table env fl Hres H0 Hmax) as (rows & Hrows & Hrun).
  exists rows. split; [exact Hrows|].
  assert (H : run env fl =
    (Return tt,
     mkWorld (banner fl ++ table_of rows ++
              (if String.eqb (outCSV fl) "" then []
               else [Printf (LF +:+ "CSV written to: %s" +:+ LF) [ArgString (outCSV fl)]]))
             []
             (length (parseResolvers (resolversCSV fl)) * Z.to_nat (count fl)))).
  { rewrite Hrun. destruct (String.eqb_spec (outCSV fl) "") as [E|Hne]; cbn [negb].
    - rewrite !app_nil_r. reflexivity.
    - destruct Hcsv as [E|Hnone]; [contradiction|].
      unfold writeCSV. destruct (csv_records_Ok rows) as [records Hr].
      rewrite Hr. cbn [mbind result_bind]. rewrite Hnone.
      rewrite bind_lift_Ok. unfold print. cbn [stdout stderr lookups].
      rewrite <- app_assoc. reflexivity. }
  split; [exact H|]. rewrite H. reflexivity.
Qed.

Lemma main_completes_witness :
  let env := mkEnv (fun s => s) (fun _ _ _ _ _ => None) (fun n => 1000000 * Z.of_nat (S n))
                   (fun _ => []) (fun _ _ => None) in
  let fl := mkFlags "example.com" 2 1500000000 "ip4" false "A=1.1.1.1,B=8.8.8.8" "" in
  exit_code (run env fl) = 0 /\ lookups (run env fl).2 = 4%nat /\ stderr (run env fl).2 = [].
Proof.
  intros env fl.
  destruct (main_completes env fl) as (rows & _ & Hrun & Hexit).
  - vm_compute. discriminate.
  - cbn. lia.
  - vm_compute. discriminate.
  - left. reflexivity.
  - split; [exact Hexit|]. rewrite Hrun. split; reflexivity.
Defined.

(** X15. A run whose CSV file cannot be written.  The failure is only
    met after the benchmark: every lookup has been made and the table is
    on standard output; then the one line [CSV write error: ...] goes to
    standard error and the process exits with status 1, without the line
    [CSV written to]. *)
Theorem main_csv_failure (env : Env) (fl : Flags) (e : errorValue) :
  parseResolvers (resolversCSV fl) <> [] ->
  0 <= count fl -> 24 * count fl <= maxAlloc ->
  outCSV fl <> "" ->
  (forall records, writeRecords env (outCSV fl) records = Some e) ->
  exists rows,
    benchmarked env fl O (parseResolvers (resolversCSV fl)) rows /\
    run env fl =
    (Exited 1,
     mkWorld (banner fl ++ table_of rows)
             [Printf ("CSV write error: %v" +:+ LF) [ArgError (Some e)]]
             (length (parseResolvers (resolversCSV fl)) * Z.to_nat (count fl))) /\
    exit_code (run env fl) = 1.
Proof.
  intros Hres H0 Hmax Hout Hcsv.
  destruct (main_table env fl Hres H0 Hmax) as (rows & Hrows & Hrun).
  exists rows. split; [exact Hrows|].
  assert (H : run env fl =
    (Exited 1,
     mkWorld (banner fl ++ table_of rows)
             [Printf ("CSV write error: %v" +:+ LF) [ArgError (Some e)]]
             (length (parseResolvers (resolversCSV fl)) * Z.to_nat (count fl)))).
  { rewrite Hrun. destruct (String.eqb_spec (outCSV fl) "") as [E|_]; [contradiction|].
    cbn [negb]. unfold writeCSV. destruct (csv_records_Ok rows) as [records Hr].
    rewrite Hr. cbn [mbind result_bind]. rewrite Hcsv.
    rewrite bind_lift_Ok. reflexivity. }
  split; [exact H|]. rewrite H. reflexivity.
Qed.

Lemma main_csv_failure_witness :
  let e := mkError "*fs.PathError" "open /nowhere/out.csv: no such file or directory" in
  let env := mkEnv (fun s => s) (fun _ _ _ _ _ => None) (fun n => 1000000 * Z.of_nat (S n))
                   (fun _ => []) (fun _ _ => Some e) in
  let fl := mkFlags "example.com" 2 1500000000 "ip4" false "A=1.1.1.1"
                    "/nowhere/out.csv" in
  exit_code (run env fl) = 1 /\ lookups (run env fl).2 = 2%nat /\
  stderr (run env fl).2 = [Printf ("CSV write error: %v" +:+ LF) [ArgError (Some e)]].
Proof.
  intros e env fl.
  destruct (main_csv_failure env fl e) as (rows & _ & Hrun & Hexit).
  - vm_compute. discriminate.
  - cbn. lia.
  - vm_compute. discriminate.
  - discriminate.
  - intros records. reflexivity.
  - split; [exact Hexit|]. rewrite Hrun. split; reflexivity.
Defined.

Lemma fold_benchmark_Panicked (env : Env) (fl : Flags) (p : panic)
    (resolvers : list ResolverCfg) :
  forall (io : IO (list Row)) (w w' : World),
    io w = (Panicked p, w') ->
    fold_left (fun io r => rows ← io; benchmark env fl rows r) resolvers io w
    = (Panicked p, w').
Proof.
  induction resolvers as [|r rs IH]; intros io w w' Hio; cbn [fold_left]; [exact Hio|].
  apply IH. apply IO_bind_Panicked, Hio.
Qed.

(** X16. A negative number of runs.  With [-count] below zero and at
    least one resolver, [main] prints the banner and then panics in the
    first [make([]Sample, 0, count)]: no lookup is made, no table is
    printed, and the process ends with status 2. *)
Theorem main_count_negative (env : Env) (fl : Flags) :
  parseResolvers (resolversCSV fl) <> [] -> count fl < 0 ->
  run env fl = (Panicked MakesliceCapOutOfRange, mkWorld (banner fl) [] O) /\
  exit_code (run env fl) = 2.
Proof.
  intros Hres Hneg.
  assert (H : run env fl = (Panicked MakesliceCapOutOfRange, mkWorld (banner fl) [] O)).
  { unfold run, main.
    destruct (parseResolvers (resolversCSV fl)) as [|r rs]; [contradiction|].
    change (len (r :: rs) =? 0) with (Z.pos (Pos.of_succ_nat (length rs)) =? 0).
    cbn [Z.eqb]. rewrite bind_mret_tt, !bind_print. cbn [stdout stderr lookups app].
    apply IO_bind_Panicked. cbn [fold_left].
    apply fold_benchmark_Panicked.
    unfold mbind at 1, IO_bind at 1. cbn [mret IO_ret].
    unfold benchmark, make_Samples.
    destruct (Z.ltb_spec (count fl) 0); [|lia]. reflexivity. }
  split; [exact H|]. rewrite H. reflexivity.
Qed.

Lemma main_count_negative_witness :
  let env := mkEnv (fun s => s) (fun _ _ _ _ _ => None) (fun _ => 0) (fun _ => [])
                   (fun _ _ => None) in
  let fl := mkFlags "example.com" (-1) 1500000000 "ip4" false "A=1.1.1.1" "" in
  exit_code (run env fl) = 2 /\ lookups (run env fl).2 = O.
Proof.
  intros env fl.
  destruct (main_count_negative env fl) as [Hrun Hexit].
  - vm_compute. discriminate.
  - reflexivity.
  - split; [exact Hexit|]. rewrite Hrun. reflexivity.
Defined.

(* ================================================================= *)
(** ** [printTable] *)

Lemma flat_map_singleton {A B : Type} (f : A -> B) (l : list A) :
  flat_map (fun a => [f a]) l = map f l.
Proof.
  induction l as [|a l IH]; cbn [flat_map map app]; [|rewrite IH]; reflexivity.
Qed.

Lemma prints_row_lines (r : Row) : prints (printTable_row r) (row_lines r).
Proof.
  unfold printTable_row, row_lines. cbv zeta.
  match goal with
  | |- prints _ (?o :: ?rest) => change (o :: rest) with ([o] ++ rest)
  end.
  apply prints_bind; [apply prints_print|].
  destruct (Z.ltb_spec 0 (len (Errors (Row_Stats r)))) as [Hpos|Hzero].
  - rewrite <- flat_map_singleton.
    apply (prints_fold (fun e => print (Printf ("  ! %s" +:+ LF) [ArgError e]))
                       (fun e => [Printf ("  ! %s" +:+ LF) [ArgError e]])
                       _ (fun e => prints_print _) (mret tt) [] prints_mret).
  - assert (E : Errors (Row_Stats r) = []).
    { apply len_nil_iff. pose proof (len_nonneg (Errors (Row_Stats r))). lia. }
    rewrite E. apply prints_mret.
Qed.

(** X17. [printTable] returns from every state and touches standard
    output only, to which it appends the header, the rule of 72 dashes
    and, for every row in order, the line of its statistics followed by
    one line for each error that [uniqueErrors] keeps of the row (none
    for a row without errors). *)
Theorem printTable_lines (rows : list Row) :
  table_of rows =
    [Printf ("%-12s  %6s  %6s  %6s  %6s  %6s  %9s" +:+ LF)
       [ArgString "Resolver"; ArgString "Min"; ArgString "Avg"; ArgString "Med";
        ArgString "p95"; ArgString "Max"; ArgString "Success%"];
     Println [ArgString (Repeat "-" 72)]]
    ++ flat_map row_lines rows /\
  (forall w, printTable rows w
             = (Return tt, mkWorld (stdout w ++ table_of rows) (stderr w) (lookups w))).
Proof.
  split.
  - unfold table_of.
    assert (H : prints (printTable rows)
                  ([Printf ("%-12s  %6s  %6s  %6s  %6s  %6s  %9s" +:+ LF)
                      [ArgString "Resolver"; ArgString "Min"; ArgString "Avg";
                       ArgString "Med"; ArgString "p95"; ArgString "Max";
                       ArgString "Success%"]]
                   ++ [Println [ArgString (Repeat "-" 72)]]
                   ++ [] ++ flat_map row_lines rows)).
    { unfold printTable. apply prints_bind; [apply prints_print|].
      apply prints_bind; [apply prints_print|].
      apply (prints_fold printTable_row row_lines rows prints_row_lines
                         (mret tt) [] prints_mret). }
    rewrite H. reflexivity.
  - exact (prints_printTable rows).
Qed.

(* ================================================================= *)
(** ** The names that a run asks for *)

Lemma append_inj_length (a : string) : forall b c d : string,
  String.length a = String.length b -> a +:+ c = b +:+ d -> a = b.
Proof.
  induction a as [|x a IH]; intros [|y b] c d Hlen H; try discriminate; [reflexivity|].
  rewrite !append_cons in H. injection H as -> H. cbn [String.length] in Hlen.
  rewrite (IH b c d); [reflexivity | lia | exact H].
Qed.

(** X18. The name of a query.  In warm mode every lookup asks for the
    domain itself.  In cold mode the [n]-th lookup asks for a label of 16
    hexadecimal digits, a dot and the domain, and two lookups ask for the
    same name only when the random source delivered the same eight bytes:
    fresh bytes give a name that no cache has seen.  Each pass of the inner
    loop of [main] makes one lookup of that name and returns its sample. *)
Theorem query_names (env : Env) (fl : Flags) :
  (cold fl = false -> forall n, qname_at env fl n = domain fl) /\
  (cold fl = true ->
   (forall n, exists label,
      qname_at env fl n = label +:+ "." +:+ domain fl /\
      String.length label = 16%nat /\ all_bytes isHexDigit label = true) /\
   (forall n m, qname_at env fl n = qname_at env fl m ->
                rand8 (Read env n) = rand8 (Read env m))) /\
  (forall r w, query env fl r w =
               (Return (sample_at env fl r (lookups w)),
                mkWorld (stdout w) (stderr w) (S (lookups w)))).
Proof.
  split; [|split].
  - intros Hc n. unfold qname_at. rewrite Hc. reflexivity.
  - intros Hc. unfold qname_at. rewrite Hc. split.
    + intros n. exists (randomLabel (rand8 (Read env n))).
      split; [reflexivity|]. split.
      * rewrite (proj1 (randomLabel_digits _)), length_rand8. reflexivity.
      * apply randomLabel_digits.
    + intros n m H. apply append_inj_length in H.
      * rewrite <- (proj2 (proj2 (randomLabel_digits (rand8 (Read env n))))).
        rewrite <- (proj2 (proj2 (randomLabel_digits (rand8 (Read env m))))).
        rewrite H. reflexivity.
      * rewrite !(proj1 (randomLabel_digits _)), !length_rand8. reflexivity.
  - intros r w. reflexivity.
Qed.
